(** * Car particle simulation: CarVisualization and CarDecorator

    A shallow embedding of the traffic simulation core
    (CarVisualization.ts, CarDecorator.ts, CarParticle.ts) and the
    properties of its routing, kinematics and population control.

    Numbers.  A JavaScript [number] is modelled by an exact rational [Q].
    Whenever the program would produce a value that is not a finite number
    (a division by zero, arithmetic on [undefined]) the embedding stops with
    the error [NonFinite]: it makes no statement about what happens next.
    In [computeMaxCars], where a floor turns the rounding of a reciprocal
    into a different integer, every multiplication and division is rounded
    to the nearest double ([double]).
    Integer-valued numbers that are used as indices (street, segment,
    intersection, type) are modelled by [Z], with the source's sentinel -1.

    Faults.  Reading a property of [undefined] raises a TypeError in the
    program; the embedding returns [Err TypeError] at the same place.

    Randomness.  [Math.random] is an injected sequence [random : nat -> Q];
    the number of draws made so far is threaded through the code. *)

From Stdlib Require Import ZArith QArith Qround Qabs Qpower Lia Lqa List Sorted.
From stdpp Require Import base option list gmap.

Local Open Scope Z_scope.

(** ** Numbers *)

Definition Qltb (a b : Q) : bool := negb (Qle_bool b a).

(** [Array.prototype\[i\]] read with a number index: [undefined] out of range. *)
Definition at_ {A : Type} (l : list A) (i : Z) : option A :=
  if i <? 0 then None else l !! Z.to_nat i.

Definition len {A : Type} (l : list A) : Z := Z.of_nat (length l).

Fixpoint sumQ (l : list Q) : Q :=
  match l with
  | [] => 0%Q
  | d :: l' => (d + sumQ l')%Q
  end.

(** ** Outcomes of a call *)

Inductive fault : Type :=
| TypeError   (* property read on undefined *)
| NonFinite   (* NaN, an infinity, or undefined used as a number *)
| OutOfFuel.  (* the loop bound of the embedding was reached *)

Inductive result (A : Type) : Type :=
| Ok (a : A)
| Err (e : fault).
Arguments Ok {A} a.
Arguments Err {A} e.

Definition rbind {A B : Type} (m : result A) (k : A -> result B) : result B :=
  match m with
  | Ok a => k a
  | Err e => Err e
  end.

(** A computation that may call [Math.random]: the state is the number of
    draws made so far. *)
Definition M (A : Type) : Type := nat -> result (A * nat).

Definition ret {A : Type} (a : A) : M A := fun n => Ok (a, n).

Definition bind {A B : Type} (m : M A) (k : A -> M B) : M B :=
  fun n => match m n with
           | Ok (a, n') => k a n'
           | Err e => Err e
           end.

Definition lift {A : Type} (r : result A) : M A :=
  fun n => match r with
           | Ok a => Ok (a, n)
           | Err e => Err e
           end.

Definition throw {A : Type} (e : fault) : M A := fun _ => Err e.

Declare Scope js_scope.
Delimit Scope js_scope with js.
Notation "'let!' x ':=' m 'in' k" := (rbind m (fun x => k))
  (at level 10, x name, m at level 100, k at level 200) : js_scope.
Notation "'let!' ( x , y ) ':=' m 'in' k" := (rbind m (fun xy => let (x, y) := xy in k))
  (at level 10, x name, y name, m at level 100, k at level 200) : js_scope.
Notation "'do!' x ':=' m 'in' k" := (bind m (fun x => k))
  (at level 10, x name, m at level 100, k at level 200) : js_scope.
Notation "'do!' ( x , y ) ':=' m 'in' k" := (bind m (fun xy => let (x, y) := xy in k))
  (at level 10, x name, y name, m at level 100, k at level 200) : js_scope.
Local Open Scope js_scope.

(** An object that must be defined before a property of it is read. *)
Definition defined {A : Type} (o : option A) : result A :=
  match o with
  | Some a => Ok a
  | None => Err TypeError
  end.

(** An array element used as a number. *)
Definition num (o : option Q) : result Q :=
  match o with
  | Some q => Ok q
  | None => Err NonFinite
  end.

(** [a / b] on numbers. *)
Definition div (a b : Q) : result Q :=
  if Qeq_bool b 0 then Err NonFinite else Ok (a / b)%Q.

(** *** Rounding to a double *)

(** The integer nearest to [q], the even one of two that are equally near. *)
Definition roundHalfEven (q : Q) : Z :=
  let f := Qfloor q in
  match (q - inject_Z f ?= 1 # 2)%Q with
  | Lt => f
  | Gt => f + 1
  | Eq => if Z.even f then f else f + 1
  end.

(** For [q > 0], the exponent [e] with 2^e <= q < 2^(e+1). *)
Definition exponentOf (q : Q) : Z :=
  let e := Z.log2 (Qnum q) - Z.log2 (Zpos (Qden q)) in
  if Qle_bool (2 ^ e) q then e else e - 1.

(** The result of an arithmetic operation whose exact value is [q], as the
    machine stores it: the IEEE 754 binary64 number nearest to [q], ties to
    the even significand.  The significand has 53 bits; below 2^-1022 the
    spacing stays 2^-1074 (subnormal numbers); a result that rounds to 2^1024
    or more is an infinity. *)
Definition double (q : Q) : result Q :=
  if Qeq_bool q 0 then Ok 0%Q
  else
    let e := Z.max (exponentOf (Qabs q)) (-1022) in
    let m := roundHalfEven (Qabs q * 2 ^ (52 - e)) in
    let r := (inject_Z m * 2 ^ (e - 52))%Q in
    if Qle_bool (2 ^ 1024) r then Err NonFinite
    else Ok (if Qle_bool 0 q then r else - r)%Q.

(** ** Data model *)

Module Point3d.
Record t : Type := create { x : Q; y : Q; z : Q }.
Definition minus (p q : t) : t :=
  create (x p - x q)%Q (y p - y q)%Q (z p - z q)%Q.
Definition plusScaled (p v : t) (s : Q) : t :=
  create (x p + x v * s)%Q (y p + y v * s)%Q (z p + z v * s)%Q.
End Point3d.

Module Point2d.
Record t : Type := create { x : Q; y : Q }.
End Point2d.

Module Vector2d.
Record t : Type := create { x : Q; y : Q }.
End Vector2d.

Module Matrix3d.
Record t : Type := createRowValues
  { xx : Q; xy : Q; xz : Q; yx : Q; yy : Q; yz : Q; zx : Q; zy : Q; zz : Q }.
End Matrix3d.

Module Street.
Record t : Type := mk
  { points : list Point3d.t;
    distance : list Q;
    totalDistance : Q;
    speed : Q;
    inTo : Z }.
End Street.

Module Intersection.
(** [findPath] is a method of the intersection objects handed to the
    simulation; the simulation only calls it. *)
Record t : Type := mk
  { streetsOut : list Z;
    inOutProbabilities : gmap Z (list Q);
    inOutPaths : list Street.t;
    stop : bool;
    findPath : Z -> option Z -> Z }.
End Intersection.

Module CarParticle.
Record t : Type := mk
  { x : Q;
    y : Q;
    z : Q;
    speed : Q;
    street : Z;
    segment : Z;
    segmentDist : Q;
    waiting : Q;
    intersection : Z;
    type : Z;
    direction : option Vector2d.t;
    rotationMatrix : option Matrix3d.t }.

Definition setXYZ (c : t) (p : Point3d.t) : t :=
  mk (Point3d.x p) (Point3d.y p) (Point3d.z p) (speed c) (street c) (segment c)
     (segmentDist c) (waiting c) (intersection c) (type c) (direction c) (rotationMatrix c).
Definition setSpeed (c : t) (v : Q) : t :=
  mk (x c) (y c) (z c) v (street c) (segment c)
     (segmentDist c) (waiting c) (intersection c) (type c) (direction c) (rotationMatrix c).
Definition setStreet (c : t) (v : Z) : t :=
  mk (x c) (y c) (z c) (speed c) v (segment c)
     (segmentDist c) (waiting c) (intersection c) (type c) (direction c) (rotationMatrix c).
Definition setSegment (c : t) (v : Z) : t :=
  mk (x c) (y c) (z c) (speed c) (street c) v
     (segmentDist c) (waiting c) (intersection c) (type c) (direction c) (rotationMatrix c).
Definition setSegmentDist (c : t) (v : Q) : t :=
  mk (x c) (y c) (z c) (speed c) (street c) (segment c)
     v (waiting c) (intersection c) (type c) (direction c) (rotationMatrix c).
Definition setWaiting (c : t) (v : Q) : t :=
  mk (x c) (y c) (z c) (speed c) (street c) (segment c)
     (segmentDist c) v (intersection c) (type c) (direction c) (rotationMatrix c).
Definition setIntersection (c : t) (v : Z) : t :=
  mk (x c) (y c) (z c) (speed c) (street c) (segment c)
     (segmentDist c) (waiting c) v (type c) (direction c) (rotationMatrix c).
Definition setType (c : t) (v : Z) : t :=
  mk (x c) (y c) (z c) (speed c) (street c) (segment c)
     (segmentDist c) (waiting c) (intersection c) v (direction c) (rotationMatrix c).
Definition setDirection (c : t) (v : Vector2d.t) : t :=
  mk (x c) (y c) (z c) (speed c) (street c) (segment c)
     (segmentDist c) (waiting c) (intersection c) (type c) (Some v) (rotationMatrix c).
Definition setRotation (c : t) (v : Matrix3d.t) : t :=
  mk (x c) (y c) (z c) (speed c) (street c) (segment c)
     (segmentDist c) (waiting c) (intersection c) (type c) (direction c) (Some v).
End CarParticle.

Inductive Density : Type := Low | Medium | High.

(** The fields of a [CarVisualization] object. *)
Record CarVisualization : Type := mkCarVisualization
  { carParticles : list CarParticle.t;
    _streets : list Street.t;
    _intersections : gmap Z Intersection.t;
    _startStreetIndices : list Z;
    _startStreetProbabilities : list Q;
    _numCars : Q;
    _packingRatio : Q;
    _maxCars : Q;
    _carSize : Point2d.t;
    _numTypes : Z }.

Definition _carSpacingDefault : Q := 1.25.
Definition _accelerationDefault : Q := 10.
Definition _waitTime : Q := 1.

(** ** Positions and headings on a street *)

(** [setPositionOnStreet]: the point at [segmentDist] along the current segment. *)
Definition setPositionOnStreet (car : CarParticle.t) (street : Street.t)
  : result CarParticle.t :=
  let! d := num (at_ (Street.distance street) (CarParticle.segment car)) in
  let! ratio := div (CarParticle.segmentDist car) d in
  let! pB := defined (at_ (Street.points street) (CarParticle.segment car + 1)) in
  let! pA := defined (at_ (Street.points street) (CarParticle.segment car)) in
  let tmpPntA := Point3d.minus pB pA in
  let tmpPntB := Point3d.plusScaled pA tmpPntA ratio in
  Ok (CarParticle.setXYZ car tmpPntB).

(** [setDirectionOnStreet]: heading of the current segment, Y negated. *)
Definition setDirectionOnStreet (car : CarParticle.t) (street : option Street.t)
  : result CarParticle.t :=
  let! street := defined street in
  let n := len (Street.points street) in
  let! dir :=
    if CarParticle.segment car >=? n - 1 then
      let! pB := defined (at_ (Street.points street) (n - 1)) in
      let! pA := defined (at_ (Street.points street) (n - 2)) in
      Ok (Point3d.minus pB pA)
    else
      let! pB := defined (at_ (Street.points street) (CarParticle.segment car + 1)) in
      let! pA := defined (at_ (Street.points street) (CarParticle.segment car)) in
      Ok (Point3d.minus pB pA) in
  Ok (CarParticle.setDirection car (Vector2d.create (Point3d.x dir) (- Point3d.y dir)%Q)).

(** ** Kinematics: [moveCarOnStreet] *)

(** Speed after one step: towards the street's limit, never past it. *)
Definition adjustSpeed (speed limit elapsedSeconds : Q) : Q :=
  if Qltb speed limit then
    let s := (speed + _accelerationDefault * elapsedSeconds)%Q in
    if Qltb limit s then limit else s
  else if Qltb limit speed then
    let s := (speed - _accelerationDefault * elapsedSeconds)%Q in
    if Qltb s limit then limit else s
  else speed.

(** The do-while loop that crosses whole segments. *)
Fixpoint crossSegments (fuel : nat) (distance : list Q) (segment : Z) (segmentDist : Q)
  : result (Z * Q) :=
  match fuel with
  | O => Err OutOfFuel
  | S fuel' =>
      let! d := num (at_ distance segment) in
      let segmentDist := (segmentDist - d)%Q in
      let segment := segment + 1 in
      if segment <? len distance then
        let! d' := num (at_ distance segment) in
        if Qle_bool d' segmentDist
        then crossSegments fuel' distance segment segmentDist
        else Ok (segment, segmentDist)
      else Ok (segment, segmentDist)
  end.

Definition moveCarOnStreet (car : CarParticle.t) (street : Street.t) (elapsedSeconds : Q)
  : result (CarParticle.t * Q) :=
  let car := CarParticle.setSpeed car
               (adjustSpeed (CarParticle.speed car) (Street.speed street) elapsedSeconds) in
  let car := CarParticle.setSegmentDist car
               (CarParticle.segmentDist car + elapsedSeconds * CarParticle.speed car)%Q in
  let! d := num (at_ (Street.distance street) (CarParticle.segment car)) in
  if Qltb (CarParticle.segmentDist car) d then
    let! car := setPositionOnStreet car street in
    Ok (car, (-1)%Q)
  else
    let! (segment, segmentDist) :=
      crossSegments (S (length (Street.distance street))) (Street.distance street)
                    (CarParticle.segment car) (CarParticle.segmentDist car) in
    let car := CarParticle.setSegment (CarParticle.setSegmentDist car segmentDist) segment in
    if segment <? len (Street.distance street) then
      let! car := setPositionOnStreet car street in
      let! car := setDirectionOnStreet car (Some street) in
      Ok (car, (-1)%Q)
    else
      let! p := defined (at_ (Street.points street) segment) in
      let car := CarParticle.setXYZ car p in
      let! timeLeft := div (CarParticle.segmentDist car) (CarParticle.speed car) in
      let! last := num (at_ (Street.distance street) (segment - 1)) in
      let car := CarParticle.setSegmentDist car last in
      let! car := setDirectionOnStreet car (Some street) in
      Ok (car, timeLeft).

(** ** Routing and population control *)

Inductive step : Type :=
| Return (car : CarParticle.t)
| Continue (car : CarParticle.t) (timeLeft elapsedSeconds : Q).

Section Simulation.

(** The sequence of values returned by [Math.random]. *)
Variable random : nat -> Q.

(** [Vector2d.normalize] and [Point3d.distance] of the geometry library
    (square roots), and the two size constants imported from OverpassApi. *)
Variable normalize : Vector2d.t -> option Vector2d.t.
Variable pointDistance : Point3d.t -> Point3d.t -> Q.
Variable carSizeDefaultX carSizeDefaultY : Q.

Definition Math_random : M Q := fun n => Ok (random n, S n).

(** Generate integer in [min, max]. *)
Definition randomInteger (min max : Z) : M Z :=
  do! r := Math_random in
  ret (Qfloor (r * inject_Z (max - min + 1)) + min).

(** Generate random number in [min, max). *)
Definition randomFloat (min max : Q) : M Q :=
  do! r := Math_random in
  ret (r * (max - min) + min)%Q.

(** The [for] loop of [computeMaxCars].  The product is rounded as the
    machine rounds it; the sums are sums of integers, which are exact in
    doubles below 2^53. *)
Fixpoint computeMaxCarsLoop (streets : list Street.t) (d carsThatCanFit : Q) : result Q :=
  match streets with
  | [] => Ok carsThatCanFit
  | street :: rest =>
      let! product := double (Street.totalDistance street * d) in
      computeMaxCarsLoop rest d (carsThatCanFit + (inject_Z (Qfloor product) + 1))%Q
  end.

(** Returns the maximum number of cars that can fit on the available streets
    with a given packingRatio and a hard cap of [maxCars]. *)
Definition computeMaxCars (this : CarVisualization) (carSize packingRatio maxCars : Q)
  : result Q :=
  let! spaced := double (carSize * _carSpacingDefault) in
  let! divisor := double (spaced * packingRatio) in
  let! quotient := div 1 divisor in
  let! d := double quotient in
  let! carsThatCanFit := computeMaxCarsLoop (_streets this) d 0 in
  Ok (if Qltb maxCars carsThatCanFit then maxCars else carsThatCanFit).

Definition getNumberOfCars (maxCars : Q) (density : Density) : Q :=
  match density with
  | Low => (maxCars / 5)%Q
  | Medium => (maxCars / 3)%Q
  | High => maxCars
  end.

Definition with_numCars (this : CarVisualization) (n : Q) : CarVisualization :=
  mkCarVisualization (carParticles this) (_streets this) (_intersections this)
    (_startStreetIndices this) (_startStreetProbabilities this) n
    (_packingRatio this) (_maxCars this) (_carSize this) (_numTypes this).

Definition with_carSize (this : CarVisualization) (s : Point2d.t) : CarVisualization :=
  mkCarVisualization (carParticles this) (_streets this) (_intersections this)
    (_startStreetIndices this) (_startStreetProbabilities this) (_numCars this)
    (_packingRatio this) (_maxCars this) s (_numTypes this).

Definition with_carParticles (this : CarVisualization) (cars : list CarParticle.t)
  : CarVisualization :=
  mkCarVisualization cars (_streets this) (_intersections this)
    (_startStreetIndices this) (_startStreetProbabilities this) (_numCars this)
    (_packingRatio this) (_maxCars this) (_carSize this) (_numTypes this).

Definition with_startStreetProbabilities (this : CarVisualization) (probabilities : list Q)
  : CarVisualization :=
  mkCarVisualization (carParticles this) (_streets this) (_intersections this)
    (_startStreetIndices this) probabilities (_numCars this)
    (_packingRatio this) (_maxCars this) (_carSize this) (_numTypes this).

Definition changeDensity (this : CarVisualization) (density : Density)
  : result CarVisualization :=
  let! totalCars :=
    computeMaxCars this (Point2d.y (_carSize this)) (_packingRatio this) (_maxCars this) in
  Ok (with_numCars this (getNumberOfCars totalCars density)).

Definition setSize (this : CarVisualization) (size : Q) : CarVisualization :=
  with_carSize this (Point2d.create (carSizeDefaultX * size) (carSizeDefaultY * size))%Q.

Definition getSize (this : CarVisualization) : Point2d.t := _carSize this.

Definition getParticles (this : CarVisualization) : list CarParticle.t :=
  carParticles this.

Definition setRotationMatrix (car : CarParticle.t) : CarParticle.t :=
  match CarParticle.direction car with
  | Some direction =>
      match normalize direction with
      | Some d =>
          CarParticle.setRotation car
            (Matrix3d.createRowValues
               (Vector2d.x d) (Vector2d.y d) 0 (- Vector2d.y d) (Vector2d.x d) 0 0 0 0)%Q
      | None => car
      end
  | None => car
  end.

(** The loop of [emitCar] over [_startStreetProbabilities]: no [break], so
    the last matching entry stays. *)
Fixpoint emitCarLoop (probabilities : list Q) (p : Z) (indices : list Z)
    (probability : Q) (street : option Z) : option Z :=
  match probabilities with
  | [] => street
  | pr :: rest =>
      emitCarLoop rest (p + 1) indices probability
        (if Qltb probability pr then at_ indices p else street)
  end.

Definition emitCar (this : CarVisualization)
    (street segment : option Z) (distance : option Q) : M CarParticle.t :=
  do! street :=
    match street with
    | Some s => ret (Some s)
    | None =>
        do! k := randomInteger 0 (len (_startStreetIndices this) - 1) in
        do! probability := randomFloat 0 1 in
        ret (emitCarLoop (_startStreetProbabilities this) 0 (_startStreetIndices this)
               probability (at_ (_startStreetIndices this) k))
    end in
  let seg := match segment with Some s => s | None => 0 end in
  do! street := lift (defined street) in
  do! st := lift (defined (at_ (_streets this) street)) in
  do! p := lift (defined (at_ (Street.points st) seg)) in
  do! type := randomInteger 0 (_numTypes this - 1) in
  let car :=
    CarParticle.mk (Point3d.x p) (Point3d.y p) (Point3d.z p) 0 street seg 0 0 (-1) type
      None None in
  do! car :=
    match segment with
    | Some segment =>
        if segment >=? len (Street.distance st) then
          do! p1 := lift (defined (at_ (Street.points st) (seg + 1))) in
          let car := CarParticle.setSegment car (len (Street.distance st) - 1) in
          let car := CarParticle.setXYZ car p1 in
          ret (CarParticle.setSegmentDist car (pointDistance p1 p))
        else
          match distance with
          | Some distance =>
              lift (setPositionOnStreet (CarParticle.setSegmentDist car distance) st)
          | None => ret car
          end
    | None => ret car
    end in
  lift (setDirectionOnStreet car (at_ (_streets this) (CarParticle.street car))).

(** Places car on random street with a random texture. *)
Definition restartCar (this : CarVisualization) (car : CarParticle.t) : M CarParticle.t :=
  do! k := randomInteger 0 (len (_startStreetIndices this) - 1) in
  do! street := lift (defined (at_ (_startStreetIndices this) k)) in
  let seg := 0 in
  do! st := lift (defined (at_ (_streets this) street)) in
  do! p := lift (defined (at_ (Street.points st) seg)) in
  let car := CarParticle.setXYZ car p in
  let car := CarParticle.setSpeed car 0 in
  let car := CarParticle.setStreet car street in
  let car := CarParticle.setSegment car seg in
  let car := CarParticle.setSegmentDist car 0 in
  let car := CarParticle.setWaiting car 0 in
  let car := CarParticle.setIntersection car (-1) in
  do! type := randomInteger 0 (_numTypes this - 1) in
  let car := CarParticle.setType car type in
  lift (setDirectionOnStreet car (at_ (_streets this) (CarParticle.street car))).

(** The loop of [getNextStreet]: the first entry that exceeds [r]. *)
Fixpoint getNextStreetLoop (probabilities : list Q) (index : Z) (r : Q)
    (streetsOut : list Z) : option Z :=
  match probabilities with
  | [] => Some (-1)
  | p :: rest =>
      if Qltb r p then at_ streetsOut index
      else getNextStreetLoop rest (index + 1) r streetsOut
  end.

(** Uses probability to pick the next street to travel on; [None] is the
    [undefined] read past the end of [streetsOut]. *)
Definition getNextStreet (intersection : Intersection.t) (streetIn : Z) : M (option Z) :=
  match Intersection.inOutProbabilities intersection !! streetIn with
  | None => ret (Some (-1))
  | Some probabilities =>
      do! r := randomFloat 0 1 in
      ret (getNextStreetLoop probabilities 0 r (Intersection.streetsOut intersection))
  end.

(** One pass through the body of the [while (timeLeft > 0)] loop of [moveCar]. *)
Definition moveCarBody (this : CarVisualization) (car : CarParticle.t)
    (timeLeft elapsedSeconds : Q) : M step :=
  let waited : CarParticle.t * Q + CarParticle.t :=
    if Qltb 0 (CarParticle.waiting car) then
      if Qle_bool elapsedSeconds (CarParticle.waiting car) then
        inr (CarParticle.setWaiting car (CarParticle.waiting car - elapsedSeconds)%Q)
      else
        inl (CarParticle.setWaiting car 0, (elapsedSeconds - CarParticle.waiting car)%Q)
    else inl (car, elapsedSeconds) in
  match waited with
  | inr car => ret (Return car)
  | inl (car, elapsedSeconds) =>
      let curStreet :=
        if CarParticle.intersection car =? -1 then
          at_ (_streets this) (CarParticle.street car)
        else
          match _intersections this !! CarParticle.intersection car with
          | Some i => at_ (Intersection.inOutPaths i) (CarParticle.street car)
          | None => None
          end in
      match curStreet with
      | None => ret (Return car)
      | Some curStreet =>
          do! car :=
            (if Qeq_bool 0 (CarParticle.speed car)
             then lift (setDirectionOnStreet car (Some curStreet))
             else ret car) in
          do! (car, timeLeft) := lift (moveCarOnStreet car curStreet timeLeft) in
          if Qltb timeLeft 0 then ret (Return car)
          else if CarParticle.intersection car >=? 0 then
            (* Came to the end of an intersection path *)
            do! street :=
              match _intersections this !! CarParticle.intersection car with
              | Some i =>
                  do! path :=
                    lift (defined (at_ (Intersection.inOutPaths i) (CarParticle.street car))) in
                  ret (if Street.inTo path =? 0 then CarParticle.street car
                       else Street.inTo path)
              | None => ret (CarParticle.street car)
              end in
            let car := CarParticle.setStreet car street in
            let car := CarParticle.setSegment car 0 in
            let car := CarParticle.setSegmentDist car 0 in
            let car := CarParticle.setIntersection car (-1) in
            do! car :=
              lift (setDirectionOnStreet car (at_ (_streets this) (CarParticle.street car))) in
            ret (Continue car timeLeft elapsedSeconds)
          else
            (* Came to end of a street and are now at an intersection *)
            do! st := lift (defined (at_ (_streets this) (CarParticle.street car))) in
            let curIntersectionId := Street.inTo st in
            let curIntersection := _intersections this !! curIntersectionId in
            let intersection :=
              match curIntersection with
              | Some i => len (Intersection.streetsOut i)
              | None => 0
              end in
            if (curIntersectionId <? 0) || (intersection =? 0) then
              do! car := restartCar this car in
              ret (Return car)
            else
              match curIntersection with
              | None => ret (Continue car timeLeft elapsedSeconds)
              | Some curIntersection =>
                  do! outStreetIndex :=
                    getNextStreet curIntersection (CarParticle.street car) in
                  let car :=
                    CarParticle.setStreet car
                      (Intersection.findPath curIntersection (CarParticle.street car)
                         outStreetIndex) in
                  let car := CarParticle.setSegment car 0 in
                  let car := CarParticle.setSegmentDist car 0 in
                  if CarParticle.street car =? -1 then
                    (* Couldn't find the path so just jump to the beginning of the street *)
                    do! out := lift (defined outStreetIndex) in
                    let car := CarParticle.setStreet car out in
                    do! car :=
                      lift (setDirectionOnStreet car
                              (at_ (_streets this) (CarParticle.street car))) in
                    ret (Continue car timeLeft elapsedSeconds)
                  else
                    let car := CarParticle.setIntersection car curIntersectionId in
                    if Intersection.stop curIntersection then
                      let car := CarParticle.setSpeed car 0 in
                      if Qltb timeLeft _waitTime then
                        ret (Return (CarParticle.setWaiting car (_waitTime - timeLeft)%Q))
                      else ret (Continue car (timeLeft - _waitTime)%Q elapsedSeconds)
                    else
                      do! car :=
                        lift (setDirectionOnStreet car
                                (at_ (Intersection.inOutPaths curIntersection)
                                     (CarParticle.street car))) in
                      ret (Continue car timeLeft elapsedSeconds)
              end
      end
  end.

Fixpoint moveCarLoop (fuel : nat) (this : CarVisualization) (car : CarParticle.t)
    (timeLeft elapsedSeconds : Q) : M CarParticle.t :=
  if Qltb 0 timeLeft then
    match fuel with
    | O => throw OutOfFuel
    | S fuel' =>
        do! s := moveCarBody this car timeLeft elapsedSeconds in
        match s with
        | Return car => ret car
        | Continue car timeLeft elapsedSeconds =>
            moveCarLoop fuel' this car timeLeft elapsedSeconds
        end
    end
  else ret car.

(** Update a given car's speed and position. *)
Definition moveCar (fuel : nat) (this : CarVisualization) (car : CarParticle.t)
    (elapsedSeconds : Q) : M CarParticle.t :=
  moveCarLoop fuel this car elapsedSeconds elapsedSeconds.

(** [while (numCars > 0)]: add cars. *)
Fixpoint addCars (fuel : nat) (this : CarVisualization) (numCars : Q)
    (cars : list CarParticle.t) : M (Q * list CarParticle.t) :=
  if Qltb 0 numCars then
    match fuel with
    | O => throw OutOfFuel
    | S fuel' =>
        do! s := randomInteger 0 (len (_streets this) - 1) in
        do! st := lift (defined (at_ (_streets this) s)) in
        do! seg := randomInteger 0 (len (Street.distance st) - 1) in
        do! d := lift (num (at_ (Street.distance st) seg)) in
        do! distance := randomFloat 0 d in
        do! car := emitCar this (Some s) (Some seg) (Some distance) in
        addCars fuel' this (numCars - 1)%Q (cars ++ [car])
    end
  else ret (numCars, cars).

(** [while (numCars < 0)]: remove excess cars; [pop] on an empty array does nothing. *)
Fixpoint removeCars (fuel : nat) (numCars : Q) (cars : list CarParticle.t)
  : M (Q * list CarParticle.t) :=
  if Qltb numCars 0 then
    match fuel with
    | O => throw OutOfFuel
    | S fuel' => removeCars fuel' (numCars + 1)%Q (removelast cars)
    end
  else ret (numCars, cars).

(** [for (const car of this.carParticles)]: move each car. *)
Fixpoint moveCars (fuel : nat) (this : CarVisualization) (elapsedSeconds : Q)
    (cars : list CarParticle.t) : M (list CarParticle.t) :=
  match cars with
  | [] => ret []
  | car :: rest =>
      do! car := moveCar fuel this car elapsedSeconds in
      let car := setRotationMatrix car in
      do! rest := moveCars fuel this elapsedSeconds rest in
      ret (car :: rest)
  end.

(** Update the positions and velocities of all the particles.  The result
    is the returned array and the object afterwards; unless the street list
    is empty the returned array is [carParticles] itself. *)
Definition updateParticles (fuel : nat) (this : CarVisualization) (elapsedSeconds : Q)
  : M (list CarParticle.t * CarVisualization) :=
  if len (_streets this) =? 0 then ret ([], this)
  else
    let numCars := (_numCars this - inject_Z (len (carParticles this)))%Q in
    do! (numCars, cars) := addCars fuel this numCars (carParticles this) in
    do! (numCars, cars) := removeCars fuel numCars cars in
    do! cars := moveCars fuel this elapsedSeconds cars in
    ret (cars, with_carParticles this cars).

(** *** CarDecorator *)

Record CarDecorator : Type := mkCarDecorator
  { _carTextures : list (option positive);
    _lastUpdateTime : Q;
    _visualization : CarVisualization;
    _speedMultiplier : Q;
    _pause : bool }.

(** Sets pause, if true the decorator will not redraw the cars and won't move. *)
Definition pause (this : CarDecorator) (pause : bool) : CarDecorator :=
  mkCarDecorator (_carTextures this) (_lastUpdateTime this) (_visualization this)
    (_speedMultiplier this) pause.

(** [decorate], up to the choice of the particles to draw: the result is
    the [particles] array given to the particle builders ([None] when the
    textures are not loaded and nothing is drawn) and the decorator
    afterwards.  [now] is the value of [Date.now()]. *)
Definition decorate (fuel : nat) (this : CarDecorator) (now : Q)
  : M (option (list CarParticle.t) * CarDecorator) :=
  match at_ (_carTextures this) 0 with
  | Some (Some _) =>
      let deltaMillis := ((now - _lastUpdateTime this) * _speedMultiplier this)%Q in
      let this := mkCarDecorator (_carTextures this) now (_visualization this)
                    (_speedMultiplier this) (_pause this) in
      if _pause this then
        ret (Some (getParticles (_visualization this)), this)
      else
        do! (particles, visualization) :=
          updateParticles fuel (_visualization this) (deltaMillis / 1000)%Q in
        ret (Some particles,
             mkCarDecorator (_carTextures this) (_lastUpdateTime this) visualization
               (_speedMultiplier this) (_pause this))
  | _ => ret (None, this)
  end.

End Simulation.

(** ** Initial placement, reset and construction *)

(** The corner range computed by the constructor: the arguments it passes
    to [Range2d.createXYXY]. *)
Record Range : Type := mkRange { xLow : Q; yLow : Q; xHigh : Q; yHigh : Q }.

Definition growRange (r : Range) (point : Point3d.t) : Range :=
  mkRange
    (if Qltb (Point3d.x point) (xLow r) then Point3d.x point else xLow r)
    (if Qltb (Point3d.y point) (yLow r) then Point3d.y point else yLow r)
    (if Qltb (xHigh r) (Point3d.x point) then Point3d.x point else xHigh r)
    (if Qltb (yHigh r) (Point3d.y point) then Point3d.y point else yHigh r).

(** The [if] of the constructor that finds the corners: [None] when the first
    street or its first point is missing and [corners] stays empty. *)
Definition findCorners (streets : list Street.t) : option Range :=
  match at_ streets 0 with
  | Some street0 =>
      match at_ (Street.points street0) 0 with
      | Some initPoint =>
          Some (fold_left
                  (fun r street => fold_left growRange (Street.points street) r)
                  streets
                  (mkRange (Point3d.x initPoint) (Point3d.y initPoint)
                           (Point3d.x initPoint) (Point3d.y initPoint)))
      | None => None
      end
  | None => None
  end.

(** The loop of [initializeCars] that finds the segment onto which the car
    will be placed, walking back from the last segment. *)
Fixpoint backUp (fuel : nat) (distance : list Q) (seg : Z) (d : Q) : result (Z * Q) :=
  match fuel with
  | O => Err OutOfFuel
  | S fuel' =>
      if seg >=? 0 then
        let! ds := num (at_ distance seg) in
        if Qltb ds d then backUp fuel' distance (seg - 1) (d - ds)%Q
        else Ok (seg, d)
      else Ok (seg, d)
  end.

(** [carBuilders\[car.type\].addParticle(car)] for every particle: the
    builders are the lists of particles added to them. *)
Fixpoint addParticles (carBuilders : list (list CarParticle.t))
    (particles : list CarParticle.t) : result (list (list CarParticle.t)) :=
  match particles with
  | [] => Ok carBuilders
  | car :: rest =>
      let! builder := defined (at_ carBuilders (CarParticle.type car)) in
      addParticles (<[Z.to_nat (CarParticle.type car) := builder ++ [car]]> carBuilders) rest
  end.

Section Placement.

Variable random : nat -> Q.
Variable pointDistance : Point3d.t -> Point3d.t -> Q.
Variable carSizeDefaultX carSizeDefaultY : Q.

(** The [for] loop of [initializeCars] over the streets, from street [i] on. *)
Fixpoint placeOnStreets (streets : list Street.t) (i : Z) (this : CarVisualization)
    (distanceBack : Q) (cars : list CarParticle.t) (carsAdded : Z)
  : M (list CarParticle.t * Z) :=
  match streets with
  | [] => ret (cars, carsAdded)
  | street :: rest =>
      if Qltb (inject_Z (len cars)) (_numCars this) then
        do! (seg, d) :=
          lift (backUp (S (length (Street.distance street))) (Street.distance street)
                  (len (Street.distance street) - 1) distanceBack) in
        if seg >=? 0 then
          do! ds := lift (num (at_ (Street.distance street) seg)) in
          do! car := emitCar random pointDistance this (Some i) (Some seg) (Some (ds - d)%Q) in
          placeOnStreets rest (i + 1) this distanceBack (cars ++ [car]) (carsAdded + 1)
        else placeOnStreets rest (i + 1) this distanceBack cars carsAdded
      else ret (cars, carsAdded)
  end.

(** The outer [while] loop of [initializeCars]. *)
Fixpoint initializeLoop (fuel : nat) (this : CarVisualization) (spacing packRatio : Q)
    (c carsAdded : Z) (cars : list CarParticle.t) : M (list CarParticle.t) :=
  if (0 <? carsAdded) && Qltb (inject_Z (len cars)) (_numCars this) then
    match fuel with
    | O => throw OutOfFuel
    | S fuel' =>
        let distanceBack := (inject_Z c * spacing * packRatio)%Q in
        do! (cars, carsAdded) :=
          placeOnStreets (_streets this) 0 this distanceBack cars 0 in
        initializeLoop fuel' this spacing packRatio (c + 1) carsAdded cars
    end
  else ret cars.

(** Creates car particles and places them on streets based off of the number
    of total cars and the spacing between cars. *)
Definition initializeCars (fuel : nat) (this : CarVisualization) : M CarVisualization :=
  let spacing := (Point2d.x (_carSize this) * _carSpacingDefault)%Q in
  let packRatio := 1%Q in
  do! cars := initializeLoop fuel this spacing packRatio 0 1 (carParticles this) in
  ret (with_carParticles this cars).

(** Destroys then recreates all of the car particles. *)
Definition reset (fuel : nat) (this : CarVisualization) (numCars : Q) : M CarVisualization :=
  initializeCars fuel (with_numCars (with_carParticles this []) numCars).

(** The constructor: the object and the corner range. *)
Definition construct (maxCars : Q) (density : Density) (size : Q) (numTypes : Z)
    (streets : list Street.t) (intersections : gmap Z Intersection.t)
    (startStreetIndices : list Z) (startStreetProbabilities : list Q)
  : result (CarVisualization * option Range) :=
  let this :=
    mkCarVisualization [] streets intersections startStreetIndices startStreetProbabilities
      1 10 maxCars (Point2d.create 0 0) numTypes in
  let this := setSize carSizeDefaultX carSizeDefaultY this size in
  let! this := changeDensity this density in
  Ok (this, findCorners streets).

End Placement.

(** ** Formulas of the specification *)

(** Capacity of one street: floor(totalDistance / (carSize.y × spacing × packingRatio)) + 1. *)
Definition capacity_spec (carSizeY packingRatio : Q) (street : Street.t) : Q :=
  (inject_Z (Qfloor (Street.totalDistance street
                     / (carSizeY * _carSpacingDefault * packingRatio))) + 1)%Q.

(** Capacity of the network: the sum over all streets, capped at [maxCars]. *)
Definition networkCapacity_spec (streets : list Street.t) (carSizeY packingRatio maxCars : Q)
  : Q :=
  let total := sumQ (map (capacity_spec carSizeY packingRatio) streets) in
  if Qltb maxCars total then maxCars else total.

Definition targetCount_spec (capacity : Q) (density : Density) : Q :=
  match density with
  | Low => (capacity / 5)%Q
  | Medium => (capacity / 3)%Q
  | High => capacity
  end.

(** Weighted selection: the entry of [indices] aligned with the first
    cumulative probability that exceeds [r]. *)
Fixpoint weightedPick_spec (probabilities : list Q) (indices : list Z) (r : Q) : option Z :=
  match probabilities, indices with
  | p :: probabilities', i :: indices' =>
      if Qltb r p then Some i else weightedPick_spec probabilities' indices' r
  | _, _ => None
  end.

(** ** States of a particle on the network *)

(** The segment lengths from index [from] up to, not including, index [to]. *)
Definition lengthsBetween (distance : list Q) (from to : Z) : list Q :=
  take (Z.to_nat (to - from)) (drop (Z.to_nat from) distance).

(** The particle lies within segment [CarParticle.segment car] of the street,
    at the point interpolated linearly between the segment's end points. *)
Definition onSegment (street : Street.t) (car : CarParticle.t) : Prop :=
  exists d pA pB,
    at_ (Street.distance street) (CarParticle.segment car) = Some d /\
    at_ (Street.points street) (CarParticle.segment car) = Some pA /\
    at_ (Street.points street) (CarParticle.segment car + 1) = Some pB /\
    (0 <= CarParticle.segmentDist car)%Q /\ (CarParticle.segmentDist car < d)%Q /\
    CarParticle.x car
    = (Point3d.x pA + (Point3d.x pB - Point3d.x pA) * (CarParticle.segmentDist car / d))%Q /\
    CarParticle.y car
    = (Point3d.y pA + (Point3d.y pB - Point3d.y pA) * (CarParticle.segmentDist car / d))%Q /\
    CarParticle.z car
    = (Point3d.z pA + (Point3d.z pB - Point3d.z pA) * (CarParticle.segmentDist car / d))%Q.

(** The particle stands on the last point of the street, with [segmentDist]
    the length of the last segment and the heading of the last segment. *)
Definition atTerminal (street : Street.t) (car : CarParticle.t) : Prop :=
  exists pPrev pEnd dLast,
    last (Street.points street) = Some pEnd /\
    at_ (Street.points street) (len (Street.points street) - 2) = Some pPrev /\
    last (Street.distance street) = Some dLast /\
    CarParticle.x car = Point3d.x pEnd /\
    CarParticle.y car = Point3d.y pEnd /\
    CarParticle.z car = Point3d.z pEnd /\
    CarParticle.segment car = len (Street.distance street) /\
    CarParticle.segmentDist car = dLast /\
    CarParticle.direction car
    = Some (Vector2d.create (Point3d.x pEnd - Point3d.x pPrev)
                            (- (Point3d.y pEnd - Point3d.y pPrev)))%Q.

(** A street with at least one segment, one more point than segments, and
    no segment of length 0. *)
Definition streetWellFormed (st : Street.t) : Prop :=
  0 < len (Street.distance st) /\
  len (Street.points st) = len (Street.distance st) + 1 /\
  Forall (fun d => ~ (d == 0)%Q) (Street.distance st).

(** The street's end leads nowhere: its [inTo] is the edge sentinel, or no
    intersection with an outbound street is registered under it. *)
Definition leavesNetwork (this : CarVisualization) (st : Street.t) : Prop :=
  Street.inTo st < 0 \/
  forall i, _intersections this !! Street.inTo st = Some i -> Intersection.streetsOut i = [].

(** Every entry-eligible street exists and has at least two points. *)
Definition entriesWellFormed (this : CarVisualization) : Prop :=
  _startStreetIndices this <> [] /\
  forall s, In s (_startStreetIndices this) ->
            exists st, at_ (_streets this) s = Some st /\ 2 <= len (Street.points st).

(** A particle as [restartCar] leaves it: at the origin of an entry street. *)
Definition respawned (this : CarVisualization) (car : CarParticle.t) : Prop :=
  exists st p0,
    In (CarParticle.street car) (_startStreetIndices this) /\
    at_ (_streets this) (CarParticle.street car) = Some st /\
    at_ (Street.points st) 0 = Some p0 /\
    CarParticle.x car = Point3d.x p0 /\
    CarParticle.y car = Point3d.y p0 /\
    CarParticle.z car = Point3d.z p0 /\
    CarParticle.speed car = 0%Q /\
    CarParticle.segment car = 0 /\
    CarParticle.segmentDist car = 0%Q /\
    CarParticle.waiting car = 0%Q /\
    CarParticle.intersection car = -1.

(** ** Further predicates *)

(** The car carried by one pass of the loop of [moveCar]. *)
Definition stepCar (s : step) : CarParticle.t :=
  match s with
  | Return car => car
  | Continue car _ _ => car
  end.

(** Every variant is an index into the texture list. *)
Definition variantsInRange (numTypes : Z) (cars : list CarParticle.t) : Prop :=
  Forall (fun c => 0 <= CarParticle.type c < numTypes) cars.

(** The rotation of a particle is the one derived from its heading. *)
Definition rotationFollowsHeading (normalize : Vector2d.t -> option Vector2d.t)
    (car : CarParticle.t) : Prop :=
  forall v d,
    CarParticle.direction car = Some v ->
    normalize v = Some d ->
    CarParticle.rotationMatrix car
    = Some (Matrix3d.createRowValues
              (Vector2d.x d) (Vector2d.y d) 0 (- Vector2d.y d) (Vector2d.x d) 0 0 0 0)%Q.

(** The street or intersection path a car is on, as [moveCar] looks it up. *)
Definition currentStreet (this : CarVisualization) (car : CarParticle.t) : option Street.t :=
  if CarParticle.intersection car =? -1 then
    at_ (_streets this) (CarParticle.street car)
  else
    match _intersections this !! CarParticle.intersection car with
    | Some i => at_ (Intersection.inOutPaths i) (CarParticle.street car)
    | None => None
    end.

(** The point lies within the range, in x and y. *)
Definition within (r : Range) (p : Point3d.t) : Prop :=
  (xLow r <= Point3d.x p)%Q /\ (Point3d.x p <= xHigh r)%Q /\
  (yLow r <= Point3d.y p)%Q /\ (Point3d.y p <= yHigh r)%Q.

(** The second range contains the first. *)
Definition widens (r r' : Range) : Prop :=
  (xLow r' <= xLow r)%Q /\ (xHigh r <= xHigh r')%Q /\
  (yLow r' <= yLow r)%Q /\ (yHigh r <= yHigh r')%Q.

(** Each bound of the range is a coordinate of the first point or of one of
    the given points. *)
Definition attained (init : Point3d.t) (points : list Point3d.t) (r : Range) : Prop :=
  (exists p, In p (init :: points) /\ xLow r = Point3d.x p) /\
  (exists p, In p (init :: points) /\ xHigh r = Point3d.x p) /\
  (exists p, In p (init :: points) /\ yLow r = Point3d.y p) /\
  (exists p, In p (init :: points) /\ yHigh r = Point3d.y p).

(** The car is at rest on a street of the network, within a segment of it,
    [back] before the street's end, measured along the street. *)
Definition placedBack (this : CarVisualization) (back : Q) (car : CarParticle.t) : Prop :=
  exists st ds,
    at_ (_streets this) (CarParticle.street car) = Some st /\
    at_ (Street.distance st) (CarParticle.segment car) = Some ds /\
    CarParticle.intersection car = -1 /\
    CarParticle.speed car = 0%Q /\
    CarParticle.waiting car = 0%Q /\
    (0 <= CarParticle.segmentDist car)%Q /\
    (CarParticle.segmentDist car <= ds)%Q /\
    (ds - CarParticle.segmentDist car
     + sumQ (lengthsBetween (Street.distance st) (CarParticle.segment car + 1)
               (len (Street.distance st))) == back)%Q.

(** One round of [initializeCars] at distance [back] from the street ends:
    every car of the round is placed [back] before the end of its street, the
    round visits the streets in increasing order and puts at most one car on
    each, and a street has no car of the round only if it is shorter than
    [back] or the target was reached by the particles [final]. *)
Definition placementRound (this : CarVisualization) (back : Q)
    (final round : list CarParticle.t) : Prop :=
  Forall (placedBack this back) round /\
  StronglySorted Z.lt (map CarParticle.street round) /\
  forall j st,
    at_ (_streets this) j = Some st ->
    (exists car, In car round /\ CarParticle.street car = j) \/
    (sumQ (Street.distance st) < back)%Q \/
    (_numCars this <= inject_Z (len final))%Q.

(** ** Sample networks *)

Module Sample.

Definition P (a b c : Q) : Point3d.t := Point3d.create a b c.

Definition noNormalize (v : Vector2d.t) : option Vector2d.t := None.
Definition noDistance (p q : Point3d.t) : Q := 0.

(** A sequence of draws: the listed values, then zeros. *)
Definition draws (l : list Q) (n : nat) : Q := nth n l 0%Q.

(** One street of length 100 that ends at the edge of the network. *)
Definition deadEnd : Street.t :=
  Street.mk [P 0 0 0; P 100 0 0] [100%Q] 100 10 (-1).

Definition oneStreet (cars : list CarParticle.t) (numCars : Q) : CarVisualization :=
  mkCarVisualization cars [deadEnd] ∅ [0] [1%Q] numCars 10 9000 (Point2d.create 1 1) 9.

Definition nearEnd : CarParticle.t :=
  CarParticle.mk 95 0 0 10 0 0 95 0 (-1) 3 None None.

(** Two entry streets; the first carries nine tenths of the entry weight. *)
Definition entryA : Street.t := Street.mk [P 0 0 0; P 100 0 0] [100%Q] 100 10 (-1).
Definition entryB : Street.t := Street.mk [P 0 50 0; P 0 150 0] [100%Q] 100 10 (-1).

Definition twoEntries : CarVisualization :=
  mkCarVisualization [] [entryA; entryB] ∅ [0; 1] [0.9; 1]%Q 2 10 9000
    (Point2d.create 1 1) 9.

(** Street 0 runs into intersection 0, which leads on to street 1 over
    connector path 0.  The cumulative probabilities of the intersection end
    just below 1. *)
Definition approach : Street.t := Street.mk [P 0 0 0; P 100 0 0] [100%Q] 100 10 0.
Definition onward : Street.t := Street.mk [P 100 5 0; P 100 105 0] [100%Q] 100 10 (-1).
Definition connector : Street.t := Street.mk [P 100 0 0; P 100 5 0] [5%Q] 5 10 1.

Definition junction : Intersection.t :=
  Intersection.mk [1] {[ 0 := [0.9999999]%Q ]} [connector] false
    (fun inStreet outStreet =>
       match outStreet with
       | Some 1 => if inStreet =? 0 then 0 else -1
       | _ => -1
       end).

Definition shortOfOne : CarVisualization :=
  mkCarVisualization [] [approach; onward] {[ 0 := junction ]} [0] [1%Q] 1 10 9000
    (Point2d.create 1 1) 9.

(** Street 2 runs into intersection 7, which streets 0 and 1 leave; its
    connector path 0 leads into street 1 and its connector path 1 leads into
    street 0. *)
Definition west : Street.t := Street.mk [P 0 0 0; P (-100) 0 0] [100%Q] 100 10 (-1).
Definition north : Street.t := Street.mk [P 0 0 0; P 0 100 0] [100%Q] 100 10 (-1).
Definition south : Street.t := Street.mk [P 5 (-100) 0; P 5 0 0] [100%Q] 100 10 7.
Definition intoNorth : Street.t := Street.mk [P 5 0 0; P 0 5 0] [5%Q] 5 10 1.
Definition intoWest : Street.t := Street.mk [P 5 0 0; P 0 0 0] [5%Q] 5 10 0.

Definition crossing : Intersection.t :=
  Intersection.mk [0; 1] {[ 2 := [0.5; 1]%Q ]} [intoNorth; intoWest] false
    (fun inStreet outStreet =>
       if inStreet =? 2 then
         match outStreet with
         | Some 1 => 0
         | Some 0 => 1
         | _ => -1
         end
       else -1).

Definition crossroads : CarVisualization :=
  mkCarVisualization [] [west; north; south] {[ 7 := crossing ]} [2] [1%Q] 1 10 9000
    (Point2d.create 1 1) 9.

(** A car on connector path 1 of intersection 7, one unit before its end. *)
Definition onPath : CarParticle.t :=
  CarParticle.mk 1 0 0 10 1 0 4 0 7 3 None None.

(** A car on street 2, five units before intersection 7. *)
Definition beforeCrossing : CarParticle.t :=
  CarParticle.mk 5 (-5) 0 10 2 0 95 0 (-1) 3 None None.

(** The same crossroads with the stop policy. *)
Definition stopCrossing : Intersection.t :=
  Intersection.mk (Intersection.streetsOut crossing) (Intersection.inOutProbabilities crossing)
    (Intersection.inOutPaths crossing) true (Intersection.findPath crossing).

Definition stopSign : CarVisualization :=
  mkCarVisualization [] [west; north; south] {[ 7 := stopCrossing ]} [2] [1%Q] 1 10 9000
    (Point2d.create 1 1) 9.

(** The crossroads without connector paths: [findPath] finds none. *)
Definition noPaths : Intersection.t :=
  Intersection.mk [0; 1] {[ 2 := [0.5; 1]%Q ]} [] false (fun _ _ => -1).

Definition direct : CarVisualization :=
  mkCarVisualization [] [west; north; south] {[ 7 := noPaths ]} [2] [1%Q] 1 10 9000
    (Point2d.create 1 1) 9.

(** A street exactly one car spacing long for cars of size 34
    (34 × 1.25 × 10 = 425), and one for cars of size 1 (1 × 1.25 × 10 = 12.5). *)
Definition oneSpacing34 : Street.t := Street.mk [P 0 0 0; P 425 0 0] [425%Q] 425 10 (-1).
Definition oneSpacing1 : Street.t := Street.mk [P 0 0 0; P 12.5 0 0] [12.5%Q] 12.5 10 (-1).

Definition cars34 : CarVisualization :=
  mkCarVisualization [] [oneSpacing34] ∅ [0] [1%Q] 0 10 9000 (Point2d.create 34 34) 9.

Definition cars1 : CarVisualization :=
  mkCarVisualization [] [oneSpacing1] ∅ [0] [1%Q] 0 10 9000 (Point2d.create 1 1) 9.

(** The three streets of the crossroads, with room for five cars. *)
Definition fiveCars : CarVisualization :=
  mkCarVisualization [] [west; north; south] ∅ [2] [1%Q] 5 10 9000
    (Point2d.create 1 1) 9.

(** A decorator with one loaded texture. *)
Definition decorator (p : bool) : CarDecorator :=
  mkCarDecorator [Some 1%positive] 0 (oneStreet [nearEnd] 1) 1 p.

End Sample.

(** ** Basic facts *)

Ltac car_fields :=
  cbn [CarParticle.x CarParticle.y CarParticle.z CarParticle.speed CarParticle.street
       CarParticle.segment CarParticle.segmentDist CarParticle.waiting
       CarParticle.intersection CarParticle.type CarParticle.direction
       CarParticle.rotationMatrix
       CarParticle.setXYZ CarParticle.setSpeed CarParticle.setStreet CarParticle.setSegment
       CarParticle.setSegmentDist CarParticle.setWaiting CarParticle.setIntersection
       CarParticle.setType CarParticle.setDirection CarParticle.setRotation] in *.

Lemma Qltb_lt (a b : Q) : Qltb a b = true <-> (a < b)%Q.
Proof.
  unfold Qltb. rewrite negb_true_iff. split.
  - intros H. apply Qnot_le_lt. intros Hle. apply Qle_bool_iff in Hle. congruence.
  - intros H. destruct (Qle_bool b a) eqn:E; [|reflexivity].
    apply Qle_bool_iff in E. exfalso. apply (Qlt_not_le _ _ H E).
Qed.

Lemma Qltb_ge (a b : Q) : Qltb a b = false <-> (b <= a)%Q.
Proof.
  unfold Qltb. rewrite negb_false_iff. apply Qle_bool_iff.
Qed.

Lemma Qltb_comp (a a' b b' : Q) : (a == a')%Q -> (b == b')%Q -> Qltb a b = Qltb a' b'.
Proof.
  intros Ha Hb. destruct (Qltb a' b') eqn:E.
  - apply Qltb_lt. apply Qltb_lt in E. rewrite Ha, Hb. exact E.
  - apply Qltb_ge. apply Qltb_ge in E. rewrite Ha, Hb. exact E.
Qed.

Lemma Qeq_bool_false (a b : Q) : ~ (a == b)%Q -> Qeq_bool a b = false.
Proof.
  intros H. destruct (Qeq_bool a b) eqn:E; [|reflexivity].
  apply Qeq_bool_iff in E. contradiction.
Qed.

Lemma Qfloor_unique (x : Q) (z : Z) :
  (inject_Z z <= x)%Q -> (x < inject_Z z + 1)%Q -> Qfloor x = z.
Proof.
  intros Hle Hlt.
  assert (H1 : z <= Qfloor x).
  { rewrite <- (Qfloor_Z z). apply Qfloor_resp_le. exact Hle. }
  assert (H2 : Qfloor x < z + 1).
  { rewrite Zlt_Qlt. eapply Qle_lt_trans; [apply Qfloor_le|].
    rewrite inject_Z_plus. exact Hlt. }
  lia.
Qed.

(** A draw in [0,1) scaled by a positive count gives an index below the count. *)
Lemma scaled_draw_in_range (r : Q) (count : Z) :
  (0 <= r)%Q -> (r < 1)%Q -> 0 < count ->
  0 <= Qfloor (r * inject_Z count) < count.
Proof.
  intros H0 H1 Hc.
  assert (Hc' : (inject_Z 0 < inject_Z count)%Q) by (rewrite <- Zlt_Qlt; exact Hc).
  change (inject_Z 0) with 0%Q in Hc'.
  split.
  - rewrite <- (Qfloor_Z 0). apply Qfloor_resp_le.
    apply Qmult_le_0_compat; [exact H0 | apply Qlt_le_weak; exact Hc'].
  - rewrite Zlt_Qlt. eapply Qle_lt_trans; [apply Qfloor_le|].
    rewrite <- (Qmult_1_l (inject_Z count)) at 2.
    apply Qmult_lt_compat_r; assumption.
Qed.

Lemma at_Some {A : Type} (l : list A) (i : Z) (a : A) :
  at_ l i = Some a <-> 0 <= i /\ l !! Z.to_nat i = Some a.
Proof.
  unfold at_. destruct (Z.ltb_spec i 0).
  - split; [discriminate | lia].
  - split; [intros H1; split; [lia | exact H1] | intros [_ H1]; exact H1].
Qed.

Lemma at_in_range {A : Type} (l : list A) (i : Z) :
  0 <= i < len l -> exists a, at_ l i = Some a.
Proof.
  intros [H0 H1]. unfold len in H1.
  destruct (lookup_lt_is_Some_2 l (Z.to_nat i)) as [a Ha]; [lia|].
  exists a. apply at_Some. split; [lia | exact Ha].
Qed.

Lemma at_lt {A : Type} (l : list A) (i : Z) (a : A) :
  at_ l i = Some a -> 0 <= i < len l.
Proof.
  intros H. apply at_Some in H. destruct H as [H0 H1].
  apply lookup_lt_Some in H1. unfold len. lia.
Qed.

Lemma at_last {A : Type} (l : list A) (a : A) :
  at_ l (len l - 1) = Some a -> last l = Some a.
Proof.
  intros H. apply at_Some in H. destruct H as [H0 H]. rewrite last_lookup.
  unfold len in *. replace (pred (length l)) with (Z.to_nat (Z.of_nat (length l) - 1)) by lia.
  exact H.
Qed.

Lemma sumQ_app (l1 l2 : list Q) : (sumQ (l1 ++ l2) == sumQ l1 + sumQ l2)%Q.
Proof.
  induction l1 as [|d l1 IH]; cbn [sumQ app].
  - ring.
  - rewrite IH. ring.
Qed.

Lemma sumQ_nonneg (l : list Q) : Forall (fun d => (0 <= d)%Q) l -> (0 <= sumQ l)%Q.
Proof.
  induction 1 as [|d l Hd _ IH]; cbn [sumQ].
  - apply Qle_refl.
  - lra.
Qed.

Lemma removelast_take {A : Type} (l : list A) : removelast l = take (length l - 1) l.
Proof.
  rewrite removelast_firstn_len. f_equal. lia.
Qed.

Lemma bind_Ok {A B : Type} (m : M A) (k : A -> M B) (n n' : nat) (a : A) :
  m n = Ok (a, n') -> bind m k n = k a n'.
Proof.
  intros H. unfold bind. rewrite H. reflexivity.
Qed.

Lemma bind_lift {A B : Type} (r : result A) (k : A -> M B) (n : nat) (a : A) :
  r = Ok a -> bind (lift r) k n = k a n.
Proof.
  intros H. unfold bind, lift. rewrite H. reflexivity.
Qed.

Lemma bind_Err {A B : Type} (m : M A) (k : A -> M B) (n : nat) (e : fault) :
  m n = Err e -> bind m k n = Err e.
Proof.
  intros H. unfold bind. rewrite H. reflexivity.
Qed.

(** Inversion of a successful [bind]. *)
Lemma bind_inv {A B : Type} (m : M A) (k : A -> M B) (n n' : nat) (b : B) :
  bind m k n = Ok (b, n') ->
  exists a n1, m n = Ok (a, n1) /\ k a n1 = Ok (b, n').
Proof.
  unfold bind. destruct (m n) as [[a n1]|e]; [|discriminate].
  intros H. exists a, n1. split; [reflexivity | exact H].
Qed.

Lemma randomInteger_from_zero (random : nat -> Q) (count : Z) (n : nat) :
  randomInteger random 0 (count - 1) n
  = Ok (Qfloor (random n * inject_Z count), S n).
Proof.
  unfold randomInteger, bind, Math_random, ret.
  replace (count - 1 - 0 + 1) with count by lia.
  rewrite Z.add_0_r. reflexivity.
Qed.

Lemma draws_in_range (l : list Q) :
  Forall (fun r => (0 <= r)%Q /\ (r < 1)%Q) l ->
  forall m, (0 <= Sample.draws l m)%Q /\ (Sample.draws l m < 1)%Q.
Proof.
  unfold Sample.draws. induction 1 as [|r l Hr _ IH]; intros m.
  - destruct m; cbn [nth]; split; reflexivity || discriminate.
  - destruct m as [|m]; cbn [nth]; [exact Hr | apply IH].
Qed.

(** ** Kinematics (C6) *)

Lemma adjustSpeed_positive (speed limit elapsedSeconds : Q) :
  (0 <= speed)%Q -> (0 < limit)%Q -> (0 < elapsedSeconds)%Q ->
  (0 < adjustSpeed speed limit elapsedSeconds)%Q.
Proof.
  intros Hs Hl He. unfold adjustSpeed, _accelerationDefault.
  destruct (Qltb speed limit) eqn:E1.
  - destruct (Qltb limit _) eqn:E2; [exact Hl|].
    assert (0 < 10 * elapsedSeconds)%Q by (apply Qmult_lt_0_compat; [reflexivity | exact He]).
    lra.
  - apply Qltb_ge in E1.
    destruct (Qltb limit speed) eqn:E2.
    + destruct (Qltb _ limit) eqn:E3; [exact Hl|]. apply Qltb_ge in E3. lra.
    + lra.
Qed.

Lemma setPositionOnStreet_Ok (car : CarParticle.t) (street : Street.t)
    (d : Q) (pA pB : Point3d.t) :
  at_ (Street.distance street) (CarParticle.segment car) = Some d ->
  ~ (d == 0)%Q ->
  at_ (Street.points street) (CarParticle.segment car) = Some pA ->
  at_ (Street.points street) (CarParticle.segment car + 1) = Some pB ->
  setPositionOnStreet car street
  = Ok (CarParticle.setXYZ car
          (Point3d.plusScaled pA (Point3d.minus pB pA) (CarParticle.segmentDist car / d))).
Proof.
  intros Hd Hnz HA HB. unfold setPositionOnStreet, div.
  rewrite Hd, HA, HB. cbn [num rbind]. rewrite (Qeq_bool_false _ _ Hnz). reflexivity.
Qed.

Lemma setDirectionOnStreet_in_segment (car : CarParticle.t) (street : Street.t)
    (pA pB : Point3d.t) :
  CarParticle.segment car < len (Street.points street) - 1 ->
  at_ (Street.points street) (CarParticle.segment car) = Some pA ->
  at_ (Street.points street) (CarParticle.segment car + 1) = Some pB ->
  setDirectionOnStreet car (Some street)
  = Ok (CarParticle.setDirection car
          (Vector2d.create (Point3d.x pB - Point3d.x pA)
                           (- (Point3d.y pB - Point3d.y pA)))%Q).
Proof.
  intros Hlt HA HB. unfold setDirectionOnStreet. cbn [defined rbind].
  destruct (Z.geb_spec (CarParticle.segment car) (len (Street.points street) - 1)); [lia|].
  rewrite HA, HB. reflexivity.
Qed.

Lemma setDirectionOnStreet_at_end (car : CarParticle.t) (street : Street.t)
    (pA pB : Point3d.t) :
  len (Street.points street) - 1 <= CarParticle.segment car ->
  at_ (Street.points street) (len (Street.points street) - 2) = Some pA ->
  at_ (Street.points street) (len (Street.points street) - 1) = Some pB ->
  setDirectionOnStreet car (Some street)
  = Ok (CarParticle.setDirection car
          (Vector2d.create (Point3d.x pB - Point3d.x pA)
                           (- (Point3d.y pB - Point3d.y pA)))%Q).
Proof.
  intros Hge HA HB. unfold setDirectionOnStreet. cbn [defined rbind].
  destruct (Z.geb_spec (CarParticle.segment car) (len (Street.points street) - 1)); [|lia].
  rewrite HA, HB. reflexivity.
Qed.

Lemma setDirectionOnStreet_first_segment (car : CarParticle.t) (st : Street.t)
    (p0 p1 : Point3d.t) (rest : list Point3d.t) :
  CarParticle.segment car = 0 ->
  Street.points st = p0 :: p1 :: rest ->
  setDirectionOnStreet car (Some st)
  = Ok (CarParticle.setDirection car
          (Vector2d.create (Point3d.x p1 - Point3d.x p0)
                           (- (Point3d.y p1 - Point3d.y p0)))%Q).
Proof.
  intros Hseg Hp. unfold setDirectionOnStreet. cbn [defined rbind].
  rewrite Hseg, Hp. unfold len. cbn [length].
  destruct (Z.geb_spec 0 (Z.of_nat (S (S (length rest))) - 1)) as [Hge|Hlt].
  - destruct rest as [|p2 rest].
    + reflexivity.
    + cbn [length] in Hge. lia.
  - reflexivity.
Qed.

Lemma lengthsBetween_step (distance : list Q) (from to : Z) (d : Q) :
  at_ distance from = Some d -> from < to ->
  lengthsBetween distance from to = d :: lengthsBetween distance (from + 1) to.
Proof.
  intros Hd Hlt. apply at_Some in Hd. destruct Hd as [H0 Hd].
  unfold lengthsBetween.
  rewrite (drop_S _ _ _ Hd).
  replace (Z.to_nat (to - from)) with (S (Z.to_nat (to - (from + 1)))) by lia.
  replace (Z.to_nat (from + 1)) with (S (Z.to_nat from)) by lia.
  reflexivity.
Qed.

Lemma lengthsBetween_empty (distance : list Q) (from : Z) :
  lengthsBetween distance from from = [].
Proof.
  unfold lengthsBetween. rewrite Z.sub_diag. reflexivity.
Qed.

Lemma lengthsBetween_to_end (distance : list Q) (from : Z) :
  0 <= from <= len distance ->
  lengthsBetween distance from (len distance) = drop (Z.to_nat from) distance.
Proof.
  intros H. unfold lengthsBetween. apply take_ge.
  rewrite length_drop. unfold len in *. lia.
Qed.

(** The do-while loop, entered with [segmentDist] at or past the end of the
    current segment: it stops at the first segment that the rest of the
    distance does not cross, or past the last segment. *)
Lemma crossSegments_spec (fuel : nat) (distance : list Q) :
  forall (segment : Z) (segmentDist d : Q),
    len distance - segment <= Z.of_nat fuel ->
    at_ distance segment = Some d ->
    (d <= segmentDist)%Q ->
    exists segment' segmentDist',
      crossSegments fuel distance segment segmentDist = Ok (segment', segmentDist') /\
      segment < segment' <= len distance /\
      (0 <= segmentDist')%Q /\
      (segmentDist == sumQ (lengthsBetween distance segment segment') + segmentDist')%Q /\
      (segment' < len distance ->
       exists d', at_ distance segment' = Some d' /\ (segmentDist' < d')%Q).
Proof.
  induction fuel as [|fuel IH]; intros segment segmentDist d Hfuel Hd Hle.
  - pose proof (at_lt _ _ _ Hd). lia.
  - pose proof (at_lt _ _ _ Hd) as Hrange.
    cbn [crossSegments]. rewrite Hd. cbn [num rbind].
    destruct (Z.ltb_spec (segment + 1) (len distance)) as [Hin|Hout].
    + destruct (at_in_range distance (segment + 1)) as [d' Hd']; [lia|].
      rewrite Hd'. cbn [num rbind].
      destruct (Qle_bool d' (segmentDist - d)) eqn:E.
      * apply Qle_bool_iff in E.
        destruct (IH (segment + 1) (segmentDist - d)%Q d') as (s' & sd' & Hc & Hs & H0 & Hsum & Hnext);
          [lia | exact Hd' | exact E |].
        exists s', sd'. split; [exact Hc|]. split; [lia|]. split; [exact H0|].
        split; [|exact Hnext].
        rewrite (lengthsBetween_step distance segment s' d Hd) by lia.
        cbn [sumQ]. lra.
      * exists (segment + 1), (segmentDist - d)%Q.
        split; [reflexivity|]. split; [lia|]. split; [lra|]. split.
        -- rewrite (lengthsBetween_step distance segment (segment + 1) d Hd) by lia.
           rewrite lengthsBetween_empty. cbn [sumQ]. lra.
        -- intros _. exists d'. split; [exact Hd'|].
           apply Qltb_lt. unfold Qltb. rewrite E. reflexivity.
    + exists (segment + 1), (segmentDist - d)%Q.
      split; [reflexivity|]. split; [lia|]. split; [lra|]. split.
      * rewrite (lengthsBetween_step distance segment (segment + 1) d Hd) by lia.
        rewrite lengthsBetween_empty. cbn [sumQ]. lra.
      * intros Hlt. lia.
Qed.

(** [moveCarOnStreet] changes neither the route fields nor the variant. *)
Lemma setPositionOnStreet_route (car car' : CarParticle.t) (street : Street.t) :
  setPositionOnStreet car street = Ok car' ->
  car' = CarParticle.setXYZ car
           (Point3d.create (CarParticle.x car') (CarParticle.y car') (CarParticle.z car')).
Proof.
  unfold setPositionOnStreet.
  destruct (num _) as [d|]; [|discriminate]. cbn [rbind].
  destruct (div _ _) as [ratio|]; [|discriminate]. cbn [rbind].
  destruct (defined _) as [pB|]; [|discriminate]. cbn [rbind].
  destruct (defined _) as [pA|]; [|discriminate]. cbn [rbind].
  intros H. inversion H. reflexivity.
Qed.

Lemma setDirectionOnStreet_route (car car' : CarParticle.t) (street : option Street.t) :
  setDirectionOnStreet car street = Ok car' ->
  exists v, car' = CarParticle.setDirection car v.
Proof.
  unfold setDirectionOnStreet.
  destruct (defined street) as [st|]; [|discriminate]. cbn [rbind].
  match goal with |- context [rbind ?m _] => destruct m as [dir|]; [|discriminate] end.
  cbn [rbind]. intros H. inversion H. eexists. reflexivity.
Qed.

Lemma moveCarOnStreet_route (car car' : CarParticle.t) (street : Street.t)
    (elapsedSeconds timeLeft : Q) :
  moveCarOnStreet car street elapsedSeconds = Ok (car', timeLeft) ->
  CarParticle.street car' = CarParticle.street car /\
  CarParticle.intersection car' = CarParticle.intersection car /\
  CarParticle.waiting car' = CarParticle.waiting car /\
  CarParticle.type car' = CarParticle.type car /\
  CarParticle.rotationMatrix car' = CarParticle.rotationMatrix car /\
  CarParticle.speed car'
  = adjustSpeed (CarParticle.speed car) (Street.speed street) elapsedSeconds.
Proof.
  unfold moveCarOnStreet. car_fields.
  destruct (num _) as [d|]; [|discriminate]. cbn [rbind].
  destruct (Qltb _ d).
  - destruct (setPositionOnStreet _ _) as [c1|] eqn:E1; [|discriminate]. cbn [rbind].
    intros H. inversion H. subst.
    rewrite (setPositionOnStreet_route _ _ _ E1). car_fields. repeat split.
  - destruct (crossSegments _ _ _ _) as [[seg sd]|]; [|discriminate]. cbn [rbind].
    destruct (seg <? _).
    + destruct (setPositionOnStreet _ _) as [c1|] eqn:E1; [|discriminate]. cbn [rbind].
      destruct (setDirectionOnStreet _ _) as [c2|] eqn:E2; [|discriminate]. cbn [rbind].
      intros H. inversion H. subst.
      destruct (setDirectionOnStreet_route _ _ _ E2) as [v ->].
      rewrite (setPositionOnStreet_route _ _ _ E1). car_fields. repeat split.
    + destruct (defined _) as [p|]; [|discriminate]. cbn [rbind]. car_fields.
      destruct (div _ _) as [t|]; [|discriminate]. cbn [rbind].
      destruct (num _) as [dl|]; [|discriminate]. cbn [rbind].
      destruct (setDirectionOnStreet _ _) as [c2|] eqn:E2; [|discriminate]. cbn [rbind].
      intros H. inversion H. subst.
      destruct (setDirectionOnStreet_route _ _ _ E2) as [v ->]. car_fields. repeat split.
Qed.

(** The three ways out of [moveCarOnStreet]. *)
Lemma moveCarOnStreet_same_segment
    (car : CarParticle.t) (street : Street.t) (elapsedSeconds d : Q) (pA pB : Point3d.t) :
  let speed := adjustSpeed (CarParticle.speed car) (Street.speed street) elapsedSeconds in
  let travelled := (CarParticle.segmentDist car + elapsedSeconds * speed)%Q in
  at_ (Street.distance street) (CarParticle.segment car) = Some d ->
  at_ (Street.points street) (CarParticle.segment car) = Some pA ->
  at_ (Street.points street) (CarParticle.segment car + 1) = Some pB ->
  (0 <= travelled)%Q -> (travelled < d)%Q ->
  exists car',
    moveCarOnStreet car street elapsedSeconds = Ok (car', (-1)%Q) /\
    CarParticle.speed car' = speed /\
    CarParticle.segment car' = CarParticle.segment car /\
    CarParticle.segmentDist car' = travelled /\
    onSegment street car'.
Proof.
  intros speed travelled Hd HA HB H0 Hlt.
  unfold moveCarOnStreet. fold speed. car_fields. fold travelled.
  rewrite Hd. cbn [num rbind].
  apply Qltb_lt in Hlt. rewrite Hlt. apply Qltb_lt in Hlt.
  rewrite (setPositionOnStreet_Ok _ street d pA pB) by (car_fields; try assumption; lra).
  cbn [rbind]. eexists. split; [reflexivity|]. car_fields.
  repeat (split; [reflexivity|]).
  exists d, pA, pB. car_fields.
  cbn [Point3d.x Point3d.y Point3d.z Point3d.plusScaled Point3d.minus].
  repeat (split; try assumption; try reflexivity).
Qed.

Lemma moveCarOnStreet_later_segment
    (car : CarParticle.t) (street : Street.t) (elapsedSeconds d d' : Q)
    (segment' : Z) (segmentDist' : Q) (pA pB : Point3d.t) :
  let speed := adjustSpeed (CarParticle.speed car) (Street.speed street) elapsedSeconds in
  let travelled := (CarParticle.segmentDist car + elapsedSeconds * speed)%Q in
  at_ (Street.distance street) (CarParticle.segment car) = Some d ->
  (d <= travelled)%Q ->
  crossSegments (S (length (Street.distance street))) (Street.distance street)
    (CarParticle.segment car) travelled = Ok (segment', segmentDist') ->
  segment' < len (Street.distance street) ->
  segment' < len (Street.points street) - 1 ->
  at_ (Street.distance street) segment' = Some d' ->
  at_ (Street.points street) segment' = Some pA ->
  at_ (Street.points street) (segment' + 1) = Some pB ->
  (0 <= segmentDist')%Q -> (segmentDist' < d')%Q ->
  exists car',
    moveCarOnStreet car street elapsedSeconds = Ok (car', (-1)%Q) /\
    CarParticle.speed car' = speed /\
    CarParticle.segment car' = segment' /\
    CarParticle.segmentDist car' = segmentDist' /\
    onSegment street car'.
Proof.
  intros speed travelled Hd Hge Hc Hin Hpts Hd' HA HB H0 Hlt.
  unfold moveCarOnStreet. fold speed. car_fields. fold travelled.
  rewrite Hd. cbn [num rbind].
  apply Qltb_ge in Hge. rewrite Hge, Hc. cbn [rbind].
  apply Z.ltb_lt in Hin. rewrite Hin.
  rewrite (setPositionOnStreet_Ok _ street d' pA pB) by (car_fields; try assumption; lra).
  cbn [rbind].
  rewrite (setDirectionOnStreet_in_segment _ street pA pB) by (car_fields; assumption).
  cbn [rbind]. eexists. split; [reflexivity|]. car_fields.
  repeat (split; [reflexivity|]).
  exists d', pA, pB. car_fields.
  cbn [Point3d.x Point3d.y Point3d.z Point3d.plusScaled Point3d.minus].
  repeat (split; try assumption; try reflexivity).
Qed.

Lemma moveCarOnStreet_past_end
    (car : CarParticle.t) (street : Street.t) (elapsedSeconds d : Q) (segmentDist' : Q) :
  let speed := adjustSpeed (CarParticle.speed car) (Street.speed street) elapsedSeconds in
  let travelled := (CarParticle.segmentDist car + elapsedSeconds * speed)%Q in
  at_ (Street.distance street) (CarParticle.segment car) = Some d ->
  (d <= travelled)%Q ->
  crossSegments (S (length (Street.distance street))) (Street.distance street)
    (CarParticle.segment car) travelled = Ok (len (Street.distance street), segmentDist') ->
  len (Street.points street) = len (Street.distance street) + 1 ->
  (0 < speed)%Q ->
  exists car',
    moveCarOnStreet car street elapsedSeconds = Ok (car', (segmentDist' / speed)%Q) /\
    CarParticle.speed car' = speed /\
    atTerminal street car'.
Proof.
  intros speed travelled Hd Hge Hc Hpts Hspeed.
  pose proof (at_lt _ _ _ Hd) as Hseg.
  destruct (at_in_range (Street.points street) (len (Street.distance street)))
    as [pEnd HEnd]; [lia|].
  destruct (at_in_range (Street.points street) (len (Street.distance street) - 1))
    as [pPrev HPrev]; [lia|].
  destruct (at_in_range (Street.distance street) (len (Street.distance street) - 1))
    as [dLast HLast]; [lia|].
  assert (HEnd' : at_ (Street.points street) (len (Street.points street) - 1) = Some pEnd).
  { rewrite Hpts. replace (len (Street.distance street) + 1 - 1)
      with (len (Street.distance street)) by lia. exact HEnd. }
  assert (HPrev' : at_ (Street.points street) (len (Street.points street) - 2) = Some pPrev).
  { rewrite Hpts. replace (len (Street.distance street) + 1 - 2)
      with (len (Street.distance street) - 1) by lia. exact HPrev. }
  unfold moveCarOnStreet. fold speed. car_fields. fold travelled.
  rewrite Hd. cbn [num rbind].
  apply Qltb_ge in Hge. rewrite Hge, Hc. cbn [rbind].
  rewrite Z.ltb_irrefl, HEnd. cbn [defined rbind]. car_fields.
  unfold div. rewrite (Qeq_bool_false speed 0) by lra. cbn [rbind].
  rewrite HLast. cbn [num rbind].
  rewrite (setDirectionOnStreet_at_end _ street pPrev pEnd)
    by (car_fields; try assumption; lia).
  cbn [rbind]. eexists. split; [reflexivity|]. car_fields.
  split; [reflexivity|].
  exists pPrev, pEnd, dLast. car_fields.
  split; [apply at_last; exact HEnd'|]. split; [exact HPrev'|].
  split; [apply at_last; exact HLast|].
  repeat (split; try reflexivity).
Qed.

(** C6: for a particle with speed ≥ 0 placed on a segment of a street with a
    positive speed limit, and an elapsed time > 0, [moveCarOnStreet] returns
    either -1 with the particle within a segment of the street, at the point
    interpolated linearly on that segment, or, when the distance travelled
    reaches past the remaining segments, a time ≥ 0 equal to the overshoot
    divided by the speed, with the particle on the street's last point,
    [segmentDist] reset to the last segment's length and the heading of the
    last segment. *)
Theorem moveCarOnStreet_outcome
    (car : CarParticle.t) (street : Street.t) (elapsedSeconds : Q) :
  (0 <= CarParticle.speed car)%Q ->
  (0 < Street.speed street)%Q ->
  (0 < elapsedSeconds)%Q ->
  0 <= CarParticle.segment car < len (Street.distance street) ->
  len (Street.points street) = len (Street.distance street) + 1 ->
  (0 <= CarParticle.segmentDist car)%Q ->
  let speed := adjustSpeed (CarParticle.speed car) (Street.speed street) elapsedSeconds in
  let travelled := (CarParticle.segmentDist car + elapsedSeconds * speed)%Q in
  let remaining :=
    sumQ (drop (Z.to_nat (CarParticle.segment car)) (Street.distance street)) in
  exists car' timeLeft,
    moveCarOnStreet car street elapsedSeconds = Ok (car', timeLeft) /\
    CarParticle.speed car' = speed /\
    ((timeLeft = (-1)%Q /\
      CarParticle.segment car <= CarParticle.segment car' < len (Street.distance street) /\
      onSegment street car' /\
      (travelled
       == sumQ (lengthsBetween (Street.distance street) (CarParticle.segment car)
                  (CarParticle.segment car'))
          + CarParticle.segmentDist car')%Q)
     \/
     ((0 <= timeLeft)%Q /\ (remaining <= travelled)%Q /\
      (timeLeft == (travelled - remaining) / speed)%Q /\
      atTerminal street car')).
Proof.
  intros Hv Hlimit Ht Hseg Hpts Hsd speed travelled remaining.
  assert (Hspeed : (0 < speed)%Q) by (apply adjustSpeed_positive; assumption).
  assert (Htrav : (0 <= travelled)%Q).
  { unfold travelled.
    assert (0 < elapsedSeconds * speed)%Q by (apply Qmult_lt_0_compat; assumption). lra. }
  destruct (at_in_range (Street.distance street) (CarParticle.segment car) Hseg) as [d Hd].
  destruct (Qlt_le_dec travelled d) as [Hlt|Hge].
  - (* still on the same segment *)
    destruct (at_in_range (Street.points street) (CarParticle.segment car)) as [pA HA]; [lia|].
    destruct (at_in_range (Street.points street) (CarParticle.segment car + 1)) as [pB HB];
      [lia|].
    destruct (moveCarOnStreet_same_segment car street elapsedSeconds d pA pB Hd HA HB Htrav Hlt)
      as (car' & Hmove & Hs & Hsame & Hdist & Hon).
    exists car', (-1)%Q. split; [exact Hmove|]. split; [exact Hs|]. left.
    split; [reflexivity|]. split; [lia|]. split; [exact Hon|].
    rewrite Hsame, Hdist, lengthsBetween_empty. cbn [sumQ]. unfold travelled, speed. lra.
  - (* the current segment is crossed *)
    destruct (crossSegments_spec (S (length (Street.distance street))) (Street.distance street)
                (CarParticle.segment car) travelled d)
      as (seg' & sd' & Hc & Hs & H0 & Hsum & Hnext);
      [unfold len; lia | exact Hd | exact Hge |].
    destruct (Z_lt_le_dec seg' (len (Street.distance street))) as [Hin|Hout].
    + (* stopped on a later segment *)
      destruct (Hnext Hin) as (d' & Hd' & Hlt).
      destruct (at_in_range (Street.points street) seg') as [pA HA]; [lia|].
      destruct (at_in_range (Street.points street) (seg' + 1)) as [pB HB]; [lia|].
      destruct (moveCarOnStreet_later_segment car street elapsedSeconds d d' seg' sd' pA pB
                  Hd Hge Hc Hin ltac:(lia) Hd' HA HB H0 Hlt)
        as (car' & Hmove & Hspd & Hseg' & Hdist & Hon).
      exists car', (-1)%Q. split; [exact Hmove|]. split; [exact Hspd|]. left.
      split; [reflexivity|]. split; [lia|]. split; [exact Hon|].
      rewrite Hseg', Hdist. exact Hsum.
    + (* past the last segment *)
      assert (Hend : seg' = len (Street.distance street)) by lia. subst seg'.
      destruct (moveCarOnStreet_past_end car street elapsedSeconds d sd' Hd Hge Hc Hpts Hspeed)
        as (car' & Hmove & Hspd & Hterm).
      exists car', (sd' / speed)%Q. split; [exact Hmove|]. split; [exact Hspd|]. right.
      rewrite lengthsBetween_to_end in Hsum by lia. fold remaining in Hsum.
      split; [apply Qle_shift_div_l; [exact Hspeed | lra]|].
      split; [lra|]. split; [|exact Hterm].
      apply Qeq_sym. unfold Qdiv. apply Qmult_inj_r with (z := speed); [lra|].
      rewrite <- !Qmult_assoc. rewrite (Qmult_comm (/ speed)), Qmult_inv_r by lra.
      lra.
Qed.

Lemma moveCarOnStreet_outcome_witness :
  exists car' timeLeft,
    moveCarOnStreet Sample.nearEnd Sample.deadEnd 1 = Ok (car', timeLeft) /\
    CarParticle.speed car' = 10%Q /\
    (0 <= timeLeft)%Q /\ atTerminal Sample.deadEnd car'.
Proof.
  assert (H1 : (0 <= CarParticle.speed Sample.nearEnd)%Q) by (vm_compute; discriminate).
  assert (H2 : (0 < Street.speed Sample.deadEnd)%Q) by reflexivity.
  assert (H3 : (0 < 1)%Q) by reflexivity.
  assert (H4 : 0 <= CarParticle.segment Sample.nearEnd < len (Street.distance Sample.deadEnd))
    by (vm_compute; split; [discriminate | reflexivity]).
  assert (H5 : len (Street.points Sample.deadEnd) = len (Street.distance Sample.deadEnd) + 1)
    by reflexivity.
  assert (H6 : (0 <= CarParticle.segmentDist Sample.nearEnd)%Q) by (vm_compute; discriminate).
  destruct (moveCarOnStreet_outcome Sample.nearEnd Sample.deadEnd 1 H1 H2 H3 H4 H5 H6)
    as (car' & timeLeft & Hmove & Hspeed & [(Hneg & _) | (Hpos & _ & _ & Hend)]).
  - exfalso. vm_compute in Hmove. rewrite Hneg in Hmove. discriminate Hmove.
  - exists car', timeLeft. repeat split; try assumption.
Defined.

(** With non-negative segment lengths, a particle that is still within a
    segment has not travelled the remaining length of the street. *)
Lemma within_segment_before_end (distance : list Q) (from to : Z) (d sd travelled : Q) :
  Forall (fun d => (0 <= d)%Q) distance ->
  0 <= from <= to ->
  at_ distance to = Some d ->
  (sd < d)%Q ->
  (travelled == sumQ (lengthsBetween distance from to) + sd)%Q ->
  (travelled < sumQ (drop (Z.to_nat from) distance))%Q.
Proof.
  intros Hnn Hft Hd Hlt Hsum.
  pose proof (at_lt _ _ _ Hd) as Hto.
  apply at_Some in Hd. destruct Hd as [_ Hd].
  assert (Hsplit : drop (Z.to_nat from) distance
                   = lengthsBetween distance from to ++ d :: drop (S (Z.to_nat to)) distance).
  { unfold lengthsBetween.
    rewrite <- (take_drop (Z.to_nat (to - from)) (drop (Z.to_nat from) distance)) at 1.
    f_equal. rewrite drop_drop.
    replace (Z.to_nat from + Z.to_nat (to - from))%nat with (Z.to_nat to) by lia.
    apply drop_S. exact Hd. }
  rewrite Hsplit, sumQ_app. cbn [sumQ].
  assert (0 <= sumQ (drop (S (Z.to_nat to)) distance))%Q.
  { apply sumQ_nonneg. apply Forall_drop. exact Hnn. }
  lra.
Qed.

(** With non-negative segment lengths, a particle whose travelled distance
    reaches the remaining length of the street comes out at the street's end
    with a time left ≥ 0. *)
Lemma moveCarOnStreet_reaches_end
    (car : CarParticle.t) (street : Street.t) (elapsedSeconds : Q) :
  (0 <= CarParticle.speed car)%Q ->
  (0 < Street.speed street)%Q ->
  (0 < elapsedSeconds)%Q ->
  0 <= CarParticle.segment car < len (Street.distance street) ->
  len (Street.points street) = len (Street.distance street) + 1 ->
  Forall (fun d => (0 <= d)%Q) (Street.distance street) ->
  (sumQ (drop (Z.to_nat (CarParticle.segment car)) (Street.distance street))
   <= CarParticle.segmentDist car
      + elapsedSeconds
        * adjustSpeed (CarParticle.speed car) (Street.speed street) elapsedSeconds)%Q ->
  exists car' timeLeft,
    moveCarOnStreet car street elapsedSeconds = Ok (car', timeLeft) /\
    (0 <= timeLeft)%Q /\ atTerminal street car'.
Proof.
  intros Hv Hlimit Ht Hseg Hpts Hnn Hreach.
  set (speed := adjustSpeed (CarParticle.speed car) (Street.speed street) elapsedSeconds) in *.
  set (travelled := (CarParticle.segmentDist car + elapsedSeconds * speed)%Q) in *.
  assert (Hspeed : (0 < speed)%Q) by (apply adjustSpeed_positive; assumption).
  destruct (at_in_range (Street.distance street) (CarParticle.segment car) Hseg) as [d Hd].
  destruct (Qlt_le_dec travelled d) as [Hlt|Hge].
  { exfalso.
    pose proof (within_segment_before_end (Street.distance street) (CarParticle.segment car)
                  (CarParticle.segment car) d travelled travelled Hnn ltac:(lia) Hd Hlt)
      as Hbefore.
    rewrite lengthsBetween_empty in Hbefore. cbn [sumQ] in Hbefore.
    specialize (Hbefore ltac:(lra)). lra. }
  destruct (crossSegments_spec (S (length (Street.distance street))) (Street.distance street)
              (CarParticle.segment car) travelled d)
    as (seg' & sd' & Hc & Hs & H0 & Hsum & Hnext);
    [unfold len; lia | exact Hd | exact Hge |].
  destruct (Z_lt_le_dec seg' (len (Street.distance street))) as [Hin|Hout].
  { exfalso. destruct (Hnext Hin) as (d' & Hd' & Hlt).
    pose proof (within_segment_before_end (Street.distance street) (CarParticle.segment car)
                  seg' d' sd' travelled Hnn ltac:(lia) Hd' Hlt Hsum) as Hbefore.
    lra. }
  assert (Hend : seg' = len (Street.distance street)) by lia. subst seg'.
  destruct (moveCarOnStreet_past_end car street elapsedSeconds d sd' Hd Hge Hc Hpts Hspeed)
    as (car' & Hmove & _ & Hterm).
  exists car', (sd' / speed)%Q. split; [exact Hmove|]. split; [|exact Hterm].
  apply Qle_shift_div_l; [exact Hspeed | lra].
Qed.

(** ** Target count (C7, C8) *)

Lemma roundHalfEven_nonneg (q : Q) : (0 <= q)%Q -> 0 <= roundHalfEven q.
Proof.
  intros H. unfold roundHalfEven.
  assert (Hf : 0 <= Qfloor q).
  { rewrite <- (Qfloor_Z 0). apply Qfloor_resp_le. exact H. }
  destruct (q - inject_Z (Qfloor q) ?= 1 # 2)%Q; [destruct (Z.even (Qfloor q))| |]; lia.
Qed.

(** Rounding keeps the sign. *)
Lemma double_sign (q r : Q) :
  double q = Ok r ->
  ((0 <= q)%Q -> (0 <= r)%Q) /\ ((q <= 0)%Q -> (r <= 0)%Q).
Proof.
  unfold double. destruct (Qeq_bool q 0) eqn:Ez.
  - intros H. inversion H. split; intros _; apply Qle_refl.
  - cbv zeta.
    set (e := Z.max (exponentOf (Qabs q)) (-1022)).
    set (m := roundHalfEven (Qabs q * 2 ^ (52 - e))).
    assert (Hr : (0 <= inject_Z m * 2 ^ (e - 52))%Q).
    { apply Qmult_le_0_compat; [|apply Qpower_0_le; discriminate].
      change 0%Q with (inject_Z 0). rewrite <- Zle_Qle.
      apply roundHalfEven_nonneg.
      apply Qmult_le_0_compat; [apply Qabs_nonneg | apply Qpower_0_le; discriminate]. }
    destruct (Qle_bool (2 ^ 1024) (inject_Z m * 2 ^ (e - 52))); [discriminate|].
    intros H. inversion H as [Hq]. clear H.
    destruct (Qle_bool 0 q) eqn:E.
    + split; [intros _; exact Hr|].
      intros Hle. apply Qle_bool_iff in E.
      assert (Hz : (q == 0)%Q) by (apply Qle_antisym; assumption).
      apply Qeq_bool_iff in Hz. congruence.
    + split; [|intros _; lra].
      intros H0. apply Qle_bool_iff in H0. congruence.
Qed.

(** Every street counts for one car at least. *)
Lemma computeMaxCarsLoop_at_least (d : Q) (streets : list Street.t) :
  (0 <= d)%Q ->
  Forall (fun st => (0 <= Street.totalDistance st)%Q) streets ->
  forall acc total : Q,
    computeMaxCarsLoop streets d acc = Ok total ->
    (acc + inject_Z (len streets) <= total)%Q.
Proof.
  intros Hd Hnn. induction Hnn as [|st streets Hst _ IH]; intros acc total;
    cbn [computeMaxCarsLoop].
  - intros H. inversion H. change (inject_Z (len (@nil Street.t))) with 0%Q. lra.
  - destruct (double (Street.totalDistance st * d)) as [product|e] eqn:Hp; [|discriminate].
    cbn [rbind]. intros H. apply IH in H.
    assert (Hproduct : (0 <= product)%Q).
    { apply (double_sign _ _ Hp). apply Qmult_le_0_compat; assumption. }
    assert (Hfloor : (0 <= inject_Z (Qfloor product))%Q).
    { change 0%Q with (inject_Z 0). rewrite <- Zle_Qle.
      rewrite <- (Qfloor_Z 0). apply Qfloor_resp_le. exact Hproduct. }
    assert (Hlen : (inject_Z (len (st :: streets)) == inject_Z (len streets) + 1)%Q).
    { unfold len. cbn [length]. rewrite Nat2Z.inj_succ, <- Z.add_1_r, inject_Z_plus.
      reflexivity. }
    rewrite Hlen. lra.
Qed.

(** The capacity depends on the streets of the object only. *)
Lemma computeMaxCars_streets (this this' : CarVisualization)
    (carSize packingRatio maxCars : Q) :
  _streets this = _streets this' ->
  computeMaxCars this carSize packingRatio maxCars
  = computeMaxCars this' carSize packingRatio maxCars.
Proof.
  intros H. unfold computeMaxCars. rewrite H. reflexivity.
Qed.

(** [changeDensity] stores the density's share of what [computeMaxCars]
    returns for the car size, packing ratio and hard maximum of the object. *)
Lemma changeDensity_from_capacity (this : CarVisualization) (density : Density)
    (capacity : Q) :
  computeMaxCars this (Point2d.y (_carSize this)) (_packingRatio this) (_maxCars this)
  = Ok capacity ->
  changeDensity this density = Ok (with_numCars this (getNumberOfCars capacity density)).
Proof.
  intros H. unfold changeDensity. rewrite H. reflexivity.
Qed.

(** The reciprocal of 425 is rounded down, that of 12.5 up, and the products
    with the street lengths are rounded to 1 - 2^-53 and to 1. *)
Example double_reciprocals :
  exists below above : Q,
    double (1 / 425) = Ok below /\ (below < 1 / 425)%Q /\
    double (1 / 12.5) = Ok above /\ (1 / 12.5 < above)%Q /\
    (exists product, double (425 * below) = Ok product /\ (product == 1 - (1 # 2) ^ 53)%Q) /\
    (exists product, double (12.5 * above) = Ok product /\ (product == 1)%Q).
Proof.
  eexists _, _. split; [vm_compute; reflexivity|]. split; [vm_compute; reflexivity|].
  split; [vm_compute; reflexivity|]. split; [vm_compute; reflexivity|].
  split; eexists; (split; [vm_compute; reflexivity|]); vm_compute; reflexivity.
Qed.

(** C7 fails on the code: on one street of length 425 with cars of size 34
    and packing ratio 10 the claim's capacity is floor(425 / 425) + 1 = 2,
    and [changeDensity] stores 1 for High.  [computeMaxCars] multiplies the
    length by the reciprocal 1 / 425, which the machine rounds down, so the
    product is below 1 and its floor is 0.  On a street of length 12.5 with
    cars of size 1, where the reciprocal 1 / 12.5 is rounded up, the same code
    stores the 2 of the claim. *)
Theorem reciprocal_rounding_loses_a_car :
  changeDensity Sample.cars34 High = Ok (with_numCars Sample.cars34 1) /\
  (targetCount_spec
     (networkCapacity_spec (_streets Sample.cars34) (Point2d.y (_carSize Sample.cars34))
        (_packingRatio Sample.cars34) (_maxCars Sample.cars34)) High == 2)%Q /\
  changeDensity Sample.cars1 High = Ok (with_numCars Sample.cars1 2) /\
  (targetCount_spec
     (networkCapacity_spec (_streets Sample.cars1) (Point2d.y (_carSize Sample.cars1))
        (_packingRatio Sample.cars1) (_maxCars Sample.cars1)) High == 2)%Q.
Proof.
  split; [vm_compute; reflexivity|]. split; [vm_compute; reflexivity|].
  split; vm_compute; reflexivity.
Qed.

Example changeDensity_sample :
  (changeDensity (Sample.oneStreet [] 0) High = Ok (Sample.oneStreet [] 9)) /\
  (exists this', changeDensity (Sample.oneStreet [] 0) Low = Ok this' /\
                 (_numCars this' == 9 / 5)%Q).
Proof.
  split; [vm_compute; reflexivity|].
  eexists. split; [vm_compute; reflexivity|]. vm_compute. reflexivity.
Qed.

(** [setSize] replaces the car size and nothing else. *)
Lemma setSize_fields (carSizeDefaultX carSizeDefaultY : Q) (this : CarVisualization) (size : Q) :
  let this' := setSize carSizeDefaultX carSizeDefaultY this size in
  _carSize this' = Point2d.create (carSizeDefaultX * size) (carSizeDefaultY * size) /\
  _numCars this' = _numCars this /\
  carParticles this' = carParticles this /\
  _streets this' = _streets this /\
  _packingRatio this' = _packingRatio this /\
  _maxCars this' = _maxCars this.
Proof.
  cbv zeta. unfold setSize, with_carSize. cbn. repeat split.
Qed.

(** C8, as stated, fails for [setSize]: on the one-street network with target
    9 (High, size factor 1), doubling the size leaves the stored target at 9
    although the capacity for the now-current car size is 5. *)
Lemma setSize_leaves_target_stale :
  exists this1,
    changeDensity (Sample.oneStreet [] 0) High = Ok this1 /\
    let this2 := setSize 1 1 this1 2 in
    (_numCars this2 == 9)%Q /\
    (targetCount_spec
       (networkCapacity_spec (_streets this2) (Point2d.y (_carSize this2))
          (_packingRatio this2) (_maxCars this2)) High == 5)%Q /\
    ~ (_numCars this2
       == targetCount_spec
            (networkCapacity_spec (_streets this2) (Point2d.y (_carSize this2))
               (_packingRatio this2) (_maxCars this2)) High)%Q.
Proof.
  exists (Sample.oneStreet [] 9). split; [vm_compute; reflexivity|].
  cbv zeta. split; [vm_compute; reflexivity|]. split; [vm_compute; reflexivity|].
  vm_compute. discriminate.
Qed.

(** C8, amended: [changeDensity] recomputes the stored target from the
    density it is given and the car size current at that moment: it stores
    the density's share of the capacity that [computeMaxCars] returns for
    that size.  [setSize] only replaces the car size and keeps the stored
    target as it was, so a new size reaches the target at the next
    [changeDensity]; neither call touches the particle collection. *)
Theorem target_recomputed_by_changeDensity_only
    (carSizeDefaultX carSizeDefaultY : Q) (this : CarVisualization)
    (size : Q) (density : Density) (capacity : Q) :
  computeMaxCars this (carSizeDefaultY * size) (_packingRatio this) (_maxCars this)
  = Ok capacity ->
  let resized := setSize carSizeDefaultX carSizeDefaultY this size in
  _numCars resized = _numCars this /\
  carParticles resized = carParticles this /\
  exists this',
    changeDensity resized density = Ok this' /\
    _numCars this' = getNumberOfCars capacity density /\
    carParticles this' = carParticles this /\
    _carSize this' = _carSize resized.
Proof.
  intros Hcapacity resized.
  destruct (setSize_fields carSizeDefaultX carSizeDefaultY this size)
    as (Hsize & Hnum & Hcars & Hstreets & Hpack & Hmax).
  fold resized in Hsize, Hnum, Hcars, Hstreets, Hpack, Hmax.
  split; [exact Hnum|]. split; [exact Hcars|].
  assert (Hy : Point2d.y (_carSize resized) = (carSizeDefaultY * size)%Q).
  { rewrite Hsize. reflexivity. }
  eexists. split.
  - apply changeDensity_from_capacity. rewrite Hy, Hpack, Hmax.
    rewrite (computeMaxCars_streets resized this) by exact Hstreets.
    exact Hcapacity.
  - cbn [_numCars carParticles _carSize with_numCars].
    split; [reflexivity|]. split; [exact Hcars | reflexivity].
Qed.

Lemma target_recomputed_by_changeDensity_only_witness :
  computeMaxCars (Sample.oneStreet [Sample.nearEnd] 9) (1 * 2)
    (_packingRatio (Sample.oneStreet [Sample.nearEnd] 9))
    (_maxCars (Sample.oneStreet [Sample.nearEnd] 9)) = Ok 5%Q /\
  let resized := setSize 1 1 (Sample.oneStreet [Sample.nearEnd] 9) 2 in
  _numCars resized = 9%Q /\
  carParticles resized = [Sample.nearEnd] /\
  exists this',
    changeDensity resized Medium = Ok this' /\
    _numCars this' = getNumberOfCars 5 Medium /\
    carParticles this' = [Sample.nearEnd] /\
    _carSize this' = _carSize resized.
Proof.
  assert (H : computeMaxCars (Sample.oneStreet [Sample.nearEnd] 9) (1 * 2)
                (_packingRatio (Sample.oneStreet [Sample.nearEnd] 9))
                (_maxCars (Sample.oneStreet [Sample.nearEnd] 9)) = Ok 5%Q).
  { vm_compute. reflexivity. }
  split; [exact H|].
  apply (target_recomputed_by_changeDensity_only 1 1
           (Sample.oneStreet [Sample.nearEnd] 9) 2 Medium 5 H).
Defined.

(** ** Pause (C9) *)

(** C9: while the pause flag is set, a frame hands the particle collection of
    the simulation to the renderer as it is (or draws nothing when the
    textures are missing), runs neither kinematics nor routing, draws no
    random number and leaves the simulation object unchanged; a second paused
    frame therefore shows exactly the same particles, in the same order. *)
Theorem paused_frames_identical
    (random : nat -> Q) (normalize : Vector2d.t -> option Vector2d.t)
    (pointDistance : Point3d.t -> Point3d.t -> Q)
    (fuel : nat) (this : CarDecorator) (now1 now2 : Q) (n : nat) :
  _pause this = true ->
  exists shown this1 this2,
    decorate random normalize pointDistance fuel this now1 n = Ok ((shown, this1), n) /\
    decorate random normalize pointDistance fuel this1 now2 n = Ok ((shown, this2), n) /\
    (shown = Some (carParticles (_visualization this)) \/ shown = None) /\
    _visualization this1 = _visualization this /\
    _visualization this2 = _visualization this /\
    _pause this1 = true /\ _pause this2 = true.
Proof.
  intros Hp. destruct this as [textures last viz mult p]. simpl in Hp. subst p.
  unfold decorate. simpl.
  destruct (at_ textures 0) as [[tex|]|] eqn:Ht.
  - exists (Some (carParticles viz)),
      (mkCarDecorator textures now1 viz mult true),
      (mkCarDecorator textures now2 viz mult true).
    simpl. rewrite Ht. unfold ret, getParticles. simpl. auto 10.
  - exists None, (mkCarDecorator textures last viz mult true),
      (mkCarDecorator textures last viz mult true).
    simpl. rewrite Ht. unfold ret. auto 10.
  - exists None, (mkCarDecorator textures last viz mult true),
      (mkCarDecorator textures last viz mult true).
    simpl. rewrite Ht. unfold ret. auto 10.
Qed.

Lemma paused_frames_identical_witness :
  _pause (Sample.decorator true) = true /\
  exists shown this1 this2,
    decorate (Sample.draws []) Sample.noNormalize Sample.noDistance 3
      (Sample.decorator true) 16 0%nat = Ok ((shown, this1), 0%nat) /\
    decorate (Sample.draws []) Sample.noNormalize Sample.noDistance 3 this1 32 0%nat
    = Ok ((shown, this2), 0%nat) /\
    (shown = Some (carParticles (_visualization (Sample.decorator true))) \/ shown = None) /\
    _visualization this1 = _visualization (Sample.decorator true) /\
    _visualization this2 = _visualization (Sample.decorator true) /\
    _pause this1 = true /\ _pause this2 = true.
Proof.
  split; [reflexivity|].
  apply (paused_frames_identical (Sample.draws []) Sample.noNormalize Sample.noDistance
           3 (Sample.decorator true) 16 32 0%nat).
  reflexivity.
Defined.

(** ** Empty network (C10) *)

(** C10: when the street list is empty, [updateParticles] returns the empty
    sequence and leaves the whole simulation state, the particles included,
    and the random source untouched, whatever the particle count and the
    target count are. *)
Theorem updateParticles_empty_network
    (random : nat -> Q) (normalize : Vector2d.t -> option Vector2d.t)
    (pointDistance : Point3d.t -> Point3d.t -> Q)
    (fuel : nat) (this : CarVisualization) (elapsedSeconds : Q) (n : nat) :
  _streets this = [] ->
  updateParticles random normalize pointDistance fuel this elapsedSeconds n
  = Ok (([], this), n).
Proof.
  intros Hs. unfold updateParticles. rewrite Hs. reflexivity.
Qed.

Lemma updateParticles_empty_network_witness :
  let this :=
    mkCarVisualization [Sample.nearEnd] [] ∅ [] [] 5 10 9000 (Point2d.create 1 1) 9 in
  _streets this = [] /\
  updateParticles (Sample.draws []) Sample.noNormalize Sample.noDistance 0 this 1 0%nat
  = Ok (([], this), 0%nat).
Proof.
  split; [reflexivity|].
  apply (updateParticles_empty_network (Sample.draws []) Sample.noNormalize
           Sample.noDistance 0 _ 1 0%nat).
  reflexivity.
Defined.

(** ** Respawn (C4) *)

(** C4 fails on the code: with entry weights 0.9 and 1 over the entry streets
    0 and 1, and draws 0.6 and 0.5, weighted selection gives street 0 for
    either draw, but the respawned car is put on street 1.  [restartCar]
    picks [startStreetIndices\[floor(r × count)\]] and never reads the
    weights that [emitCar] consults for the same choice. *)
Lemma restartCar_ignores_entry_weights :
  let random := Sample.draws [0.6; 0.5]%Q in
  weightedPick_spec (_startStreetProbabilities Sample.twoEntries)
    (_startStreetIndices Sample.twoEntries) (random 0%nat) = Some 0 /\
  weightedPick_spec (_startStreetProbabilities Sample.twoEntries)
    (_startStreetIndices Sample.twoEntries) (random 1%nat) = Some 0 /\
  exists car',
    restartCar random Sample.twoEntries Sample.nearEnd 0%nat = Ok (car', 2%nat) /\
    CarParticle.street car' = 1.
Proof.
  cbv zeta. split; [vm_compute; reflexivity|]. split; [vm_compute; reflexivity|].
  eexists. split; [vm_compute; reflexivity|]. reflexivity.
Qed.

(** What [restartCar] computes from its two draws. *)
Lemma restartCar_outcome
    (random : nat -> Q) (this : CarVisualization) (car : CarParticle.t) (n : nat)
    (s : Z) (st : Street.t) (p0 p1 : Point3d.t) (rest : list Point3d.t) :
  at_ (_startStreetIndices this)
      (Qfloor (random n * inject_Z (len (_startStreetIndices this)))) = Some s ->
  at_ (_streets this) s = Some st ->
  Street.points st = p0 :: p1 :: rest ->
  restartCar random this car n
  = Ok (CarParticle.mk (Point3d.x p0) (Point3d.y p0) (Point3d.z p0) 0 s 0 0 0 (-1)
          (Qfloor (random (S n) * inject_Z (_numTypes this)))
          (Some (Vector2d.create (Point3d.x p1 - Point3d.x p0)
                                 (- (Point3d.y p1 - Point3d.y p0)))%Q)
          (CarParticle.rotationMatrix car),
        S (S n)).
Proof.
  intros Hidx Hst Hp. unfold restartCar.
  rewrite (bind_Ok _ _ _ _ _ (randomInteger_from_zero random _ n)).
  rewrite (bind_lift _ _ _ s) by (rewrite Hidx; reflexivity).
  rewrite (bind_lift _ _ _ st) by (rewrite Hst; reflexivity).
  rewrite (bind_lift _ _ _ p0) by (rewrite Hp; reflexivity).
  rewrite (bind_Ok _ _ _ _ _ (randomInteger_from_zero random _ (S n))).
  cbn [CarParticle.street CarParticle.setType CarParticle.setIntersection
       CarParticle.setWaiting CarParticle.setSegmentDist CarParticle.setSegment
       CarParticle.setStreet CarParticle.setSpeed CarParticle.setXYZ].
  rewrite Hst. unfold lift.
  erewrite setDirectionOnStreet_first_segment; [reflexivity | reflexivity | exact Hp].
Qed.

(** What [restartCar] does in place of the weighted choice: the particle is
    put on the entry street [startStreetIndices\[floor(r1 × count)\]] for the
    first draw r1, whatever [startStreetProbabilities] holds; it gets the
    variant [floor(r2 × numTypes)] for the second draw r2, the position of
    the street's first point, speed 0, segment 0, segmentDist 0, waiting 0,
    intersection -1 and the heading of the street's first segment. *)
Theorem restartCar_uniform_entry
    (random : nat -> Q) (this : CarVisualization) (car : CarParticle.t) (n : nat)
    (s : Z) (st : Street.t) (p0 p1 : Point3d.t) (rest : list Point3d.t) :
  at_ (_startStreetIndices this)
      (Qfloor (random n * inject_Z (len (_startStreetIndices this)))) = Some s ->
  at_ (_streets this) s = Some st ->
  Street.points st = p0 :: p1 :: rest ->
  restartCar random this car n
  = Ok (CarParticle.mk (Point3d.x p0) (Point3d.y p0) (Point3d.z p0) 0 s 0 0 0 (-1)
          (Qfloor (random (S n) * inject_Z (_numTypes this)))
          (Some (Vector2d.create (Point3d.x p1 - Point3d.x p0)
                                 (- (Point3d.y p1 - Point3d.y p0)))%Q)
          (CarParticle.rotationMatrix car),
        S (S n)) /\
  forall probabilities,
    restartCar random (with_startStreetProbabilities this probabilities) car n
    = restartCar random this car n.
Proof.
  intros Hidx Hst Hp.
  pose proof (restartCar_outcome random this car n s st p0 p1 rest Hidx Hst Hp) as Hthis.
  split; [exact Hthis|].
  intros probabilities. rewrite Hthis.
  apply (restartCar_outcome random (with_startStreetProbabilities this probabilities)
           car n s st p0 p1 rest); assumption.
Qed.

Lemma restartCar_uniform_entry_witness :
  let random := Sample.draws [0.6; 0.5]%Q in
  at_ (_startStreetIndices Sample.twoEntries)
      (Qfloor (random 0%nat * inject_Z (len (_startStreetIndices Sample.twoEntries))))
  = Some 1 /\
  at_ (_streets Sample.twoEntries) 1 = Some Sample.entryB /\
  Street.points Sample.entryB = [Sample.P 0 50 0; Sample.P 0 150 0] /\
  restartCar random Sample.twoEntries Sample.nearEnd 0%nat
  = Ok (CarParticle.mk 0 50 0 0 1 0 0 0 (-1) 4
          (Some (Vector2d.create (0 - 0) (- (150 - 50)))%Q) None,
        2%nat) /\
  forall probabilities,
    restartCar random (with_startStreetProbabilities Sample.twoEntries probabilities)
      Sample.nearEnd 0%nat
    = restartCar random Sample.twoEntries Sample.nearEnd 0%nat.
Proof.
  cbv zeta. repeat (split; [reflexivity|]).
  apply (restartCar_uniform_entry (Sample.draws [0.6; 0.5]%Q) Sample.twoEntries
           Sample.nearEnd 0%nat 1 Sample.entryB (Sample.P 0 50 0) (Sample.P 0 150 0) []);
    reflexivity.
Defined.

Lemma restartCar_respawns (random : nat -> Q) (this : CarVisualization)
    (car : CarParticle.t) (n : nat) :
  (0 <= random n)%Q -> (random n < 1)%Q ->
  entriesWellFormed this ->
  exists car',
    restartCar random this car n = Ok (car', S (S n)) /\ respawned this car'.
Proof.
  intros H0 H1 [Hne Hwf].
  assert (Hcount : 0 < len (_startStreetIndices this)).
  { unfold len. destruct (_startStreetIndices this); [contradiction | cbn; lia]. }
  destruct (at_in_range (_startStreetIndices this)
              (Qfloor (random n * inject_Z (len (_startStreetIndices this)))))
    as [s Hs]; [apply scaled_draw_in_range; assumption|].
  assert (Hin : In s (_startStreetIndices this)).
  { apply at_Some in Hs. destruct Hs as [_ Hs].
    apply list_elem_of_In. apply list_elem_of_lookup. eauto. }
  destruct (Hwf s Hin) as (st & Hst & Hlen).
  destruct (Street.points st) as [|p0 [|p1 rest]] eqn:Hp;
    [unfold len in Hlen; cbn in Hlen; lia | unfold len in Hlen; cbn in Hlen; lia |].
  eexists. split.
  - apply (restartCar_outcome random this car n s st p0 p1 rest Hs Hst Hp).
  - exists st, p0. car_fields. rewrite Hp. repeat (split; try assumption; try reflexivity).
Qed.

(** ** Leaving an intersection path (C3) *)

(** On any path whose [inTo] is not 0, the end of the path puts the car on
    street [inTo], at segment 0 and segmentDist 0, outside any intersection,
    with the heading of that street's first segment. *)
Lemma moveCarBody_leaves_path
    (random : nat -> Q) (this : CarVisualization) (car car1 : CarParticle.t)
    (timeLeft elapsedSeconds left : Q) (n : nat)
    (i : Intersection.t) (path st : Street.t) (p0 p1 : Point3d.t) (rest : list Point3d.t) :
  ~ (0 < CarParticle.waiting car)%Q ->
  ~ (0 == CarParticle.speed car)%Q ->
  0 <= CarParticle.intersection car ->
  _intersections this !! CarParticle.intersection car = Some i ->
  at_ (Intersection.inOutPaths i) (CarParticle.street car) = Some path ->
  moveCarOnStreet car path timeLeft = Ok (car1, left) ->
  (0 <= left)%Q ->
  Street.inTo path <> 0 ->
  at_ (_streets this) (Street.inTo path) = Some st ->
  Street.points st = p0 :: p1 :: rest ->
  moveCarBody random this car timeLeft elapsedSeconds n
  = Ok (Continue
          (CarParticle.setDirection
             (CarParticle.setIntersection
                (CarParticle.setSegmentDist
                   (CarParticle.setSegment
                      (CarParticle.setStreet car1 (Street.inTo path)) 0) 0) (-1))
             (Vector2d.create (Point3d.x p1 - Point3d.x p0)
                              (- (Point3d.y p1 - Point3d.y p0)))%Q)
          left elapsedSeconds, n).
Proof.
  intros Hw Hv Hi Hint Hpath Hmove Hleft Hin Hst Hp.
  destruct (moveCarOnStreet_route _ _ _ _ _ Hmove) as (Hs1 & Hi1 & _).
  unfold moveCarBody.
  assert (Ew : Qltb 0 (CarParticle.waiting car) = false).
  { apply Qltb_ge. apply Qnot_lt_le. exact Hw. }
  rewrite Ew.
  assert (Ei : (CarParticle.intersection car =? -1) = false) by (apply Z.eqb_neq; lia).
  rewrite Ei, Hint, Hpath, (Qeq_bool_false _ _ Hv).
  rewrite (bind_Ok _ _ n n car (eq_refl : ret car n = Ok (car, n))).
  rewrite (bind_lift _ _ _ (car1, left) Hmove).
  assert (El : Qltb left 0 = false) by (apply Qltb_ge; exact Hleft).
  rewrite El, Hi1.
  assert (Eg : (CarParticle.intersection car >=? 0) = true) by (apply Z.geb_le; lia).
  rewrite Eg, Hint, Hs1.
  rewrite (bind_Ok _ _ n n (Street.inTo path)).
  2:{ rewrite (bind_lift _ _ _ path) by (rewrite Hpath; reflexivity).
      apply Z.eqb_neq in Hin. rewrite Hin. reflexivity. }
  cbn [CarParticle.street CarParticle.setIntersection CarParticle.setSegmentDist
       CarParticle.setSegment CarParticle.setStreet].
  rewrite Hst.
  erewrite bind_lift;
    [reflexivity
    | apply (setDirectionOnStreet_first_segment _ st p0 p1 rest); [reflexivity | exact Hp]].
Qed.

(** On a path whose [inTo] is 0, the end of the path leaves the path id in
    [street]: the car goes on along the street with the path's index. *)
Lemma moveCarBody_path_into_zero
    (random : nat -> Q) (this : CarVisualization) (car car1 : CarParticle.t)
    (timeLeft elapsedSeconds left : Q) (n : nat)
    (i : Intersection.t) (path st : Street.t) (p0 p1 : Point3d.t) (rest : list Point3d.t) :
  ~ (0 < CarParticle.waiting car)%Q ->
  ~ (0 == CarParticle.speed car)%Q ->
  0 <= CarParticle.intersection car ->
  _intersections this !! CarParticle.intersection car = Some i ->
  at_ (Intersection.inOutPaths i) (CarParticle.street car) = Some path ->
  moveCarOnStreet car path timeLeft = Ok (car1, left) ->
  (0 <= left)%Q ->
  Street.inTo path = 0 ->
  at_ (_streets this) (CarParticle.street car) = Some st ->
  Street.points st = p0 :: p1 :: rest ->
  moveCarBody random this car timeLeft elapsedSeconds n
  = Ok (Continue
          (CarParticle.setDirection
             (CarParticle.setIntersection
                (CarParticle.setSegmentDist
                   (CarParticle.setSegment
                      (CarParticle.setStreet car1 (CarParticle.street car)) 0) 0) (-1))
             (Vector2d.create (Point3d.x p1 - Point3d.x p0)
                              (- (Point3d.y p1 - Point3d.y p0)))%Q)
          left elapsedSeconds, n).
Proof.
  intros Hw Hv Hi Hint Hpath Hmove Hleft Hin Hst Hp.
  destruct (moveCarOnStreet_route _ _ _ _ _ Hmove) as (Hs1 & Hi1 & _).
  unfold moveCarBody.
  assert (Ew : Qltb 0 (CarParticle.waiting car) = false).
  { apply Qltb_ge. apply Qnot_lt_le. exact Hw. }
  rewrite Ew.
  assert (Ei : (CarParticle.intersection car =? -1) = false) by (apply Z.eqb_neq; lia).
  rewrite Ei, Hint, Hpath, (Qeq_bool_false _ _ Hv).
  rewrite (bind_Ok _ _ n n car (eq_refl : ret car n = Ok (car, n))).
  rewrite (bind_lift _ _ _ (car1, left) Hmove).
  assert (El : Qltb left 0 = false) by (apply Qltb_ge; exact Hleft).
  rewrite El, Hi1.
  assert (Eg : (CarParticle.intersection car >=? 0) = true) by (apply Z.geb_le; lia).
  rewrite Eg, Hint, Hs1.
  rewrite (bind_Ok _ _ n n (CarParticle.street car)).
  2:{ rewrite (bind_lift _ _ _ path) by (rewrite Hpath; reflexivity).
      rewrite Hin. reflexivity. }
  cbn [CarParticle.street CarParticle.setIntersection CarParticle.setSegmentDist
       CarParticle.setSegment CarParticle.setStreet].
  rewrite Hst.
  erewrite bind_lift;
    [reflexivity
    | apply (setDirectionOnStreet_first_segment _ st p0 p1 rest); [reflexivity | exact Hp]].
Qed.

(** C3 on the code: a car that finishes connector path 1 of the crossroads,
    whose [inTo] is street 0, is not put on street 0: its [street] keeps the
    path id 1, so it continues on street 1 ([inTo || car.street] takes the
    second operand when [inTo] is 0).  Seen from street 2: the draw 0.3
    selects the outbound street 0, and the update leaves the car on street 1. *)
Theorem path_into_street_zero_keeps_path_id :
  at_ (Intersection.inOutPaths Sample.crossing) (CarParticle.street Sample.onPath)
  = Some Sample.intoWest /\
  Street.inTo Sample.intoWest = 0 /\
  (exists car',
      moveCarBody (Sample.draws []) Sample.crossroads Sample.onPath 1 1 0%nat
      = Ok (Continue car' 0.9 1, 0%nat) /\
      CarParticle.street car' = 1 /\
      CarParticle.segment car' = 0 /\
      CarParticle.segmentDist car' = 0%Q /\
      CarParticle.intersection car' = -1 /\
      CarParticle.direction car' = Some (Vector2d.create 0 (-100))) /\
  getNextStreet (Sample.draws [0.3]%Q) Sample.crossing 2 0%nat = Ok (Some 0, 1%nat) /\
  (exists car',
      moveCar (Sample.draws [0.3]%Q) 5 Sample.crossroads Sample.beforeCrossing 2 0%nat
      = Ok (car', 1%nat) /\
      CarParticle.street car' = 1 /\ CarParticle.intersection car' = -1).
Proof.
  split; [reflexivity|]. split; [reflexivity|]. split.
  - eexists. split; [vm_compute; reflexivity|]. repeat split.
  - split; [vm_compute; reflexivity|].
    eexists. split; [vm_compute; reflexivity|]. split; reflexivity.
Qed.

(** ** A draw past the last cumulative probability (C1) *)

(** When no cumulative probability exceeds the draw, [getNextStreet]
    answers -1. *)
Lemma getNextStreetLoop_no_bucket (probabilities : list Q) (index : Z) (r : Q)
    (streetsOut : list Z) :
  Forall (fun p => (p <= r)%Q) probabilities ->
  getNextStreetLoop probabilities index r streetsOut = Some (-1).
Proof.
  intros H. revert index.
  induction H as [|p probabilities Hp _ IH]; intros index; cbn [getNextStreetLoop].
  - reflexivity.
  - apply Qltb_ge in Hp. rewrite Hp. apply IH.
Qed.

(** Whenever the draw lands in no cumulative bucket and [findPath] answers
    -1 for the missing outbound street, the pass of [moveCar] that routes the
    car stops with a TypeError. *)
Lemma moveCarBody_no_bucket_faults
    (random : nat -> Q) (this : CarVisualization) (car car1 : CarParticle.t)
    (timeLeft elapsedSeconds left : Q) (n : nat)
    (st : Street.t) (i : Intersection.t) (probabilities : list Q) :
  CarParticle.intersection car = -1 ->
  (CarParticle.waiting car <= 0)%Q ->
  ~ (0 == CarParticle.speed car)%Q ->
  at_ (_streets this) (CarParticle.street car) = Some st ->
  moveCarOnStreet car st timeLeft = Ok (car1, left) ->
  (0 <= left)%Q ->
  0 <= Street.inTo st ->
  _intersections this !! Street.inTo st = Some i ->
  Intersection.streetsOut i <> [] ->
  Intersection.inOutProbabilities i !! CarParticle.street car = Some probabilities ->
  Forall (fun p => (p <= random n)%Q) probabilities ->
  Intersection.findPath i (CarParticle.street car) (Some (-1)) = -1 ->
  moveCarBody random this car timeLeft elapsedSeconds n = Err TypeError.
Proof.
  intros Hi Hw Hv Hst Hmove Hleft Hin Hint Hout Hprob Hnone Hfind.
  destruct (moveCarOnStreet_route _ _ _ _ _ Hmove) as (Hstreet1 & Hint1 & _).
  unfold moveCarBody.
  assert (Ew : Qltb 0 (CarParticle.waiting car) = false) by (apply Qltb_ge; exact Hw).
  rewrite Ew, Hi. cbn [Z.eqb Pos.eqb]. rewrite Hst, (Qeq_bool_false _ _ Hv).
  rewrite (bind_Ok _ _ n n car (eq_refl : ret car n = Ok (car, n))).
  rewrite (bind_lift _ _ _ (car1, left) Hmove).
  assert (El : Qltb left 0 = false) by (apply Qltb_ge; exact Hleft).
  rewrite El, Hint1, Hi. cbn [Z.geb Z.compare]. rewrite Hstreet1.
  rewrite (bind_lift _ _ _ st) by (rewrite Hst; reflexivity).
  rewrite Hint.
  assert (Eedge : (Street.inTo st <? 0) || (len (Intersection.streetsOut i) =? 0) = false).
  { apply orb_false_iff. split; [apply Z.ltb_ge; exact Hin|].
    apply Z.eqb_neq. unfold len. destruct (Intersection.streetsOut i); [contradiction|].
    cbn [length]. lia. }
  rewrite Eedge.
  assert (Hnext : getNextStreet random i (CarParticle.street car) n = Ok (Some (-1), S n)).
  { unfold getNextStreet. rewrite Hprob. unfold bind, randomFloat, bind, Math_random, ret.
    rewrite getNextStreetLoop_no_bucket; [reflexivity|].
    eapply Forall_impl; [exact Hnone|]. cbv beta. intros p Hp. lra. }
  rewrite (bind_Ok _ _ _ _ _ Hnext). car_fields. rewrite Hfind. cbn [Z.eqb Pos.eqb].
  rewrite (bind_lift _ _ _ (-1)) by reflexivity. car_fields.
  apply bind_Err. reflexivity.
Qed.

(** C1 on the code: at the junction whose cumulative probabilities end at
    0.9999999, the draw 0.99999995 lands in no bucket; [getNextStreet] answers
    -1, no path is found for it, and the car is moved to street -1, whose
    heading cannot be read: the update stops with a TypeError instead of
    respawning the car. *)
Theorem draw_past_last_bucket_faults :
  let random := Sample.draws [0.99999995]%Q in
  (0 <= random 0%nat)%Q /\ (random 0%nat < 1)%Q /\
  getNextStreet random Sample.junction 0 0%nat = Ok (Some (-1), 1%nat) /\
  moveCar random 5 Sample.shortOfOne Sample.nearEnd 1 0%nat = Err TypeError /\
  updateParticles random Sample.noNormalize Sample.noDistance 5
    (with_carParticles Sample.shortOfOne [Sample.nearEnd]) 1 0%nat = Err TypeError.
Proof.
  cbv zeta. split; [vm_compute; discriminate|]. split; [vm_compute; reflexivity|].
  split; [vm_compute; reflexivity|]. split; vm_compute; reflexivity.
Qed.

(** ** Population control (C5) *)

Lemma addCars_spec (random : nat -> Q) (pointDistance : Point3d.t -> Point3d.t -> Q)
    (this : CarVisualization) (fuel : nat) :
  forall (numCars : Q) (cars : list CarParticle.t) (n n' : nat)
         (numCars' : Q) (cars' : list CarParticle.t),
    addCars random pointDistance fuel this numCars cars n = Ok ((numCars', cars'), n') ->
    exists new,
      cars' = cars ++ new /\
      (numCars' == numCars - inject_Z (len new))%Q /\
      (numCars' <= 0)%Q /\
      ((0 < numCars)%Q -> (-1 < numCars')%Q) /\
      ((numCars <= 0)%Q -> new = [] /\ n' = n).
Proof.
  induction fuel as [|fuel IH]; intros numCars cars n n' numCars' cars' H;
    cbn [addCars] in H; destruct (Qltb 0 numCars) eqn:E.
  - discriminate.
  - inversion H; subst. apply Qltb_ge in E. exists []. rewrite app_nil_r.
    change (inject_Z (len (@nil CarParticle.t))) with 0%Q.
    repeat split; intros; try reflexivity; try lra.
  - apply Qltb_lt in E.
    apply bind_inv in H. destruct H as (s & n1 & _ & H).
    apply bind_inv in H. destruct H as (st & n2 & _ & H).
    apply bind_inv in H. destruct H as (seg & n3 & _ & H).
    apply bind_inv in H. destruct H as (d & n4 & _ & H).
    apply bind_inv in H. destruct H as (distance & n5 & _ & H).
    apply bind_inv in H. destruct H as (car & n6 & _ & H).
    destruct (IH _ _ _ _ _ _ H) as (new & Hcars & Hnum & Hle & Hpos & Hnone).
    exists (car :: new). rewrite <- app_assoc in Hcars. split; [exact Hcars|].
    assert (Hlen : (inject_Z (len (car :: new)) == inject_Z (len new) + 1)%Q).
    { unfold len. cbn [length]. rewrite Nat2Z.inj_succ, <- Z.add_1_r, inject_Z_plus.
      reflexivity. }
    split; [rewrite Hlen, Hnum; ring|]. split; [exact Hle|]. split.
    + intros _. destruct (Qlt_le_dec 0 (numCars - 1)) as [Hmore|Hlast].
      * apply Hpos. exact Hmore.
      * destruct (Hnone Hlast) as [-> _]. rewrite Hnum.
        change (inject_Z (len (@nil CarParticle.t))) with 0%Q. lra.
    + intros Hneg. lra.
  - inversion H; subst. apply Qltb_ge in E. exists []. rewrite app_nil_r.
    change (inject_Z (len (@nil CarParticle.t))) with 0%Q.
    repeat split; intros; try reflexivity; try lra.
Qed.

Lemma removeCars_spec (fuel : nat) :
  forall (numCars : Q) (cars : list CarParticle.t) (n n' : nat)
         (numCars' : Q) (cars' : list CarParticle.t),
    removeCars fuel numCars cars n = Ok ((numCars', cars'), n') ->
    n' = n /\
    exists k : nat,
      cars' = take (length cars - k) cars /\
      (numCars' == numCars + inject_Z (Z.of_nat k))%Q /\
      (0 <= numCars')%Q /\
      ((numCars < 0)%Q -> (numCars' < 1)%Q) /\
      ((0 <= numCars)%Q -> k = 0%nat).
Proof.
  induction fuel as [|fuel IH]; intros numCars cars n n' numCars' cars' H;
    cbn [removeCars] in H; destruct (Qltb numCars 0) eqn:E.
  - discriminate.
  - inversion H; subst. apply Qltb_ge in E. split; [reflexivity|]. exists 0%nat.
    rewrite Nat.sub_0_r, firstn_all. change (inject_Z (Z.of_nat 0)) with 0%Q.
    repeat split; intros; try reflexivity; try lra.
  - apply Qltb_lt in E.
    destruct (IH _ _ _ _ _ _ H) as (Hn & k & Hcars & Hnum & Hge & Hlt & Hzero).
    split; [exact Hn|]. exists (S k). split.
    { rewrite Hcars, removelast_take, take_take, length_take. f_equal. lia. }
    split.
    { rewrite Hnum, Nat2Z.inj_succ, <- Z.add_1_r, inject_Z_plus. ring. }
    split; [exact Hge|]. split.
    + intros _. destruct (Qlt_le_dec (numCars + 1) 0) as [Hmore|Hlast].
      * apply Hlt. exact Hmore.
      * rewrite (Hzero Hlast) in Hnum. rewrite Hnum.
        change (inject_Z (Z.of_nat 0)) with 0%Q. lra.
    + intros Hpos. lra.
  - inversion H; subst. apply Qltb_ge in E. split; [reflexivity|]. exists 0%nat.
    rewrite Nat.sub_0_r, firstn_all. change (inject_Z (Z.of_nat 0)) with 0%Q.
    repeat split; intros; try reflexivity; try lra.
Qed.

Lemma moveCars_length (random : nat -> Q) (normalize : Vector2d.t -> option Vector2d.t)
    (fuel : nat) (this : CarVisualization) (elapsedSeconds : Q) :
  forall (cars cars' : list CarParticle.t) (n n' : nat),
    moveCars random normalize fuel this elapsedSeconds cars n = Ok (cars', n') ->
    length cars' = length cars.
Proof.
  induction cars as [|car cars IH]; intros cars' n n' H; cbn [moveCars] in H.
  - inversion H. reflexivity.
  - apply bind_inv in H. destruct H as (c & n1 & _ & H).
    apply bind_inv in H. destruct H as (rest & n2 & Hrest & H).
    inversion H. cbn [length]. f_equal. apply (IH _ _ _ Hrest).
Qed.

(** Each car of the collection is moved by its own [moveCar] call and keeps
    its place. *)
Lemma moveCars_lookup (random : nat -> Q) (normalize : Vector2d.t -> option Vector2d.t)
    (fuel : nat) (this : CarVisualization) (elapsedSeconds : Q) :
  forall (cars cars' : list CarParticle.t) (n n' : nat) (i : nat) (car : CarParticle.t),
    moveCars random normalize fuel this elapsedSeconds cars n = Ok (cars', n') ->
    cars !! i = Some car ->
    exists n1 n2 moved,
      moveCar random fuel this car elapsedSeconds n1 = Ok (moved, n2) /\
      cars' !! i = Some (setRotationMatrix normalize moved).
Proof.
  induction cars as [|c cars IH]; intros cars' n n' i car H Hi; cbn [moveCars] in H.
  - discriminate.
  - apply bind_inv in H. destruct H as (moved & n1 & Hmoved & H).
    apply bind_inv in H. destruct H as (rest & n2 & Hrest & H).
    inversion H. subst cars' n'.
    destruct i as [|i].
    + inversion Hi. subst c. exists n, n1, moved. split; [exact Hmoved | reflexivity].
    + apply (IH _ _ _ i car Hrest Hi).
Qed.

(** [emitCar] at a distance along a segment of an existing street succeeds
    with one draw, the variant. *)
Lemma emitCar_on_segment (random : nat -> Q) (pointDistance : Point3d.t -> Point3d.t -> Q)
    (this : CarVisualization) (s seg : Z) (distance d : Q) (n : nat) (st : Street.t) :
  at_ (_streets this) s = Some st ->
  len (Street.points st) = len (Street.distance st) + 1 ->
  at_ (Street.distance st) seg = Some d ->
  ~ (d == 0)%Q ->
  exists car,
    emitCar random pointDistance this (Some s) (Some seg) (Some distance) n = Ok (car, S n).
Proof.
  intros Hst Hpts Hd Hnz.
  pose proof (at_lt _ _ _ Hd) as Hseg.
  destruct (at_in_range (Street.points st) seg) as [pA HA]; [lia|].
  destruct (at_in_range (Street.points st) (seg + 1)) as [pB HB]; [lia|].
  unfold emitCar.
  rewrite (bind_Ok _ _ n n (Some s) eq_refl).
  rewrite (bind_lift _ _ _ s eq_refl).
  rewrite (bind_lift _ _ _ st) by (rewrite Hst; reflexivity).
  rewrite (bind_lift _ _ _ pA) by (rewrite HA; reflexivity).
  rewrite (bind_Ok _ _ _ _ _ (randomInteger_from_zero random _ n)).
  destruct (Z.geb_spec seg (len (Street.distance st))) as [Hge|_]; [lia|].
  erewrite bind_lift.
  2:{ apply (setPositionOnStreet_Ok _ st d pA pB); car_fields; assumption. }
  car_fields. rewrite Hst. unfold lift.
  erewrite (setDirectionOnStreet_in_segment _ st pA pB); [| car_fields; lia | | ];
    [| car_fields; assumption | car_fields; assumption].
  eexists. reflexivity.
Qed.

(** The loop that adds cars returns on a well-formed network, given enough fuel. *)
Lemma addCars_total (random : nat -> Q) (pointDistance : Point3d.t -> Point3d.t -> Q)
    (this : CarVisualization) (fuel : nat) :
  (forall m, (0 <= random m)%Q /\ (random m < 1)%Q) ->
  _streets this <> [] ->
  Forall streetWellFormed (_streets this) ->
  forall (numCars : Q) (cars : list CarParticle.t) (n : nat),
    (numCars <= inject_Z (Z.of_nat fuel))%Q ->
    exists numCars' cars' n',
      addCars random pointDistance fuel this numCars cars n = Ok ((numCars', cars'), n').
Proof.
  intros Hrandom Hne Hwf.
  assert (Hcount : 0 < len (_streets this)).
  { unfold len. destruct (_streets this); [contradiction | cbn [length]; lia]. }
  induction fuel as [|fuel IH]; intros numCars cars n Hfuel;
    cbn [addCars]; destruct (Qltb 0 numCars) eqn:E;
    try (eexists _, _, _; reflexivity).
  - apply Qltb_lt in E. change (inject_Z (Z.of_nat 0)) with 0%Q in Hfuel. lra.
  - destruct (Hrandom n) as [Hn0 Hn1]. destruct (Hrandom (S n)) as [Hs0 Hs1].
    destruct (at_in_range (_streets this) (Qfloor (random n * inject_Z (len (_streets this)))))
      as [st Hst]; [apply scaled_draw_in_range; assumption|].
    assert (Hstwf : streetWellFormed st).
    { apply at_Some in Hst. destruct Hst as [_ Hst].
      exact (proj1 (Forall_lookup _ _) Hwf _ _ Hst). }
    destruct Hstwf as (Hsegs & Hpts & Hnz).
    destruct (at_in_range (Street.distance st)
                (Qfloor (random (S n) * inject_Z (len (Street.distance st)))))
      as [d Hd]; [apply scaled_draw_in_range; assumption|].
    assert (Hdnz : ~ (d == 0)%Q).
    { apply at_Some in Hd. destruct Hd as [_ Hd].
      exact (proj1 (Forall_lookup _ _) Hnz _ _ Hd). }
    rewrite (bind_Ok _ _ _ _ _ (randomInteger_from_zero random _ n)).
    rewrite (bind_lift _ _ _ st) by (rewrite Hst; reflexivity).
    rewrite (bind_Ok _ _ _ _ _ (randomInteger_from_zero random _ (S n))).
    rewrite (bind_lift _ _ _ d) by (rewrite Hd; reflexivity).
    rewrite (bind_Ok _ _ (S (S n)) (S (S (S n))) (random (S (S n)) * (d - 0) + 0)%Q eq_refl).
    destruct (emitCar_on_segment random pointDistance this _ _
                (random (S (S n)) * (d - 0) + 0)%Q d (S (S (S n))) st Hst Hpts Hd Hdnz)
      as [car Hcar].
    rewrite (bind_Ok _ _ _ _ _ Hcar).
    apply IH.
    rewrite Nat2Z.inj_succ, <- Z.add_1_r, inject_Z_plus in Hfuel.
    change (inject_Z 1) with 1%Q in Hfuel. lra.
Qed.

Lemma removeCars_total (fuel : nat) :
  forall (numCars : Q) (cars : list CarParticle.t) (n : nat),
    (- numCars <= inject_Z (Z.of_nat fuel))%Q ->
    exists numCars' cars' n', removeCars fuel numCars cars n = Ok ((numCars', cars'), n').
Proof.
  induction fuel as [|fuel IH]; intros numCars cars n Hfuel;
    cbn [removeCars]; destruct (Qltb numCars 0) eqn:E;
    try (eexists _, _, _; reflexivity).
  - apply Qltb_lt in E. change (inject_Z (Z.of_nat 0)) with 0%Q in Hfuel. lra.
  - apply IH.
    rewrite Nat2Z.inj_succ, <- Z.add_1_r, inject_Z_plus in Hfuel.
    change (inject_Z 1) with 1%Q in Hfuel. lra.
Qed.

(** What the two reconciliation loops leave for a target ≥ 0: the first
    floor(target) particles, then newly spawned ones. *)
Lemma reconciled_shape (random : nat -> Q) (pointDistance : Point3d.t -> Point3d.t -> Q)
    (fuel : nat) (this : CarVisualization) (n n1 n2 : nat) (d1 d2 : Q)
    (cars1 cars2 : list CarParticle.t) :
  (0 <= _numCars this)%Q ->
  addCars random pointDistance fuel this
    (_numCars this - inject_Z (len (carParticles this)))%Q (carParticles this) n
  = Ok ((d1, cars1), n1) ->
  removeCars fuel d1 cars1 n1 = Ok ((d2, cars2), n2) ->
  n2 = n1 /\
  exists spawned : list CarParticle.t,
    cars2 = take (Z.to_nat (Qfloor (_numCars this))) (carParticles this) ++ spawned /\
    length cars2 = Z.to_nat (Qfloor (_numCars this)) /\
    ((inject_Z (len (carParticles this)) == _numCars this)%Q -> spawned = [] /\ n1 = n).
Proof.
  intros Htarget Hadd Hrem.
  destruct (addCars_spec _ _ _ _ _ _ _ _ _ _ Hadd) as (new & Hc1 & Hd1 & Hle1 & Hpos1 & Hnone1).
  destruct (removeCars_spec _ _ _ _ _ _ _ Hrem)
    as (Hn2 & k & Hc2 & Hd2 & Hge2 & Hlt2 & Hzero2).
  split; [exact Hn2|].
  set (t := _numCars this) in *. set (cars := carParticles this) in *.
  (* the floor of the target is the reconciled count *)
  assert (Hd2lt : (d2 < 1)%Q).
  { destruct (Qlt_le_dec d1 0) as [Hneg|Hnn]; [apply Hlt2; exact Hneg|].
    rewrite Hd2, (Hzero2 Hnn). change (inject_Z (Z.of_nat 0)) with 0%Q. lra. }
  assert (Hfloor : Qfloor t = len cars + len new - Z.of_nat k).
  { apply Qfloor_unique; unfold Zminus;
      rewrite ?inject_Z_plus, ?inject_Z_opp; unfold len in *; lra. }
  assert (Hnonneg : 0 <= Qfloor t).
  { rewrite <- (Qfloor_Z 0). apply Qfloor_resp_le. exact Htarget. }
  assert (Hlen2 : (length cars1 - k)%nat = Z.to_nat (Qfloor t)).
  { rewrite Hc1, length_app. unfold len in Hfloor. lia. }
  exists (take (Z.to_nat (Qfloor t) - length cars) new).
  split; [rewrite Hc2, Hlen2, Hc1; apply take_app|]. split.
  - rewrite Hc2, Hlen2, length_take, Hc1, length_app. unfold len in Hfloor. lia.
  - intros Heq.
    assert (Hd0 : (t - inject_Z (len cars) <= 0)%Q) by lra.
    destruct (Hnone1 Hd0) as [-> ->]. split; [|reflexivity]. apply take_nil.
Qed.

(** What the two reconciliation loops and the move loop of [updateParticles]
    leave, on a network with at least one street and a target ≥ 0. *)
Lemma updateParticles_reconciled
    (random : nat -> Q) (normalize : Vector2d.t -> option Vector2d.t)
    (pointDistance : Point3d.t -> Point3d.t -> Q)
    (fuel : nat) (this this' : CarVisualization) (elapsedSeconds : Q) (n n' : nat)
    (cars' : list CarParticle.t) :
  _streets this <> [] ->
  (0 <= _numCars this)%Q ->
  updateParticles random normalize pointDistance fuel this elapsedSeconds n
  = Ok ((cars', this'), n') ->
  this' = with_carParticles this cars' /\
  exists (spawned : list CarParticle.t) (n1 : nat),
    moveCars random normalize fuel this elapsedSeconds
      (take (Z.to_nat (Qfloor (_numCars this))) (carParticles this) ++ spawned) n1
    = Ok (cars', n') /\
    length (take (Z.to_nat (Qfloor (_numCars this))) (carParticles this) ++ spawned)
    = Z.to_nat (Qfloor (_numCars this)) /\
    ((inject_Z (len (carParticles this)) == _numCars this)%Q -> spawned = [] /\ n1 = n).
Proof.
  intros Hne Htarget H. unfold updateParticles in H.
  destruct (Z.eqb_spec (len (_streets this)) 0) as [Hz|_].
  { exfalso. apply Hne. unfold len in Hz. destruct (_streets this); [reflexivity|].
    cbn [length] in Hz. lia. }
  apply bind_inv in H. destruct H as ([d1 cars1] & n1 & Hadd & H).
  apply bind_inv in H. destruct H as ([d2 cars2] & n2 & Hrem & H).
  apply bind_inv in H. destruct H as (moved & n3 & Hmove & H).
  inversion H. subst cars' this' n'. split; [reflexivity|].
  destruct (reconciled_shape _ _ _ _ _ _ _ _ _ _ _ Htarget Hadd Hrem)
    as (-> & spawned & Hshape & Hlen & Hsame).
  exists spawned, n1. rewrite <- Hshape. split; [exact Hmove|]. split; assumption.
Qed.

(** C5, as stated, fails when the target is not a whole number: on the
    one-street network (capacity 9) the target for Low is 9/5; an update
    from no particles spawns two and removes one, leaving 1 particle. *)
Lemma fractional_target_not_reached :
  exists this1 car' this' n',
    changeDensity (Sample.oneStreet [] 0) Low = Ok this1 /\
    (_numCars this1 == 9 / 5)%Q /\
    updateParticles (Sample.draws []) Sample.noNormalize Sample.noDistance 3 this1 1 0%nat
    = Ok (([car'], this'), n') /\
    ~ (inject_Z (len [car']) == _numCars this1)%Q.
Proof.
  eexists _, _, _, _. split; [vm_compute; reflexivity|].
  split; [vm_compute; reflexivity|]. split; [vm_compute; reflexivity|].
  vm_compute. discriminate.
Qed.

(** On a well-formed network, with draws in [0,1) and enough fuel, the two
    reconciliation loops return, and the update is the move loop run on the
    reconciled collection. *)
Lemma updateParticles_reconciles_then_moves
    (random : nat -> Q) (normalize : Vector2d.t -> option Vector2d.t)
    (pointDistance : Point3d.t -> Point3d.t -> Q)
    (fuel : nat) (this : CarVisualization) (elapsedSeconds : Q) (n : nat) :
  _streets this <> [] ->
  (0 <= _numCars this)%Q ->
  (forall m, (0 <= random m)%Q /\ (random m < 1)%Q) ->
  Forall streetWellFormed (_streets this) ->
  (_numCars this - inject_Z (len (carParticles this)) <= inject_Z (Z.of_nat fuel))%Q ->
  (inject_Z (len (carParticles this)) - _numCars this <= inject_Z (Z.of_nat fuel))%Q ->
  (1 <= fuel)%nat ->
  exists (spawned : list CarParticle.t) (n1 : nat),
    length (take (Z.to_nat (Qfloor (_numCars this))) (carParticles this) ++ spawned)
    = Z.to_nat (Qfloor (_numCars this)) /\
    updateParticles random normalize pointDistance fuel this elapsedSeconds n
    = bind (moveCars random normalize fuel this elapsedSeconds
              (take (Z.to_nat (Qfloor (_numCars this))) (carParticles this) ++ spawned))
           (fun cars => ret (cars, with_carParticles this cars)) n1.
Proof.
  intros Hne Htarget Hrandom Hwf Hgrow Hshrink Hfuel.
  destruct (addCars_total random pointDistance this fuel Hrandom Hne Hwf
              (_numCars this - inject_Z (len (carParticles this)))%Q (carParticles this) n Hgrow)
    as (d1 & cars1 & n1 & Hadd).
  destruct (addCars_spec _ _ _ _ _ _ _ _ _ _ Hadd) as (new & _ & Hd1 & _ & Hpos1 & Hnone1).
  assert (Hd1fuel : (- d1 <= inject_Z (Z.of_nat fuel))%Q).
  { assert (H1 : (1 <= inject_Z (Z.of_nat fuel))%Q).
    { change 1%Q with (inject_Z 1). rewrite <- Zle_Qle. lia. }
    destruct (Qlt_le_dec 0 (_numCars this - inject_Z (len (carParticles this)))) as [Hpos|Hle].
    - specialize (Hpos1 Hpos). lra.
    - destruct (Hnone1 Hle) as [-> _]. rewrite Hd1.
      change (inject_Z (len (@nil CarParticle.t))) with 0%Q. lra. }
  destruct (removeCars_total fuel d1 cars1 n1 Hd1fuel) as (d2 & cars2 & n2 & Hrem).
  destruct (reconciled_shape _ _ _ _ _ _ _ _ _ _ _ Htarget Hadd Hrem)
    as (-> & spawned & Hshape & Hlen & _).
  exists spawned, n1. rewrite <- Hshape. split; [exact Hlen|].
  unfold updateParticles.
  destruct (Z.eqb_spec (len (_streets this)) 0) as [Hz|_].
  { exfalso. apply Hne. unfold len in Hz. destruct (_streets this); [reflexivity|].
    cbn [length] in Hz. lia. }
  rewrite (bind_Ok _ _ _ _ _ Hadd). rewrite (bind_Ok _ _ _ _ _ Hrem). reflexivity.
Qed.

(** C5, amended: on a network with at least one street and a target ≥ 0,
    after [updateParticles] returns, the number of active particles is the
    floor of the stored target (the target itself when it is a whole number);
    the particles moved are the first ones of the old collection, followed by
    newly spawned ones only when the old count was below that; when the count
    already equals the target nothing is spawned or removed; and a further
    update leaves the count unchanged.  On a well-formed network with enough
    fuel the reconciliation itself always returns, so the update returns
    whenever the move loop does. *)
Theorem updateParticles_count_is_floor_of_target
    (random : nat -> Q) (normalize : Vector2d.t -> option Vector2d.t)
    (pointDistance : Point3d.t -> Point3d.t -> Q)
    (fuel : nat) (this : CarVisualization) (elapsedSeconds : Q) :
  _streets this <> [] ->
  (0 <= _numCars this)%Q ->
  let target := Z.to_nat (Qfloor (_numCars this)) in
  (forall (n n' : nat) (cars' : list CarParticle.t) (this' : CarVisualization),
      updateParticles random normalize pointDistance fuel this elapsedSeconds n
      = Ok ((cars', this'), n') ->
      carParticles this' = cars' /\
      _numCars this' = _numCars this /\
      length cars' = target /\
      (forall z : Z, (_numCars this == inject_Z z)%Q -> len cars' = z) /\
      (exists spawned n1,
          moveCars random normalize fuel this elapsedSeconds
            (take target (carParticles this) ++ spawned) n1 = Ok (cars', n') /\
          ((target <= length (carParticles this))%nat -> spawned = [])) /\
      ((inject_Z (len (carParticles this)) == _numCars this)%Q ->
       moveCars random normalize fuel this elapsedSeconds (carParticles this) n
       = Ok (cars', n')) /\
      (forall fuel2 elapsed2 n2 cars'' this'' n'',
          updateParticles random normalize pointDistance fuel2 this' elapsed2 n2
          = Ok ((cars'', this''), n'') ->
          length cars'' = length cars')) /\
  ((forall m, (0 <= random m)%Q /\ (random m < 1)%Q) ->
   Forall streetWellFormed (_streets this) ->
   (_numCars this - inject_Z (len (carParticles this)) <= inject_Z (Z.of_nat fuel))%Q ->
   (inject_Z (len (carParticles this)) - _numCars this <= inject_Z (Z.of_nat fuel))%Q ->
   (1 <= fuel)%nat ->
   forall n : nat,
   exists (spawned : list CarParticle.t) (n1 : nat),
     length (take target (carParticles this) ++ spawned) = target /\
     updateParticles random normalize pointDistance fuel this elapsedSeconds n
     = bind (moveCars random normalize fuel this elapsedSeconds
               (take target (carParticles this) ++ spawned))
            (fun cars => ret (cars, with_carParticles this cars)) n1).
Proof.
  intros Hne Htarget target. split.
  - intros n n' cars' this' Hrun.
    destruct (updateParticles_reconciled _ _ _ _ _ _ _ _ _ _ Hne Htarget Hrun)
      as (Hthis & spawned & n1 & Hmove & Hlen & Hsame).
    fold target in Hmove, Hlen.
    assert (Hcount : length cars' = target).
    { rewrite (moveCars_length _ _ _ _ _ _ _ _ _ Hmove). exact Hlen. }
    assert (Hnonneg : 0 <= Qfloor (_numCars this)).
    { rewrite <- (Qfloor_Z 0). apply Qfloor_resp_le. exact Htarget. }
    subst this'. cbn [carParticles _numCars with_carParticles].
    split; [reflexivity|]. split; [reflexivity|]. split; [exact Hcount|]. split.
    { intros z Hz. unfold len. rewrite Hcount. unfold target.
      rewrite (Qfloor_comp _ _ Hz), Qfloor_Z in *. lia. }
    split.
    { exists spawned, n1. split; [exact Hmove|]. intros Hle.
      rewrite length_app, length_take in Hlen.
      destruct spawned; [reflexivity | cbn [length] in Hlen; lia]. }
    split.
    { intros Heq. destruct (Hsame Heq) as [-> ->]. rewrite app_nil_r in Hmove.
      rewrite take_ge in Hmove; [exact Hmove|].
      unfold target. rewrite <- (Qfloor_comp _ _ Heq), Qfloor_Z. unfold len. lia. }
    intros fuel2 elapsed2 n2 cars'' this'' n'' Hrun2.
    destruct (updateParticles_reconciled _ _ _ _ (with_carParticles this cars') _ _ _ _ _
                Hne Htarget Hrun2)
      as (_ & spawned2 & m1 & Hmove2 & Hlen2 & _).
    cbn [carParticles _numCars with_carParticles] in Hmove2, Hlen2.
    rewrite (moveCars_length _ _ _ _ _ _ _ _ _ Hmove2), Hlen2, Hcount. reflexivity.
  - intros Hrandom Hwf Hgrow Hshrink Hfuel n.
    apply updateParticles_reconciles_then_moves; assumption.
Qed.

Lemma updateParticles_count_is_floor_of_target_witness :
  exists cars' this' n',
    updateParticles (Sample.draws [0.5; 0.25]%Q) Sample.noNormalize Sample.noDistance 3
      (Sample.oneStreet [Sample.nearEnd; Sample.nearEnd; Sample.nearEnd] (3 / 2)) 1 0%nat
    = Ok ((cars', this'), n') /\
    length cars' = 1%nat.
Proof.
  destruct (updateParticles (Sample.draws [0.5; 0.25]%Q) Sample.noNormalize
              Sample.noDistance 3
              (Sample.oneStreet [Sample.nearEnd; Sample.nearEnd; Sample.nearEnd] (3 / 2))
              1 0%nat) as [[[cars' this'] n']|e] eqn:Hrun.
  - exists cars', this', n'. split; [reflexivity|].
    assert (H1 : _streets (Sample.oneStreet [Sample.nearEnd; Sample.nearEnd; Sample.nearEnd]
                             (3 / 2)) <> []) by discriminate.
    assert (H2 : (0 <= _numCars (Sample.oneStreet
                                   [Sample.nearEnd; Sample.nearEnd; Sample.nearEnd] (3 / 2)))%Q)
      by (vm_compute; discriminate).
    destruct (updateParticles_count_is_floor_of_target (Sample.draws [0.5; 0.25]%Q)
                Sample.noNormalize Sample.noDistance 3 _ 1 H1 H2) as [Hreturned _].
    destruct (Hreturned _ _ _ _ Hrun) as (_ & _ & Hlen & _).
    exact Hlen.
  - exfalso. vm_compute in Hrun. discriminate Hrun.
Defined.

(** ** Leaving the network (C2) *)

(** At any pass of the loop of [moveCar], a particle that is not waiting,
    on a street whose end leads out of the network, and whose travelled
    distance reaches the remaining length of the street, is respawned in that
    pass, which ends the call. *)
Lemma moveCarLoop_respawns_at_network_edge
    (random : nat -> Q) (fuel : nat) (this : CarVisualization) (car : CarParticle.t)
    (timeLeft elapsedSeconds : Q) (n : nat) (st : Street.t) :
  CarParticle.intersection car = -1 ->
  (CarParticle.waiting car <= 0)%Q ->
  at_ (_streets this) (CarParticle.street car) = Some st ->
  leavesNetwork this st ->
  (0 <= CarParticle.speed car)%Q ->
  (0 < Street.speed st)%Q ->
  (0 < timeLeft)%Q ->
  0 <= CarParticle.segment car < len (Street.distance st) ->
  len (Street.points st) = len (Street.distance st) + 1 ->
  Forall (fun d => (0 <= d)%Q) (Street.distance st) ->
  (0 <= CarParticle.segmentDist car)%Q ->
  (sumQ (drop (Z.to_nat (CarParticle.segment car)) (Street.distance st))
   <= CarParticle.segmentDist car
      + timeLeft * adjustSpeed (CarParticle.speed car) (Street.speed st) timeLeft)%Q ->
  (0 <= random n)%Q -> (random n < 1)%Q ->
  entriesWellFormed this ->
  exists car',
    moveCarLoop random (S fuel) this car timeLeft elapsedSeconds n = Ok (car', S (S n)) /\
    respawned this car'.
Proof.
  intros Hi Hw Hst Hedge Hv Hlimit Ht Hseg Hpts Hnn Hsd Hreach Hr0 Hr1 Hentries.
  (* the heading is refreshed first when the car stands still *)
  assert (Hdir : exists car0,
             (if Qeq_bool 0 (CarParticle.speed car)
              then lift (setDirectionOnStreet car (Some st)) else ret car) n = Ok (car0, n) /\
             CarParticle.speed car0 = CarParticle.speed car /\
             CarParticle.segment car0 = CarParticle.segment car /\
             CarParticle.segmentDist car0 = CarParticle.segmentDist car).
  { destruct (Qeq_bool 0 (CarParticle.speed car)).
    - destruct (at_in_range (Street.points st) (CarParticle.segment car)) as [pA HA]; [lia|].
      destruct (at_in_range (Street.points st) (CarParticle.segment car + 1)) as [pB HB]; [lia|].
      rewrite (setDirectionOnStreet_in_segment car st pA pB) by (try assumption; lia).
      eexists. split; [reflexivity|]. car_fields. repeat split.
    - exists car. repeat split. }
  destruct Hdir as (car0 & Hdir & Hv0 & Hseg0 & Hsd0).
  assert (Hroute0 : CarParticle.street car0 = CarParticle.street car /\
                    CarParticle.intersection car0 = CarParticle.intersection car).
  { destruct (Qeq_bool 0 (CarParticle.speed car)).
    - unfold lift in Hdir.
      destruct (setDirectionOnStreet car (Some st)) as [c|] eqn:E; [|discriminate].
      destruct (setDirectionOnStreet_route _ _ _ E) as [v ->].
      inversion Hdir. car_fields. split; reflexivity.
    - inversion Hdir. split; reflexivity. }
  destruct Hroute0 as [Hstreet0 Hint0].
  pose proof (moveCarOnStreet_reaches_end car0 st timeLeft) as Hout.
  rewrite Hv0, Hseg0, Hsd0 in Hout.
  destruct (Hout Hv Hlimit Ht Hseg Hpts Hnn Hreach) as (car1 & left & Hmove & Hleft & _).
  destruct (moveCarOnStreet_route _ _ _ _ _ Hmove) as (Hstreet1 & Hint1 & _).
  destruct (restartCar_respawns random this car1 n Hr0 Hr1 Hentries) as (car' & Hrestart & Hres).
  exists car'. split; [|exact Hres].
  cbn [moveCarLoop].
  assert (Et : Qltb 0 timeLeft = true) by (apply Qltb_lt; exact Ht).
  rewrite Et.
  assert (Hbody : moveCarBody random this car timeLeft elapsedSeconds n
                  = Ok (Return car', S (S n))).
  { unfold moveCarBody.
    assert (Ew : Qltb 0 (CarParticle.waiting car) = false) by (apply Qltb_ge; exact Hw).
    rewrite Ew, Hi. cbn [Z.eqb Pos.eqb]. rewrite Hst.
    rewrite (bind_Ok _ _ _ _ _ Hdir).
    rewrite (bind_lift _ _ _ (car1, left) Hmove).
    assert (El : Qltb left 0 = false) by (apply Qltb_ge; exact Hleft).
    rewrite El, Hint1, Hint0, Hi. cbn [Z.geb Z.compare].
    rewrite Hstreet1, Hstreet0.
    rewrite (bind_lift _ _ _ st) by (rewrite Hst; reflexivity).
    assert (Eedge :
      (Street.inTo st <? 0)
      || (match _intersections this !! Street.inTo st with
          | Some i => len (Intersection.streetsOut i)
          | None => 0
          end =? 0) = true).
    { destruct Hedge as [Hneg | Hnone].
      - apply Z.ltb_lt in Hneg. rewrite Hneg. reflexivity.
      - destruct (_intersections this !! Street.inTo st) as [i|].
        + rewrite (Hnone i eq_refl). apply orb_true_r.
        + apply orb_true_r. }
    rewrite Eedge.
    rewrite (bind_Ok _ _ _ _ _ Hrestart). reflexivity. }
  rewrite (bind_Ok _ _ _ _ _ Hbody). reflexivity.
Qed.

Lemma setRotationMatrix_respawned (normalize : Vector2d.t -> option Vector2d.t)
    (this : CarVisualization) (car : CarParticle.t) :
  respawned this car -> respawned this (setRotationMatrix normalize car).
Proof.
  intros H. unfold setRotationMatrix.
  destruct (CarParticle.direction car) as [direction|]; [|exact H].
  destruct (normalize direction) as [d|]; [|exact H].
  exact H.
Qed.

(** C2: a particle that is not waiting, is on a street whose end leads out
    of the network ([inTo] negative, or an intersection without outbound
    streets) and whose travelled distance reaches the remaining length of the
    street is respawned by the [moveCar] call of the update: the call returns
    the particle on the first point of an entry street with speed 0, segment
    0, segmentDist 0, waiting 0 and intersection -1; and in every update that
    returns, such a particle kept in the collection is found respawned at its
    place in the collection. *)
Theorem updateParticles_respawns_at_network_edge
    (random : nat -> Q) (normalize : Vector2d.t -> option Vector2d.t)
    (pointDistance : Point3d.t -> Point3d.t -> Q)
    (this : CarVisualization) (elapsedSeconds : Q)
    (car : CarParticle.t) (st : Street.t) :
  CarParticle.intersection car = -1 ->
  (CarParticle.waiting car <= 0)%Q ->
  at_ (_streets this) (CarParticle.street car) = Some st ->
  leavesNetwork this st ->
  (0 <= CarParticle.speed car)%Q ->
  (0 < Street.speed st)%Q ->
  (0 < elapsedSeconds)%Q ->
  0 <= CarParticle.segment car < len (Street.distance st) ->
  len (Street.points st) = len (Street.distance st) + 1 ->
  Forall (fun d => (0 <= d)%Q) (Street.distance st) ->
  (0 <= CarParticle.segmentDist car)%Q ->
  (sumQ (drop (Z.to_nat (CarParticle.segment car)) (Street.distance st))
   <= CarParticle.segmentDist car
      + elapsedSeconds
        * adjustSpeed (CarParticle.speed car) (Street.speed st) elapsedSeconds)%Q ->
  (forall m, (0 <= random m)%Q /\ (random m < 1)%Q) ->
  entriesWellFormed this ->
  (forall (fuel m : nat),
      exists car',
        moveCar random (S fuel) this car elapsedSeconds m = Ok (car', S (S m)) /\
        respawned this car') /\
  (forall (fuel n n' i : nat) (cars' : list CarParticle.t) (this' : CarVisualization),
      _streets this <> [] ->
      (0 <= _numCars this)%Q ->
      carParticles this !! i = Some car ->
      (i < Z.to_nat (Qfloor (_numCars this)))%nat ->
      updateParticles random normalize pointDistance fuel this elapsedSeconds n
      = Ok ((cars', this'), n') ->
      exists car', cars' !! i = Some car' /\ respawned this car').
Proof.
  intros Hi Hw Hst Hedge Hv Hlimit Ht Hseg Hpts Hnn Hsd Hreach Hrandom Hentries.
  assert (Hcall : forall (fuel m : nat),
             exists car',
               moveCar random (S fuel) this car elapsedSeconds m = Ok (car', S (S m)) /\
               respawned this car').
  { intros fuel m. destruct (Hrandom m) as [Hr0 Hr1]. unfold moveCar.
    exact (moveCarLoop_respawns_at_network_edge random fuel this car elapsedSeconds
             elapsedSeconds m st Hi Hw Hst Hedge Hv Hlimit Ht Hseg Hpts Hnn Hsd Hreach
             Hr0 Hr1 Hentries). }
  split; [exact Hcall|].
  intros fuel n n' i cars' this' Hne Htarget Hcar Hkept Hrun.
  destruct (updateParticles_reconciled _ _ _ _ _ _ _ _ _ _ Hne Htarget Hrun)
    as (_ & spawned & n1 & Hmove & _ & _).
  assert (Hlookup :
    (take (Z.to_nat (Qfloor (_numCars this))) (carParticles this) ++ spawned) !! i = Some car).
  { pose proof (lookup_lt_Some _ _ _ Hcar) as Hlt.
    rewrite lookup_app_l by (rewrite length_take; lia).
    rewrite lookup_take_lt by exact Hkept. exact Hcar. }
  destruct (moveCars_lookup _ _ _ _ _ _ _ _ _ _ _ Hmove Hlookup)
    as (m1 & m2 & moved & Hmoved & Hnew).
  exists (setRotationMatrix normalize moved). split; [exact Hnew|].
  apply setRotationMatrix_respawned.
  destruct fuel as [|fuel].
  - exfalso. unfold moveCar in Hmoved. cbn [moveCarLoop] in Hmoved.
    assert (Et : Qltb 0 elapsedSeconds = true) by (apply Qltb_lt; exact Ht).
    rewrite Et in Hmoved. discriminate Hmoved.
  - destruct (Hcall fuel m1) as (car' & Hloop & Hres).
    rewrite Hloop in Hmoved. inversion Hmoved. subst moved. exact Hres.
Qed.

Lemma updateParticles_respawns_at_network_edge_witness :
  let random := Sample.draws [0.5; 0.25]%Q in
  let this := Sample.oneStreet [Sample.nearEnd] 1 in
  (exists car',
      moveCar random 1 this Sample.nearEnd 1 0%nat = Ok (car', 2%nat) /\
      respawned this car') /\
  (exists cars' this' n' car',
      updateParticles random Sample.noNormalize Sample.noDistance 1 this 1 0%nat
      = Ok ((cars', this'), n') /\
      cars' !! 0%nat = Some car' /\ respawned this car').
Proof.
  cbv zeta.
  destruct (updateParticles_respawns_at_network_edge
              (Sample.draws [0.5; 0.25]%Q) Sample.noNormalize Sample.noDistance
              (Sample.oneStreet [Sample.nearEnd] 1) 1 Sample.nearEnd Sample.deadEnd)
    as [Hcall Hupdate].
  - reflexivity.
  - vm_compute. discriminate.
  - reflexivity.
  - left. reflexivity.
  - vm_compute. discriminate.
  - reflexivity.
  - reflexivity.
  - vm_compute. split; [discriminate | reflexivity].
  - reflexivity.
  - repeat constructor. vm_compute. discriminate.
  - vm_compute. discriminate.
  - vm_compute. discriminate.
  - apply draws_in_range. repeat constructor; vm_compute; discriminate.
  - split; [discriminate|].
    intros s [<- | []]. exists Sample.deadEnd.
    split; [reflexivity | vm_compute; discriminate].
  - split; [exact (Hcall 0%nat 0%nat)|].
    destruct (updateParticles (Sample.draws [0.5; 0.25]%Q) Sample.noNormalize
                Sample.noDistance 1 (Sample.oneStreet [Sample.nearEnd] 1) 1 0%nat)
      as [[[cars' this'] n']|e] eqn:Hrun.
    + destruct (Hupdate 1%nat 0%nat n' 0%nat cars' this') as (car' & Hcar' & Hres).
      * discriminate.
      * vm_compute. discriminate.
      * reflexivity.
      * vm_compute. lia.
      * exact Hrun.
      * exists cars', this', n', car'. split; [reflexivity|]. split; assumption.
    + exfalso. vm_compute in Hrun. discriminate Hrun.
Defined.

(** The scenario of C2 through a whole update: one street of length 100 with
    one segment, edge sentinel, speed limit 10, a particle at segmentDist 95
    with speed 10; after [updateParticles 1] the only particle stands at the
    street's origin with speed 0. *)
Example update_respawns_scenario :
  exists car' this',
    updateParticles (Sample.draws [0.5; 0.25]%Q) Sample.noNormalize Sample.noDistance 1
      (Sample.oneStreet [Sample.nearEnd] 1) 1 0%nat = Ok (([car'], this'), 2%nat) /\
    carParticles this' = [car'] /\
    CarParticle.x car' = 0%Q /\ CarParticle.y car' = 0%Q /\ CarParticle.z car' = 0%Q /\
    CarParticle.speed car' = 0%Q /\ CarParticle.street car' = 0 /\
    CarParticle.segment car' = 0 /\ CarParticle.segmentDist car' = 0%Q /\
    CarParticle.waiting car' = 0%Q /\ CarParticle.intersection car' = -1.
Proof.
  eexists _, _. split; [vm_compute; reflexivity|]. repeat split.
Qed.

(** * Further properties of the code *)

(** ** Choice of the next street *)

Lemma getNextStreetLoop_weighted (probabilities : list Q) :
  forall (outs before : list Z) (r r' : Q),
    length probabilities = length outs ->
    (r' == r)%Q ->
    getNextStreetLoop probabilities (len before) r' (before ++ outs)
    = Some (default (-1) (weightedPick_spec probabilities outs r)).
Proof.
  induction probabilities as [|p probabilities IH]; intros outs before r r' Hlen Hr;
    destruct outs as [|o outs]; try discriminate Hlen.
  - reflexivity.
  - cbn [getNextStreetLoop weightedPick_spec].
    rewrite (Qltb_comp r' r p p Hr (Qeq_refl p)).
    destruct (Qltb r p).
    + cbn [default]. unfold at_, len.
      destruct (Z.ltb_spec (Z.of_nat (length before)) 0) as [Hneg|_]; [lia|].
      rewrite Nat2Z.id. rewrite lookup_app_r by lia.
      rewrite Nat.sub_diag. reflexivity.
    + replace (len before + 1) with (len (before ++ [o]))
        by (unfold len; rewrite length_app; cbn [length]; lia).
      replace (before ++ o :: outs) with ((before ++ [o]) ++ outs)
        by (rewrite <- app_assoc; reflexivity).
      apply IH; [cbn [length] in Hlen; lia | exact Hr].
Qed.

(** X1: [getNextStreet] draws one number r and answers the outbound street
    aligned with the first cumulative probability of the inbound street that
    exceeds r, and -1 when none does; for an inbound street without an entry
    in [inOutProbabilities] it answers -1 without drawing. *)
Theorem getNextStreet_first_bucket
    (random : nat -> Q) (intersection : Intersection.t) (streetIn : Z) (n : nat) :
  (forall probabilities,
      Intersection.inOutProbabilities intersection !! streetIn = Some probabilities ->
      length probabilities = length (Intersection.streetsOut intersection) ->
      getNextStreet random intersection streetIn n
      = Ok (Some (default (-1)
                    (weightedPick_spec probabilities
                       (Intersection.streetsOut intersection) (random n))),
            S n)) /\
  (Intersection.inOutProbabilities intersection !! streetIn = None ->
   getNextStreet random intersection streetIn n = Ok (Some (-1), n)).
Proof.
  split.
  - intros probabilities Hp Hlen. unfold getNextStreet. rewrite Hp.
    unfold bind, randomFloat, bind, Math_random, ret.
    pose proof (getNextStreetLoop_weighted probabilities
                  (Intersection.streetsOut intersection) [] (random n)
                  (random n * (1 - 0) + 0)%Q Hlen) as Hloop.
    change (len (@nil Z)) with 0 in Hloop. cbn [app] in Hloop.
    rewrite Hloop; [reflexivity | ring].
  - intros Hp. unfold getNextStreet. rewrite Hp. reflexivity.
Qed.

Lemma getNextStreet_first_bucket_witness :
  getNextStreet (Sample.draws [0.3]%Q) Sample.crossing 2 0%nat = Ok (Some 0, 1%nat) /\
  getNextStreet (Sample.draws [0.7]%Q) Sample.crossing 2 0%nat = Ok (Some 1, 1%nat) /\
  getNextStreet (Sample.draws [0.7]%Q) Sample.crossing 0 0%nat = Ok (Some (-1), 0%nat).
Proof.
  destruct (getNextStreet_first_bucket (Sample.draws [0.3]%Q) Sample.crossing 2 0%nat)
    as [Hlow _].
  destruct (getNextStreet_first_bucket (Sample.draws [0.7]%Q) Sample.crossing 2 0%nat)
    as [Hhigh _].
  destruct (getNextStreet_first_bucket (Sample.draws [0.7]%Q) Sample.crossing 0 0%nat)
    as [_ Hnone].
  split; [|split].
  - rewrite (Hlow [0.5; 1]%Q); reflexivity.
  - rewrite (Hhigh [0.5; 1]%Q); reflexivity.
  - apply Hnone. reflexivity.
Defined.

(** ** Emitting and restarting cars *)

(** [emitCar] on a given segment of non-zero length. *)
Lemma emitCar_result
    (random : nat -> Q) (pointDistance : Point3d.t -> Point3d.t -> Q)
    (this : CarVisualization) (s seg : Z) (distance d : Q) (n : nat)
    (st : Street.t) (pA pB : Point3d.t) :
  at_ (_streets this) s = Some st ->
  at_ (Street.distance st) seg = Some d ->
  ~ (d == 0)%Q ->
  at_ (Street.points st) seg = Some pA ->
  at_ (Street.points st) (seg + 1) = Some pB ->
  emitCar random pointDistance this (Some s) (Some seg) (Some distance) n
  = Ok (CarParticle.mk
          (Point3d.x pA + (Point3d.x pB - Point3d.x pA) * (distance / d))%Q
          (Point3d.y pA + (Point3d.y pB - Point3d.y pA) * (distance / d))%Q
          (Point3d.z pA + (Point3d.z pB - Point3d.z pA) * (distance / d))%Q
          0 s seg distance 0 (-1)
          (Qfloor (random n * inject_Z (_numTypes this)))
          (Some (Vector2d.create (Point3d.x pB - Point3d.x pA)
                                 (- (Point3d.y pB - Point3d.y pA)))%Q)
          None,
        S n).
Proof.
  intros Hst Hd Hnz HA HB.
  pose proof (at_lt _ _ _ Hd) as Hseg. pose proof (at_lt _ _ _ HB) as Hpts.
  unfold emitCar.
  rewrite (bind_Ok _ _ n n (Some s) eq_refl).
  rewrite (bind_lift _ _ _ s eq_refl).
  rewrite (bind_lift _ _ _ st) by (rewrite Hst; reflexivity).
  rewrite (bind_lift _ _ _ pA) by (rewrite HA; reflexivity).
  rewrite (bind_Ok _ _ _ _ _ (randomInteger_from_zero random _ n)).
  destruct (Z.geb_spec seg (len (Street.distance st))) as [Hge|_]; [lia|].
  erewrite bind_lift.
  2:{ apply (setPositionOnStreet_Ok _ st d pA pB); car_fields; assumption. }
  car_fields. rewrite Hst. unfold lift.
  erewrite (setDirectionOnStreet_in_segment _ st pA pB); [reflexivity | | | ];
    car_fields; try assumption; lia.
Qed.

(** X2: [emitCar] with a street, a segment of that street whose length is
    not 0 and a distance returns a car at rest on that segment: the position
    is interpolated at the distance along the segment, speed and waiting are
    0, the car is outside any intersection, the variant is
    floor(r × numTypes) for the one draw r, the heading is the segment's and
    no rotation is set yet. *)
Theorem emitCar_places_car
    (random : nat -> Q) (pointDistance : Point3d.t -> Point3d.t -> Q)
    (this : CarVisualization) (s seg : Z) (distance d : Q) (n : nat)
    (st : Street.t) (pA pB : Point3d.t) :
  at_ (_streets this) s = Some st ->
  at_ (Street.distance st) seg = Some d ->
  ~ (d == 0)%Q ->
  at_ (Street.points st) seg = Some pA ->
  at_ (Street.points st) (seg + 1) = Some pB ->
  emitCar random pointDistance this (Some s) (Some seg) (Some distance) n
  = Ok (CarParticle.mk
          (Point3d.x pA + (Point3d.x pB - Point3d.x pA) * (distance / d))%Q
          (Point3d.y pA + (Point3d.y pB - Point3d.y pA) * (distance / d))%Q
          (Point3d.z pA + (Point3d.z pB - Point3d.z pA) * (distance / d))%Q
          0 s seg distance 0 (-1)
          (Qfloor (random n * inject_Z (_numTypes this)))
          (Some (Vector2d.create (Point3d.x pB - Point3d.x pA)
                                 (- (Point3d.y pB - Point3d.y pA)))%Q)
          None,
        S n).
Proof.
  apply emitCar_result.
Qed.

Lemma emitCar_places_car_witness :
  emitCar (Sample.draws [0.5]%Q) Sample.noDistance (Sample.oneStreet [] 1)
    (Some 0) (Some 0) (Some 25%Q) 0%nat
  = Ok (CarParticle.mk (0 + (100 - 0) * (25 / 100))%Q (0 + (0 - 0) * (25 / 100))%Q
          (0 + (0 - 0) * (25 / 100))%Q 0 0 0 25 0 (-1) 4
          (Some (Vector2d.create (100 - 0) (- (0 - 0)))%Q) None,
        1%nat).
Proof.
  apply (emitCar_places_car (Sample.draws [0.5]%Q) Sample.noDistance
           (Sample.oneStreet [] 1) 0 0 25 100 0%nat Sample.deadEnd
           (Sample.P 0 0 0) (Sample.P 100 0 0)).
  - reflexivity.
  - reflexivity.
  - vm_compute. discriminate.
  - reflexivity.
  - reflexivity.
Defined.

(** X3: on a street with one more point than segments, [emitCar] with a
    segment index at or past the number of segments does not clamp the car to
    the last segment: it stops with a TypeError (it reads the point after the
    requested segment's end, which does not exist). *)
Theorem emitCar_segment_past_end_faults
    (random : nat -> Q) (pointDistance : Point3d.t -> Point3d.t -> Q)
    (this : CarVisualization) (s seg : Z) (distance : option Q) (n : nat) (st : Street.t) :
  at_ (_streets this) s = Some st ->
  len (Street.points st) = len (Street.distance st) + 1 ->
  len (Street.distance st) <= seg ->
  emitCar random pointDistance this (Some s) (Some seg) distance n = Err TypeError.
Proof.
  intros Hst Hpts Hseg. unfold emitCar.
  rewrite (bind_Ok _ _ n n (Some s) eq_refl).
  rewrite (bind_lift _ _ _ s eq_refl).
  rewrite (bind_lift _ _ _ st) by (rewrite Hst; reflexivity).
  destruct (at_ (Street.points st) seg) as [p|] eqn:Hp.
  - pose proof (at_lt _ _ _ Hp) as Hrange.
    rewrite (bind_lift _ _ _ p eq_refl).
    rewrite (bind_Ok _ _ _ _ _ (randomInteger_from_zero random _ n)).
    destruct (Z.geb_spec seg (len (Street.distance st))) as [_|Hlt]; [|lia].
    destruct (at_ (Street.points st) (seg + 1)) as [p1|] eqn:Hp1.
    + pose proof (at_lt _ _ _ Hp1). lia.
    + apply bind_Err. apply bind_Err. reflexivity.
  - apply bind_Err. reflexivity.
Qed.

Lemma emitCar_segment_past_end_faults_witness :
  emitCar (Sample.draws [0.5]%Q) Sample.noDistance (Sample.oneStreet [] 1)
    (Some 0) (Some 1) None 0%nat = Err TypeError.
Proof.
  apply (emitCar_segment_past_end_faults (Sample.draws [0.5]%Q) Sample.noDistance
           (Sample.oneStreet [] 1) 0 1 None 0%nat Sample.deadEnd).
  - reflexivity.
  - reflexivity.
  - vm_compute. discriminate.
Defined.

Lemma emitCarLoop_last_wins (probabilities : list Q) :
  forall (indices before : list Z) (probability : Q) (street : option Z)
         (pLast : Q) (sLast : Z),
    length probabilities = length indices ->
    last probabilities = Some pLast ->
    last indices = Some sLast ->
    (probability < pLast)%Q ->
    emitCarLoop probabilities (len before) (before ++ indices) probability street
    = Some sLast.
Proof.
  induction probabilities as [|p probabilities IH];
    intros indices before probability street pLast sLast Hlen Hp Hs Hlt;
    destruct indices as [|i indices]; try discriminate.
  cbn [emitCarLoop].
  destruct probabilities as [|p' probabilities].
  - destruct indices; [|discriminate Hlen].
    cbn [last] in Hp, Hs. inversion Hp. inversion Hs. subst.
    cbn [emitCarLoop]. apply Qltb_lt in Hlt. rewrite Hlt.
    unfold at_, len.
    destruct (Z.ltb_spec (Z.of_nat (length before)) 0) as [Hneg|_]; [lia|].
    rewrite Nat2Z.id, lookup_app_r by lia. rewrite Nat.sub_diag. reflexivity.
  - destruct indices as [|i' indices]; [discriminate Hlen|].
    replace (len before + 1) with (len (before ++ [i]))
      by (unfold len; rewrite length_app; cbn [length]; lia).
    replace (before ++ i :: i' :: indices) with ((before ++ [i]) ++ i' :: indices)
      by (rewrite <- app_assoc; reflexivity).
    apply (IH (i' :: indices) (before ++ [i]) probability _ pLast sLast).
    + cbn [length] in *. lia.
    + exact Hp.
    + exact Hs.
    + exact Hlt.
Qed.

(** X4: [emitCar] without a street draws an index and a probability, but
    its loop over the start probabilities has no [break]: whenever the last
    start probability exceeds the drawn probability (as it does for
    cumulative probabilities that end at 1), the car is emitted on the last
    entry street, whatever the two draws and the other probabilities are. *)
Theorem emitCar_random_street_is_last_entry
    (random : nat -> Q) (pointDistance : Point3d.t -> Point3d.t -> Q)
    (this : CarVisualization) (segment : option Z) (distance : option Q) (n : nat)
    (pLast : Q) (sLast : Z) :
  length (_startStreetProbabilities this) = length (_startStreetIndices this) ->
  last (_startStreetProbabilities this) = Some pLast ->
  last (_startStreetIndices this) = Some sLast ->
  (random (S n) < pLast)%Q ->
  emitCar random pointDistance this None segment distance n
  = emitCar random pointDistance this (Some sLast) segment distance (S (S n)).
Proof.
  intros Hlen Hp Hs Hlt.
  pose proof (emitCarLoop_last_wins (_startStreetProbabilities this)
                (_startStreetIndices this) [] (random (S n) * (1 - 0) + 0)%Q
                (at_ (_startStreetIndices this)
                     (Qfloor (random n * inject_Z (len (_startStreetIndices this)))))
                pLast sLast Hlen Hp Hs) as Hloop.
  change (len (@nil Z)) with 0 in Hloop. cbn [app] in Hloop.
  assert (Hlt' : (random (S n) * (1 - 0) + 0 < pLast)%Q) by lra.
  specialize (Hloop Hlt').
  unfold emitCar at 1.
  erewrite (bind_Ok _ _ n (S (S n)) (Some sLast)).
  - unfold emitCar. rewrite (bind_Ok _ _ (S (S n)) (S (S n)) (Some sLast) eq_refl).
    reflexivity.
  - rewrite (bind_Ok _ _ _ _ _ (randomInteger_from_zero random _ n)).
    unfold bind, randomFloat, bind, Math_random, ret. rewrite Hloop. reflexivity.
Qed.

Lemma emitCar_random_street_is_last_entry_witness :
  emitCar (Sample.draws [0.1; 0.2; 0.5]%Q) Sample.noDistance Sample.twoEntries
    None None None 0%nat
  = emitCar (Sample.draws [0.1; 0.2; 0.5]%Q) Sample.noDistance Sample.twoEntries
      (Some 1) None None 2%nat.
Proof.
  apply (emitCar_random_street_is_last_entry (Sample.draws [0.1; 0.2; 0.5]%Q)
           Sample.noDistance Sample.twoEntries None None 0%nat 1 1).
  - reflexivity.
  - reflexivity.
  - reflexivity.
  - reflexivity.
Defined.

(** X5: [restartCar] stops with a TypeError when there is no entry street,
    when the chosen entry index is not a street of the network, and when the
    chosen entry street has fewer than two points. *)
Theorem restartCar_faults
    (random : nat -> Q) (this : CarVisualization) (car : CarParticle.t) (n : nat) :
  (_startStreetIndices this = [] ->
   restartCar random this car n = Err TypeError) /\
  (forall s,
      at_ (_startStreetIndices this)
          (Qfloor (random n * inject_Z (len (_startStreetIndices this)))) = Some s ->
      at_ (_streets this) s = None ->
      restartCar random this car n = Err TypeError) /\
  (forall s st,
      at_ (_startStreetIndices this)
          (Qfloor (random n * inject_Z (len (_startStreetIndices this)))) = Some s ->
      at_ (_streets this) s = Some st ->
      len (Street.points st) < 2 ->
      restartCar random this car n = Err TypeError).
Proof.
  split; [|split].
  - intros Hnone. unfold restartCar.
    rewrite (bind_Ok _ _ _ _ _ (randomInteger_from_zero random _ n)).
    rewrite Hnone. apply bind_Err. unfold at_.
    destruct (_ <? 0); reflexivity.
  - intros s Hs Hst. unfold restartCar.
    rewrite (bind_Ok _ _ _ _ _ (randomInteger_from_zero random _ n)).
    rewrite (bind_lift _ _ _ s) by (rewrite Hs; reflexivity).
    apply bind_Err. rewrite Hst. reflexivity.
  - intros s st Hs Hst Hlen. unfold restartCar.
    rewrite (bind_Ok _ _ _ _ _ (randomInteger_from_zero random _ n)).
    rewrite (bind_lift _ _ _ s) by (rewrite Hs; reflexivity).
    rewrite (bind_lift _ _ _ st) by (rewrite Hst; reflexivity).
    destruct (Street.points st) as [|p0 [|p1 rest]] eqn:Hp.
    + apply bind_Err. reflexivity.
    + rewrite (bind_lift _ _ _ p0) by reflexivity.
      rewrite (bind_Ok _ _ _ _ _ (randomInteger_from_zero random _ (S n))).
      car_fields. rewrite Hst. unfold lift, setDirectionOnStreet.
      cbn [defined rbind]. rewrite Hp. reflexivity.
    + unfold len in Hlen. cbn [length] in Hlen. lia.
Qed.

Lemma restartCar_faults_witness :
  restartCar (Sample.draws [0.5]%Q)
    (mkCarVisualization [] [Sample.deadEnd] ∅ [] [] 1 10 9000 (Point2d.create 1 1) 9)
    Sample.nearEnd 0%nat = Err TypeError /\
  restartCar (Sample.draws [0.5]%Q)
    (mkCarVisualization [] [Sample.deadEnd] ∅ [3] [1%Q] 1 10 9000 (Point2d.create 1 1) 9)
    Sample.nearEnd 0%nat = Err TypeError /\
  restartCar (Sample.draws [0.5]%Q)
    (mkCarVisualization [] [Street.mk [Sample.P 0 0 0] [] 0 10 (-1)] ∅ [0] [1%Q] 1 10 9000
       (Point2d.create 1 1) 9)
    Sample.nearEnd 0%nat = Err TypeError.
Proof.
  split; [|split].
  - apply (restartCar_faults (Sample.draws [0.5]%Q)
             (mkCarVisualization [] [Sample.deadEnd] ∅ [] [] 1 10 9000
                (Point2d.create 1 1) 9) Sample.nearEnd 0%nat).
    reflexivity.
  - apply (proj1 (proj2 (restartCar_faults (Sample.draws [0.5]%Q)
             (mkCarVisualization [] [Sample.deadEnd] ∅ [3] [1%Q] 1 10 9000
                (Point2d.create 1 1) 9) Sample.nearEnd 0%nat)) 3); reflexivity.
  - apply (proj2 (proj2 (restartCar_faults (Sample.draws [0.5]%Q)
             (mkCarVisualization [] [Street.mk [Sample.P 0 0 0] [] 0 10 (-1)] ∅ [0] [1%Q]
                1 10 9000 (Point2d.create 1 1) 9) Sample.nearEnd 0%nat))
             0 (Street.mk [Sample.P 0 0 0] [] 0 10 (-1))); reflexivity.
Defined.

(** ** Moving a car *)

(** X6: [moveCarOnStreet] changes only the position, the speed, the
    segment, [segmentDist] and the heading of a car; and for an elapsed time
    ≥ 0 the new speed lies between the old speed and the street's speed
    limit: it moves towards the limit by at most 10 per second and never
    passes it. *)
Theorem moveCarOnStreet_frame_and_speed
    (car car' : CarParticle.t) (street : Street.t) (elapsedSeconds timeLeft : Q) :
  moveCarOnStreet car street elapsedSeconds = Ok (car', timeLeft) ->
  (0 <= elapsedSeconds)%Q ->
  CarParticle.street car' = CarParticle.street car /\
  CarParticle.intersection car' = CarParticle.intersection car /\
  CarParticle.waiting car' = CarParticle.waiting car /\
  CarParticle.type car' = CarParticle.type car /\
  CarParticle.rotationMatrix car' = CarParticle.rotationMatrix car /\
  ((CarParticle.speed car <= Street.speed street)%Q ->
   (CarParticle.speed car <= CarParticle.speed car')%Q /\
   (CarParticle.speed car' <= Street.speed street)%Q /\
   (CarParticle.speed car' <= CarParticle.speed car + 10 * elapsedSeconds)%Q) /\
  ((Street.speed street <= CarParticle.speed car)%Q ->
   (Street.speed street <= CarParticle.speed car')%Q /\
   (CarParticle.speed car' <= CarParticle.speed car)%Q /\
   (CarParticle.speed car - 10 * elapsedSeconds <= CarParticle.speed car')%Q).
Proof.
  intros Hmove Ht.
  destruct (moveCarOnStreet_route _ _ _ _ _ Hmove) as (Hs & Hi & Hw & Hty & Hr & Hv).
  repeat (split; [assumption|]).
  assert (Hacc : (0 <= 10 * elapsedSeconds)%Q).
  { apply Qmult_le_0_compat; [discriminate | exact Ht]. }
  rewrite Hv. unfold adjustSpeed, _accelerationDefault.
  split; intros Hle.
  - destruct (Qltb (CarParticle.speed car) (Street.speed street)) eqn:E1.
    + apply Qltb_lt in E1.
      destruct (Qltb (Street.speed street) (CarParticle.speed car + 10 * elapsedSeconds))
        eqn:E2.
      * apply Qltb_lt in E2. repeat split; lra.
      * apply Qltb_ge in E2. repeat split; lra.
    + apply Qltb_ge in E1.
      destruct (Qltb (Street.speed street) (CarParticle.speed car)) eqn:E2.
      * apply Qltb_lt in E2. lra.
      * repeat split; lra.
  - destruct (Qltb (CarParticle.speed car) (Street.speed street)) eqn:E1.
    + apply Qltb_lt in E1. lra.
    + destruct (Qltb (Street.speed street) (CarParticle.speed car)) eqn:E2.
      * apply Qltb_lt in E2.
        destruct (Qltb (CarParticle.speed car - 10 * elapsedSeconds) (Street.speed street))
          eqn:E3.
        -- apply Qltb_lt in E3. repeat split; lra.
        -- apply Qltb_ge in E3. repeat split; lra.
      * repeat split; lra.
Qed.

Lemma moveCarOnStreet_frame_and_speed_witness :
  exists car' timeLeft,
    moveCarOnStreet (CarParticle.setSpeed Sample.nearEnd 3) Sample.deadEnd (1 / 2)
    = Ok (car', timeLeft) /\
    (3 <= CarParticle.speed car')%Q /\ (CarParticle.speed car' <= 3 + 10 * (1 / 2))%Q /\
    CarParticle.type car' = 3.
Proof.
  destruct (moveCarOnStreet (CarParticle.setSpeed Sample.nearEnd 3) Sample.deadEnd (1 / 2))
    as [[car' timeLeft]|e] eqn:Hmove.
  - assert (Ht : (0 <= 1 / 2)%Q) by (vm_compute; discriminate).
    destruct (moveCarOnStreet_frame_and_speed _ _ _ _ _ Hmove Ht)
      as (_ & _ & _ & Hty & _ & Hup & _).
    assert (Hle : (CarParticle.speed (CarParticle.setSpeed Sample.nearEnd 3)
                   <= Street.speed Sample.deadEnd)%Q) by (vm_compute; discriminate).
    destruct (Hup Hle) as (H1 & _ & H3).
    exists car', timeLeft. repeat split; assumption.
  - exfalso. vm_compute in Hmove. discriminate Hmove.
Defined.


Lemma lift_inv {A : Type} (r : result A) (n n' : nat) (a : A) :
  lift r n = Ok (a, n') -> r = Ok a /\ n' = n.
Proof.
  unfold lift. destruct r as [a0|e]; [|discriminate].
  intros H. inversion H. split; reflexivity.
Qed.

(** One pass of the loop of [moveCar] either restarts the car, or keeps its
    variant and rotation; when the pass asks for another one, the car is not
    waiting any more than before and the frame time is passed on. *)
Lemma moveCarBody_cases
    (random : nat -> Q) (this : CarVisualization) (car : CarParticle.t)
    (timeLeft elapsedSeconds : Q) (n n' : nat) (s : step) :
  moveCarBody random this car timeLeft elapsedSeconds n = Ok (s, n') ->
  (exists c1 m, restartCar random this c1 m = Ok (stepCar s, n') /\ s = Return (stepCar s)) \/
  (CarParticle.type (stepCar s) = CarParticle.type car /\
   CarParticle.rotationMatrix (stepCar s) = CarParticle.rotationMatrix car /\
   match s with
   | Return _ => True
   | Continue c _ e =>
       CarParticle.waiting c
       = (if Qltb 0 (CarParticle.waiting car) then 0%Q else CarParticle.waiting car) /\
       e = (if Qltb 0 (CarParticle.waiting car)
            then (elapsedSeconds - CarParticle.waiting car)%Q else elapsedSeconds)
   end).
Proof.
  unfold moveCarBody. intros H.
  set (car0 := if Qltb 0 (CarParticle.waiting car)
               then CarParticle.setWaiting car 0 else car).
  set (e0 := if Qltb 0 (CarParticle.waiting car)
             then (elapsedSeconds - CarParticle.waiting car)%Q else elapsedSeconds).
  assert (Hcar0 : CarParticle.type car0 = CarParticle.type car /\
                  CarParticle.rotationMatrix car0 = CarParticle.rotationMatrix car /\
                  CarParticle.waiting car0
                  = (if Qltb 0 (CarParticle.waiting car) then 0%Q
                     else CarParticle.waiting car)).
  { unfold car0. destruct (Qltb 0 (CarParticle.waiting car)); repeat split. }
  destruct Hcar0 as (Hty0 & Hrot0 & Hw0).
  assert (Hwaited :
    (if Qltb 0 (CarParticle.waiting car) then
       if Qle_bool elapsedSeconds (CarParticle.waiting car) then
         inr (CarParticle.setWaiting car (CarParticle.waiting car - elapsedSeconds)%Q)
       else inl (CarParticle.setWaiting car 0, (elapsedSeconds - CarParticle.waiting car)%Q)
     else inl (car, elapsedSeconds))
    = (if Qltb 0 (CarParticle.waiting car) && Qle_bool elapsedSeconds (CarParticle.waiting car)
       then inr (CarParticle.setWaiting car (CarParticle.waiting car - elapsedSeconds)%Q)
       else inl (car0, e0))).
  { unfold car0, e0. destruct (Qltb 0 (CarParticle.waiting car)); [|reflexivity].
    destruct (Qle_bool elapsedSeconds (CarParticle.waiting car)); reflexivity. }
  rewrite Hwaited in H. clear Hwaited.
  destruct (Qltb 0 (CarParticle.waiting car) && Qle_bool elapsedSeconds (CarParticle.waiting car)).
  { inversion H. right. cbn [stepCar]. car_fields. repeat split. }
  clearbody car0 e0.
  match type of H with
  | context [match ?cs with Some _ => _ | None => _ end] => destruct cs as [curStreet|]
  end.
  2:{ inversion H. right. cbn [stepCar]. auto. }
  apply bind_inv in H. destruct H as (car1 & n1 & Hdir & H).
  assert (Hcar1 : CarParticle.type car1 = CarParticle.type car /\
                  CarParticle.rotationMatrix car1 = CarParticle.rotationMatrix car /\
                  CarParticle.waiting car1 = CarParticle.waiting car0).
  { destruct (Qeq_bool 0 (CarParticle.speed car0)).
    - apply lift_inv in Hdir. destruct Hdir as [Hdir _].
      destruct (setDirectionOnStreet_route _ _ _ Hdir) as [v ->]. car_fields. auto.
    - inversion Hdir. subst. auto. }
  destruct Hcar1 as (Hty1 & Hrot1 & Hw1).
  apply bind_inv in H. destruct H as ([car2 left] & n2 & Hmove & H).
  apply lift_inv in Hmove. destruct Hmove as [Hmove _].
  destruct (moveCarOnStreet_route _ _ _ _ _ Hmove) as (_ & _ & Hw2 & Hty2 & Hrot2 & _).
  assert (Hkeep : forall c,
             CarParticle.type c = CarParticle.type car2 ->
             CarParticle.rotationMatrix c = CarParticle.rotationMatrix car2 ->
             CarParticle.type c = CarParticle.type car /\
             CarParticle.rotationMatrix c = CarParticle.rotationMatrix car).
  { intros c Hc1 Hc2. split; congruence. }
  assert (Hwait : forall c,
             CarParticle.waiting c = CarParticle.waiting car2 ->
             CarParticle.waiting c
             = (if Qltb 0 (CarParticle.waiting car) then 0%Q else CarParticle.waiting car)).
  { intros c Hc. congruence. }
  destruct (Qltb left 0).
  { inversion H. right. cbn [stepCar]. destruct (Hkeep car2 eq_refl eq_refl). auto. }
  destruct (CarParticle.intersection car2 >=? 0).
  { apply bind_inv in H. destruct H as (street & n3 & _ & H).
    apply bind_inv in H. destruct H as (car3 & n4 & Hd3 & H).
    apply lift_inv in Hd3. destruct Hd3 as [Hd3 _].
    destruct (setDirectionOnStreet_route _ _ _ Hd3) as [v ->].
    inversion H. right. cbn [stepCar]. car_fields.
    destruct (Hkeep car2 eq_refl eq_refl). split; [assumption|]. split; [assumption|].
    split; [apply Hwait; reflexivity | reflexivity]. }
  apply bind_inv in H. destruct H as (st & n3 & _ & H).
  match type of H with
  | context [if ?b then _ else _] => destruct b
  end.
  { apply bind_inv in H. destruct H as (c & n4 & Hrestart & H).
    inversion H. subst. left. exists car2, n3. cbn [stepCar]. split; [exact Hrestart|reflexivity]. }
  destruct (_intersections this !! Street.inTo st) as [curIntersection|].
  2:{ inversion H. right. cbn [stepCar]. destruct (Hkeep car2 eq_refl eq_refl).
      split; [assumption|]. split; [assumption|]. split; [apply Hwait|]; reflexivity. }
  apply bind_inv in H. destruct H as (out & n4 & _ & H). car_fields.
  destruct (Intersection.findPath curIntersection (CarParticle.street car2) out =? -1).
  { apply bind_inv in H. destruct H as (o & n5 & _ & H).
    apply bind_inv in H. destruct H as (car3 & n6 & Hd3 & H).
    apply lift_inv in Hd3. destruct Hd3 as [Hd3 _].
    destruct (setDirectionOnStreet_route _ _ _ Hd3) as [v ->].
    inversion H. right. cbn [stepCar]. car_fields.
    destruct (Hkeep car2 eq_refl eq_refl). split; [assumption|]. split; [assumption|].
    split; [apply Hwait; reflexivity | reflexivity]. }
  destruct (Intersection.stop curIntersection).
  { destruct (Qltb left _waitTime).
    - inversion H. right. cbn [stepCar]. car_fields.
      destruct (Hkeep car2 eq_refl eq_refl). auto.
    - inversion H. right. cbn [stepCar]. car_fields.
      destruct (Hkeep car2 eq_refl eq_refl). split; [assumption|]. split; [assumption|].
      split; [apply Hwait; reflexivity | reflexivity]. }
  apply bind_inv in H. destruct H as (car3 & n5 & Hd3 & H).
  apply lift_inv in Hd3. destruct Hd3 as [Hd3 _].
  destruct (setDirectionOnStreet_route _ _ _ Hd3) as [v ->].
  inversion H. right. cbn [stepCar]. car_fields.
  destruct (Hkeep car2 eq_refl eq_refl). split; [assumption|]. split; [assumption|].
  split; [apply Hwait; reflexivity | reflexivity].
Qed.

Lemma restartCar_variant (random : nat -> Q) (this : CarVisualization)
    (car c : CarParticle.t) (n n' : nat) :
  restartCar random this car n = Ok (c, n') ->
  CarParticle.type c = Qfloor (random (S n) * inject_Z (_numTypes this)) /\
  CarParticle.rotationMatrix c = CarParticle.rotationMatrix car /\
  n' = S (S n).
Proof.
  unfold restartCar. intros H.
  rewrite (bind_Ok _ _ _ _ _ (randomInteger_from_zero random _ n)) in H.
  apply bind_inv in H. destruct H as (s & n1 & Hs & H).
  apply lift_inv in Hs. destruct Hs as [_ ->].
  apply bind_inv in H. destruct H as (st & n1 & Hst & H).
  apply lift_inv in Hst. destruct Hst as [_ ->].
  apply bind_inv in H. destruct H as (p & n1 & Hp & H).
  apply lift_inv in Hp. destruct Hp as [_ ->].
  rewrite (bind_Ok _ _ _ _ _ (randomInteger_from_zero random _ (S n))) in H.
  apply lift_inv in H. destruct H as [H ->].
  destruct (setDirectionOnStreet_route _ _ _ H) as [v ->]. car_fields. auto.
Qed.

Lemma emitCar_variant (random : nat -> Q) (pointDistance : Point3d.t -> Point3d.t -> Q)
    (this : CarVisualization) (s seg : Z) (distance : option Q)
    (c : CarParticle.t) (n n' : nat) :
  emitCar random pointDistance this (Some s) (Some seg) distance n = Ok (c, n') ->
  CarParticle.type c = Qfloor (random n * inject_Z (_numTypes this)) /\ n' = S n.
Proof.
  unfold emitCar. intros H.
  rewrite (bind_Ok _ _ n n (Some s) eq_refl) in H.
  rewrite (bind_lift _ _ _ s eq_refl) in H.
  apply bind_inv in H. destruct H as (st & n1 & Hst & H).
  apply lift_inv in Hst. destruct Hst as [_ ->].
  apply bind_inv in H. destruct H as (p & n1 & Hp & H).
  apply lift_inv in Hp. destruct Hp as [_ ->].
  rewrite (bind_Ok _ _ _ _ _ (randomInteger_from_zero random _ n)) in H.
  apply bind_inv in H. destruct H as (car & n1 & Hcar & H).
  apply lift_inv in H. destruct H as [H ->].
  destruct (setDirectionOnStreet_route _ _ _ H) as [v ->]. car_fields.
  destruct (seg >=? len (Street.distance st)).
  - apply bind_inv in Hcar. destruct Hcar as (p1 & n2 & Hp1 & Hcar).
    apply lift_inv in Hp1. destruct Hp1 as [_ ->].
    inversion Hcar. car_fields. auto.
  - destruct distance as [distance|].
    + apply lift_inv in Hcar. destruct Hcar as [Hcar ->].
      rewrite (setPositionOnStreet_route _ _ _ Hcar). car_fields. auto.
    + inversion Hcar. car_fields. auto.
Qed.

(** A call of [moveCar] either ends in a restart, or keeps the car's variant
    and rotation. *)
Lemma moveCarLoop_cases (random : nat -> Q) (this : CarVisualization) (fuel : nat) :
  forall (car c : CarParticle.t) (timeLeft elapsedSeconds : Q) (n n' : nat),
    moveCarLoop random fuel this car timeLeft elapsedSeconds n = Ok (c, n') ->
    (exists c1 m, restartCar random this c1 m = Ok (c, n')) \/
    (CarParticle.type c = CarParticle.type car /\
     CarParticle.rotationMatrix c = CarParticle.rotationMatrix car).
Proof.
  induction fuel as [|fuel IH]; intros car c timeLeft elapsedSeconds n n' H;
    cbn [moveCarLoop] in H; destruct (Qltb 0 timeLeft);
    try discriminate; try (inversion H; subst; right; split; reflexivity).
  apply bind_inv in H. destruct H as (s & n1 & Hbody & H).
  destruct (moveCarBody_cases _ _ _ _ _ _ _ _ Hbody) as [(c1 & m & Hrestart & Hs)|(Hty & Hrot & _)].
  - rewrite Hs in H. inversion H. subst. left. exists c1, m. exact Hrestart.
  - destruct s as [c0|c0 t0 e0]; cbn [stepCar] in *.
    + inversion H. subst. right. split; assumption.
    + destruct (IH _ _ _ _ _ _ H) as [Hr|(Hty' & Hrot')]; [left; exact Hr|].
      right. split; congruence.
Qed.


Lemma setRotationMatrix_type (normalize : Vector2d.t -> option Vector2d.t)
    (car : CarParticle.t) :
  CarParticle.type (setRotationMatrix normalize car) = CarParticle.type car.
Proof.
  unfold setRotationMatrix. destruct (CarParticle.direction car) as [d|]; [|reflexivity].
  destruct (normalize d); reflexivity.
Qed.

Lemma addCars_variants (random : nat -> Q) (pointDistance : Point3d.t -> Point3d.t -> Q)
    (this : CarVisualization) (fuel : nat) :
  (forall m, (0 <= random m)%Q /\ (random m < 1)%Q) ->
  0 < _numTypes this ->
  forall (numCars numCars' : Q) (cars cars' : list CarParticle.t) (n n' : nat),
    variantsInRange (_numTypes this) cars ->
    addCars random pointDistance fuel this numCars cars n = Ok ((numCars', cars'), n') ->
    variantsInRange (_numTypes this) cars'.
Proof.
  intros Hrandom Htypes.
  induction fuel as [|fuel IH]; intros numCars numCars' cars cars' n n' Hin H;
    cbn [addCars] in H; destruct (Qltb 0 numCars);
    try discriminate; try (inversion H; subst; exact Hin).
  apply bind_inv in H. destruct H as (s & n1 & _ & H).
  apply bind_inv in H. destruct H as (st & n2 & _ & H).
  apply bind_inv in H. destruct H as (seg & n3 & _ & H).
  apply bind_inv in H. destruct H as (d & n4 & _ & H).
  apply bind_inv in H. destruct H as (distance & n5 & _ & H).
  apply bind_inv in H. destruct H as (car & n6 & Hcar & H).
  refine (IH _ _ _ _ _ _ _ H).
  apply Forall_app. split; [exact Hin|]. constructor; [|constructor].
  destruct (emitCar_variant _ _ _ _ _ _ _ _ _ Hcar) as [-> _].
  destruct (Hrandom n5) as [H0 H1]. apply scaled_draw_in_range; assumption.
Qed.

Lemma moveCars_variants (random : nat -> Q) (normalize : Vector2d.t -> option Vector2d.t)
    (fuel : nat) (this : CarVisualization) (elapsedSeconds : Q) :
  (forall m, (0 <= random m)%Q /\ (random m < 1)%Q) ->
  0 < _numTypes this ->
  forall (cars cars' : list CarParticle.t) (n n' : nat),
    variantsInRange (_numTypes this) cars ->
    moveCars random normalize fuel this elapsedSeconds cars n = Ok (cars', n') ->
    variantsInRange (_numTypes this) cars'.
Proof.
  intros Hrandom Htypes.
  induction cars as [|car cars IH]; intros cars' n n' Hin H; cbn [moveCars] in H.
  - inversion H. constructor.
  - apply bind_inv in H. destruct H as (c & n1 & Hc & H).
    apply bind_inv in H. destruct H as (rest & n2 & Hrest & H).
    inversion H. subst cars' n'. inversion Hin as [|? ? Hcar Hcars]. subst.
    constructor; [|exact (IH _ _ _ Hcars Hrest)].
    rewrite setRotationMatrix_type.
    destruct (moveCarLoop_cases _ _ _ _ _ _ _ _ _ Hc) as [(c1 & m & Hrestart)|(Hty & _)].
    + destruct (restartCar_variant _ _ _ _ _ _ Hrestart) as (-> & _ & _).
      destruct (Hrandom (S m)) as [H0 H1]. apply scaled_draw_in_range; assumption.
    + rewrite Hty. exact Hcar.
Qed.

Lemma addParticles_grouped (particles : list CarParticle.t) :
  forall carBuilders : list (list CarParticle.t),
    variantsInRange (len carBuilders) particles ->
    exists filled,
      addParticles carBuilders particles = Ok filled /\
      length filled = length carBuilders /\
      forall (t : nat) (builder : list CarParticle.t),
        carBuilders !! t = Some builder ->
        filled !! t
        = Some (builder
                ++ List.filter (fun c => CarParticle.type c =? Z.of_nat t) particles).
Proof.
  induction particles as [|car particles IH]; intros carBuilders Hin.
  - exists carBuilders. split; [reflexivity|]. split; [reflexivity|].
    intros t builder Hb. cbn [List.filter]. rewrite app_nil_r. exact Hb.
  - inversion Hin as [|? ? Hcar Hrest]. subst.
    destruct (at_in_range carBuilders (CarParticle.type car) Hcar) as [b Hb].
    cbn [addParticles]. rewrite Hb. cbn [defined rbind].
    destruct (IH (<[Z.to_nat (CarParticle.type car) := b ++ [car]]> carBuilders))
      as (filled & Hfilled & Hlen & Hgroups).
    { unfold len. rewrite length_insert. exact Hrest. }
    exists filled. split; [exact Hfilled|]. rewrite length_insert in Hlen.
    split; [exact Hlen|].
    intros t builder Ht. cbn [List.filter].
    apply at_Some in Hb. destruct Hb as [Hnonneg Hb].
    destruct (Z.eqb_spec (CarParticle.type car) (Z.of_nat t)) as [Heq|Hne].
    + assert (Et : Z.to_nat (CarParticle.type car) = t) by lia.
      rewrite Et in Hb. rewrite Ht in Hb. inversion Hb. subst b.
      rewrite (Hgroups t (builder ++ [car])).
      * rewrite <- app_assoc. reflexivity.
      * rewrite Et. apply list_lookup_insert_eq. apply lookup_lt_Some in Ht. exact Ht.
    + apply Hgroups. rewrite list_lookup_insert_ne by lia. exact Ht.
Qed.

Lemma addParticles_out_of_range (particles : list CarParticle.t) :
  forall carBuilders : list (list CarParticle.t),
    ~ variantsInRange (len carBuilders) particles ->
    addParticles carBuilders particles = Err TypeError.
Proof.
  induction particles as [|car particles IH]; intros carBuilders Hout.
  - exfalso. apply Hout. constructor.
  - cbn [addParticles].
    destruct (at_ carBuilders (CarParticle.type car)) as [b|] eqn:Hb; [|reflexivity].
    cbn [defined rbind]. apply IH. unfold len. rewrite length_insert.
    intros Hrest. apply Hout. constructor; [exact (at_lt _ _ _ Hb) | exact Hrest].
Qed.

(** X7: the drawing step of [decorate] adds every particle to the builder
    of its variant: with one builder per texture and all variants within
    range, builder t receives exactly the particles of variant t, in the
    order of the collection; a single variant out of range makes the frame
    stop with a TypeError. *)
Theorem addParticles_groups_by_variant (numTypes : nat) (particles : list CarParticle.t) :
  (variantsInRange (Z.of_nat numTypes) particles ->
   exists filled,
     addParticles (replicate numTypes []) particles = Ok filled /\
     length filled = numTypes /\
     forall t : nat,
       (t < numTypes)%nat ->
       filled !! t
       = Some (List.filter (fun c => CarParticle.type c =? Z.of_nat t) particles)) /\
  (~ variantsInRange (Z.of_nat numTypes) particles ->
   addParticles (replicate numTypes []) particles = Err TypeError).
Proof.
  assert (Hlen : len (replicate numTypes (@nil CarParticle.t)) = Z.of_nat numTypes).
  { unfold len. rewrite length_replicate. reflexivity. }
  split.
  - intros Hin. rewrite <- Hlen in Hin.
    destruct (addParticles_grouped particles _ Hin) as (filled & Hfilled & Hl & Hgroups).
    exists filled. split; [exact Hfilled|]. rewrite length_replicate in Hl.
    split; [exact Hl|].
    intros t Ht. rewrite (Hgroups t []); [reflexivity|].
    apply lookup_replicate. split; [reflexivity | exact Ht].
  - intros Hout. apply addParticles_out_of_range. rewrite Hlen. exact Hout.
Qed.

Lemma addParticles_groups_by_variant_witness :
  (exists filled,
      addParticles (replicate 9 []) [Sample.nearEnd; Sample.onPath] = Ok filled /\
      filled !! 3%nat = Some [Sample.nearEnd; Sample.onPath]) /\
  addParticles (replicate 3 []) [Sample.nearEnd] = Err TypeError.
Proof.
  destruct (addParticles_groups_by_variant 9 [Sample.nearEnd; Sample.onPath]) as [Hin _].
  destruct (addParticles_groups_by_variant 3 [Sample.nearEnd]) as [_ Hout].
  split.
  - destruct Hin as (filled & Hfilled & _ & Hgroups).
    { repeat constructor; vm_compute; discriminate. }
    exists filled. split; [exact Hfilled|]. rewrite (Hgroups 3%nat) by lia. reflexivity.
  - apply Hout. intros Hin3. inversion Hin3 as [|? ? [_ Hlt] _]. vm_compute in Hlt.
    discriminate Hlt.
Defined.

(** X8: an update keeps every variant an index into the texture list: if
    all particles have a variant in [0, numTypes) before [updateParticles],
    they all have one afterwards, newly spawned and respawned particles
    included, so the drawing step that follows does not fault. *)
Theorem updateParticles_keeps_variants
    (random : nat -> Q) (normalize : Vector2d.t -> option Vector2d.t)
    (pointDistance : Point3d.t -> Point3d.t -> Q)
    (fuel : nat) (this this' : CarVisualization) (elapsedSeconds : Q) (n n' : nat)
    (cars' : list CarParticle.t) :
  (forall m, (0 <= random m)%Q /\ (random m < 1)%Q) ->
  0 < _numTypes this ->
  variantsInRange (_numTypes this) (carParticles this) ->
  updateParticles random normalize pointDistance fuel this elapsedSeconds n
  = Ok ((cars', this'), n') ->
  variantsInRange (_numTypes this) cars' /\
  exists filled,
    addParticles (replicate (Z.to_nat (_numTypes this)) []) cars' = Ok filled.
Proof.
  intros Hrandom Htypes Hin H.
  assert (Hcars : variantsInRange (_numTypes this) cars').
  { unfold updateParticles in H.
    destruct (len (_streets this) =? 0).
    - inversion H. constructor.
    - apply bind_inv in H. destruct H as ([d1 cars1] & n1 & Hadd & H).
      apply bind_inv in H. destruct H as ([d2 cars2] & n2 & Hrem & H).
      apply bind_inv in H. destruct H as (moved & n3 & Hmove & H).
      inversion H. subst.
      refine (moveCars_variants _ _ _ _ _ Hrandom Htypes _ _ _ _ _ Hmove).
      destruct (removeCars_spec _ _ _ _ _ _ _ Hrem) as (_ & k & -> & _).
      apply Forall_take.
      exact (addCars_variants _ _ _ _ Hrandom Htypes _ _ _ _ _ _ Hin Hadd). }
  split; [exact Hcars|].
  destruct (addParticles_grouped cars' (replicate (Z.to_nat (_numTypes this)) []))
    as (filled & Hfilled & _).
  { unfold len. rewrite length_replicate, Z2Nat.id by lia. exact Hcars. }
  exists filled. exact Hfilled.
Qed.

Lemma updateParticles_keeps_variants_witness :
  exists cars' this' n',
    updateParticles (Sample.draws [0.5; 0.25]%Q) Sample.noNormalize Sample.noDistance 1
      (Sample.oneStreet [Sample.nearEnd] 1) 1 0%nat = Ok ((cars', this'), n') /\
    variantsInRange 9 cars'.
Proof.
  destruct (updateParticles (Sample.draws [0.5; 0.25]%Q) Sample.noNormalize
              Sample.noDistance 1 (Sample.oneStreet [Sample.nearEnd] 1) 1 0%nat)
    as [[[cars' this'] n']|e] eqn:Hrun.
  - exists cars', this', n'. split; [reflexivity|].
    refine (proj1 (updateParticles_keeps_variants _ _ _ _ _ _ _ _ _ _ _ _ _ Hrun)).
    + apply draws_in_range. repeat constructor; vm_compute; discriminate.
    + reflexivity.
    + repeat constructor; vm_compute; discriminate.
  - exfalso. vm_compute in Hrun. discriminate Hrun.
Defined.


Lemma setRotationMatrix_follows (normalize : Vector2d.t -> option Vector2d.t)
    (car : CarParticle.t) :
  rotationFollowsHeading normalize (setRotationMatrix normalize car).
Proof.
  unfold rotationFollowsHeading, setRotationMatrix. intros v d Hv Hd.
  destruct (CarParticle.direction car) as [v0|] eqn:Hdir.
  - destruct (normalize v0) as [d0|] eqn:Hn.
    + car_fields. rewrite Hdir in Hv. inversion Hv. subst v0.
      rewrite Hn in Hd. inversion Hd. reflexivity.
    + rewrite Hdir in Hv. inversion Hv. subst v0. congruence.
  - congruence.
Qed.

(** X9: every particle that [updateParticles] returns on a network with
    streets has the rotation matrix derived from its heading: whenever the
    heading normalizes to d, the matrix has the rows (d.x, d.y, 0),
    (-d.y, d.x, 0), (0, 0, 0). *)
Theorem updateParticles_rotations_follow_headings
    (random : nat -> Q) (normalize : Vector2d.t -> option Vector2d.t)
    (pointDistance : Point3d.t -> Point3d.t -> Q)
    (fuel : nat) (this this' : CarVisualization) (elapsedSeconds : Q) (n n' : nat)
    (cars' : list CarParticle.t) :
  updateParticles random normalize pointDistance fuel this elapsedSeconds n
  = Ok ((cars', this'), n') ->
  Forall (rotationFollowsHeading normalize) cars'.
Proof.
  intros H. unfold updateParticles in H.
  destruct (len (_streets this) =? 0).
  - inversion H. constructor.
  - apply bind_inv in H. destruct H as ([d1 cars1] & n1 & _ & H).
    apply bind_inv in H. destruct H as ([d2 cars2] & n2 & _ & H).
    apply bind_inv in H. destruct H as (moved & n3 & Hmove & H).
    inversion H. subst. clear H.
    revert cars' n2 n' Hmove.
    induction cars2 as [|car cars2 IH]; intros cars' n2 n' Hmove; cbn [moveCars] in Hmove.
    + inversion Hmove. constructor.
    + apply bind_inv in Hmove. destruct Hmove as (c & m1 & _ & Hmove).
      apply bind_inv in Hmove. destruct Hmove as (rest & m2 & Hrest & Hmove).
      inversion Hmove. subst.
      constructor; [apply setRotationMatrix_follows | exact (IH _ _ _ Hrest)].
Qed.

Lemma updateParticles_rotations_follow_headings_witness :
  exists cars' this' n',
    updateParticles (Sample.draws [0.5; 0.25]%Q) (fun v => Some v) Sample.noDistance 1
      (Sample.oneStreet [Sample.nearEnd] 1) 1 0%nat = Ok ((cars', this'), n') /\
    Forall (rotationFollowsHeading (fun v => Some v)) cars' /\
    (exists car', cars' = [car'] /\
                  CarParticle.rotationMatrix car'
                  = Some (Matrix3d.createRowValues 100 0 0 (-0) 100 0 0 0 0)).
Proof.
  destruct (updateParticles (Sample.draws [0.5; 0.25]%Q) (fun v => Some v)
              Sample.noDistance 1 (Sample.oneStreet [Sample.nearEnd] 1) 1 0%nat)
    as [[[cars' this'] n']|e] eqn:Hrun.
  - exists cars', this', n'. split; [reflexivity|]. split.
    + exact (updateParticles_rotations_follow_headings _ _ _ _ _ _ _ _ _ _ Hrun).
    + vm_compute in Hrun. inversion Hrun. eexists. split; reflexivity.
  - exfalso. vm_compute in Hrun. discriminate Hrun.
Defined.


(** X10: a car that is not waiting and whose street, intersection or
    intersection path does not exist is left exactly as it is by [moveCar],
    without a fault and without a random draw. *)
Theorem moveCar_without_street
    (random : nat -> Q) (fuel : nat) (this : CarVisualization) (car : CarParticle.t)
    (elapsedSeconds : Q) (n : nat) :
  currentStreet this car = None ->
  (CarParticle.waiting car <= 0)%Q ->
  moveCar random (S fuel) this car elapsedSeconds n = Ok (car, n).
Proof.
  intros Hnone Hw. unfold moveCar. cbn [moveCarLoop].
  destruct (Qltb 0 elapsedSeconds); [|reflexivity].
  assert (Hbody : moveCarBody random this car elapsedSeconds elapsedSeconds n
                  = Ok (Return car, n)).
  { unfold moveCarBody. apply Qltb_ge in Hw. rewrite Hw.
    unfold currentStreet in Hnone. rewrite Hnone. reflexivity. }
  rewrite (bind_Ok _ _ _ _ _ Hbody). reflexivity.
Qed.

Lemma moveCar_without_street_witness :
  moveCar (Sample.draws []) 1 Sample.crossroads
    (CarParticle.setStreet Sample.onPath 5) 1 0%nat
  = Ok (CarParticle.setStreet Sample.onPath 5, 0%nat) /\
  moveCar (Sample.draws []) 1 Sample.crossroads
    (CarParticle.setStreet Sample.nearEnd 8) 1 0%nat
  = Ok (CarParticle.setStreet Sample.nearEnd 8, 0%nat).
Proof.
  split.
  - apply (moveCar_without_street (Sample.draws []) 0 Sample.crossroads
             (CarParticle.setStreet Sample.onPath 5) 1 0%nat).
    + reflexivity.
    + vm_compute. discriminate.
  - apply (moveCar_without_street (Sample.draws []) 0 Sample.crossroads
             (CarParticle.setStreet Sample.nearEnd 8) 1 0%nat).
    + reflexivity.
    + vm_compute. discriminate.
Defined.

Ltac atomic_scrutinee x :=
  lazymatch x with
  | context [if _ then _ else _] => fail
  | context [match _ with Some _ => _ | None => _ end] => fail
  | context [match _ with Ok _ => _ | Err _ => _ end] => fail
  | context [let (_, _) := _ in _] => fail
  | _ => idtac
  end.

Ltac split_cases :=
  repeat first
    [ reflexivity
    | progress cbv beta iota
    | match goal with
      | |- context [match ?x with Some _ => _ | None => _ end] =>
          atomic_scrutinee x; destruct x
      | |- context [match ?x with Ok _ => _ | Err _ => _ end] =>
          atomic_scrutinee x; destruct x
      | |- context [let (_, _) := ?x in _] => atomic_scrutinee x; destruct x
      | |- context [if ?b then _ else _] => atomic_scrutinee b; destruct b
      end ].

(** For a car that is not waiting, a pass of the loop of [moveCar] uses the
    frame time only to pass it on. *)
Lemma moveCarBody_elapsed_unused
    (random : nat -> Q) (this : CarVisualization) (car : CarParticle.t)
    (timeLeft e e' : Q) (n : nat) :
  (CarParticle.waiting car <= 0)%Q ->
  moveCarBody random this car timeLeft e n
  = match moveCarBody random this car timeLeft e' n with
    | Ok (Continue c t _, m) => Ok (Continue c t e, m)
    | other => other
    end.
Proof.
  intros Hw. apply Qltb_ge in Hw. unfold moveCarBody. rewrite Hw.
  unfold bind, lift, ret. split_cases.
Qed.

Lemma moveCarLoop_elapsed_unused (random : nat -> Q) (this : CarVisualization) (fuel : nat) :
  forall (car : CarParticle.t) (timeLeft e e' : Q) (n : nat),
    (CarParticle.waiting car <= 0)%Q ->
    moveCarLoop random fuel this car timeLeft e n
    = moveCarLoop random fuel this car timeLeft e' n.
Proof.
  induction fuel as [|fuel IH]; intros car timeLeft e e' n Hw; cbn [moveCarLoop];
    destruct (Qltb 0 timeLeft); try reflexivity.
  unfold bind. rewrite (moveCarBody_elapsed_unused random this car timeLeft e e' n Hw).
  destruct (moveCarBody random this car timeLeft e' n) as [[s m]|err] eqn:Hbody;
    [|reflexivity].
  destruct s as [c|c t e'']; [reflexivity|].
  destruct (moveCarBody_cases _ _ _ _ _ _ _ _ Hbody) as [(c1 & m1 & _ & Hs)|(_ & _ & Hc & _)].
  - discriminate Hs.
  - apply IH. rewrite Hc. apply Qltb_ge in Hw. rewrite Hw. apply Qltb_ge. exact Hw.
Qed.

Lemma moveCar_spends_frame_waiting
    (random : nat -> Q) (fuel : nat) (this : CarVisualization) (car : CarParticle.t)
    (elapsedSeconds : Q) (n : nat) :
  (0 < CarParticle.waiting car)%Q ->
  (0 < elapsedSeconds)%Q ->
  (elapsedSeconds <= CarParticle.waiting car)%Q ->
  moveCar random (S fuel) this car elapsedSeconds n
  = Ok (CarParticle.setWaiting car (CarParticle.waiting car - elapsedSeconds)%Q, n).
Proof.
  intros Hw He Hle. apply Qltb_lt in Hw. apply Qltb_lt in He.
  unfold moveCar. cbn [moveCarLoop]. rewrite He.
  assert (Hbody : moveCarBody random this car elapsedSeconds elapsedSeconds n
                  = Ok (Return (CarParticle.setWaiting car
                                  (CarParticle.waiting car - elapsedSeconds)%Q), n)).
  { unfold moveCarBody. rewrite Hw. apply Qle_bool_iff in Hle. rewrite Hle. reflexivity. }
  rewrite (bind_Ok _ _ _ _ _ Hbody). reflexivity.
Qed.

(** X11: a waiting car ([waiting] > 0) spends the frame waiting when the
    frame is not longer than the wait: only [waiting] decreases, by the frame
    time.  When the wait ends within the frame, the car moves exactly as the
    same car with [waiting] 0 would in that frame: for the whole frame time,
    the time spent waiting is not deducted. *)
Theorem moveCar_waiting
    (random : nat -> Q) (fuel : nat) (this : CarVisualization) (car : CarParticle.t)
    (elapsedSeconds : Q) (n : nat) :
  (0 < CarParticle.waiting car)%Q ->
  (0 < elapsedSeconds)%Q ->
  ((elapsedSeconds <= CarParticle.waiting car)%Q ->
   moveCar random (S fuel) this car elapsedSeconds n
   = Ok (CarParticle.setWaiting car (CarParticle.waiting car - elapsedSeconds)%Q, n)) /\
  ((CarParticle.waiting car < elapsedSeconds)%Q ->
   moveCar random fuel this car elapsedSeconds n
   = moveCar random fuel this (CarParticle.setWaiting car 0) elapsedSeconds n).
Proof.
  intros Hw He. split.
  - intros Hle. apply moveCar_spends_frame_waiting; assumption.
  - intros Hlt. apply Qltb_lt in Hw. apply Qltb_lt in He. unfold moveCar.
    rewrite (moveCarLoop_elapsed_unused random this fuel (CarParticle.setWaiting car 0)
               elapsedSeconds elapsedSeconds
               (elapsedSeconds - CarParticle.waiting car)%Q n)
      by (car_fields; apply Qle_refl).
    destruct fuel as [|fuel]; cbn [moveCarLoop]; rewrite He; [reflexivity|].
    assert (Hbody :
      moveCarBody random this car elapsedSeconds elapsedSeconds n
      = moveCarBody random this (CarParticle.setWaiting car 0) elapsedSeconds
          (elapsedSeconds - CarParticle.waiting car)%Q n).
    { unfold moveCarBody. rewrite Hw. car_fields.
      assert (Hnot : Qle_bool elapsedSeconds (CarParticle.waiting car) = false).
      { destruct (Qle_bool elapsedSeconds (CarParticle.waiting car)) eqn:E; [|reflexivity].
        apply Qle_bool_iff in E. exfalso. apply (Qlt_not_le _ _ Hlt E). }
      rewrite Hnot. change (Qltb 0 0) with false. reflexivity. }
    unfold bind. rewrite Hbody. reflexivity.
Qed.

Lemma moveCar_waiting_witness :
  let car := CarParticle.setWaiting Sample.nearEnd (1 / 2) in
  moveCar (Sample.draws [0.5; 0.25]%Q) 1 (Sample.oneStreet [] 1) car (1 / 4) 0%nat
  = Ok (CarParticle.setWaiting car (1 / 2 - 1 / 4)%Q, 0%nat) /\
  moveCar (Sample.draws [0.5; 0.25]%Q) 1 (Sample.oneStreet [] 1) car 1 0%nat
  = moveCar (Sample.draws [0.5; 0.25]%Q) 1 (Sample.oneStreet [] 1)
      (CarParticle.setWaiting car 0) 1 0%nat.
Proof.
  cbv zeta. split.
  - apply (moveCar_waiting (Sample.draws [0.5; 0.25]%Q) 0 (Sample.oneStreet [] 1)
             (CarParticle.setWaiting Sample.nearEnd (1 / 2)) (1 / 4) 0%nat);
      vm_compute; reflexivity || discriminate.
  - apply (moveCar_waiting (Sample.draws [0.5; 0.25]%Q) 1 (Sample.oneStreet [] 1)
             (CarParticle.setWaiting Sample.nearEnd (1 / 2)) 1 0%nat);
      vm_compute; reflexivity || discriminate.
Defined.

(** X12: a moving car that reaches the end of its street with [left]
    seconds of the frame remaining, at an intersection with the stop policy
    and a connector path towards the chosen street, is put on that path at
    segment 0 with speed 0.  With less than one second left the call returns
    with [waiting] = 1 - left, and a following frame not longer than that
    wait only counts the wait down; otherwise the wait second is taken off the
    remaining time and the car goes on along the path in the same call. *)
Theorem moveCar_stops_at_intersection
    (random : nat -> Q) (fuel : nat) (this : CarVisualization) (car car1 : CarParticle.t)
    (elapsedSeconds left : Q) (n n1 : nat)
    (st : Street.t) (i : Intersection.t) (out : option Z) :
  CarParticle.intersection car = -1 ->
  (CarParticle.waiting car <= 0)%Q ->
  ~ (0 == CarParticle.speed car)%Q ->
  (0 < elapsedSeconds)%Q ->
  at_ (_streets this) (CarParticle.street car) = Some st ->
  moveCarOnStreet car st elapsedSeconds = Ok (car1, left) ->
  (0 <= left)%Q ->
  0 <= Street.inTo st ->
  _intersections this !! Street.inTo st = Some i ->
  Intersection.streetsOut i <> [] ->
  getNextStreet random i (CarParticle.street car) n = Ok (out, n1) ->
  Intersection.findPath i (CarParticle.street car) out <> -1 ->
  Intersection.stop i = true ->
  let halted :=
    CarParticle.setSpeed
      (CarParticle.setIntersection
         (CarParticle.setSegmentDist
            (CarParticle.setSegment
               (CarParticle.setStreet car1
                  (Intersection.findPath i (CarParticle.street car) out)) 0) 0)
         (Street.inTo st)) 0 in
  ((left < 1)%Q ->
   moveCar random (S fuel) this car elapsedSeconds n
   = Ok (CarParticle.setWaiting halted (1 - left)%Q, n1) /\
   forall (fuel2 : nat) (elapsed2 : Q),
     (0 < elapsed2)%Q -> (elapsed2 <= 1 - left)%Q ->
     moveCar random (S fuel2) this (CarParticle.setWaiting halted (1 - left)%Q) elapsed2 n1
     = Ok (CarParticle.setWaiting halted (1 - left - elapsed2)%Q, n1)) /\
  ((1 <= left)%Q ->
   moveCar random (S fuel) this car elapsedSeconds n
   = moveCarLoop random fuel this halted (left - 1)%Q elapsedSeconds n1).
Proof.
  intros Hi Hw Hv He Hst Hmove Hleft Hin Hint Hout Hnext Hpath Hstop halted.
  destruct (moveCarOnStreet_route _ _ _ _ _ Hmove) as (Hstreet1 & Hint1 & _).
  assert (Hbody :
    moveCarBody random this car elapsedSeconds elapsedSeconds n
    = Ok (if Qltb left 1 then Return (CarParticle.setWaiting halted (1 - left)%Q)
          else Continue halted (left - 1)%Q elapsedSeconds, n1)).
  { unfold moveCarBody.
    assert (Ew : Qltb 0 (CarParticle.waiting car) = false) by (apply Qltb_ge; exact Hw).
    rewrite Ew, Hi. cbn [Z.eqb Pos.eqb]. rewrite Hst, (Qeq_bool_false _ _ Hv).
    rewrite (bind_Ok _ _ n n car (eq_refl : ret car n = Ok (car, n))).
    rewrite (bind_lift _ _ _ (car1, left) Hmove).
    assert (El : Qltb left 0 = false) by (apply Qltb_ge; exact Hleft).
    rewrite El, Hint1, Hi. cbn [Z.geb Z.compare]. rewrite Hstreet1.
    rewrite (bind_lift _ _ _ st) by (rewrite Hst; reflexivity).
    rewrite Hint.
    assert (Eedge : (Street.inTo st <? 0) || (len (Intersection.streetsOut i) =? 0) = false).
    { apply orb_false_iff. split; [apply Z.ltb_ge; exact Hin|].
      apply Z.eqb_neq. unfold len. destruct (Intersection.streetsOut i); [contradiction|].
      cbn [length]. lia. }
    rewrite Eedge. rewrite (bind_Ok _ _ _ _ _ Hnext). car_fields.
    apply Z.eqb_neq in Hpath. rewrite Hpath, Hstop.
    unfold _waitTime. destruct (Qltb left 1); reflexivity. }
  apply Qltb_lt in He. split.
  - intros Hlt. split.
    + unfold moveCar. cbn [moveCarLoop]. rewrite He.
      rewrite (bind_Ok _ _ _ _ _ Hbody). apply Qltb_lt in Hlt. rewrite Hlt. reflexivity.
    + intros fuel2 elapsed2 H2 Hle.
      rewrite (moveCar_spends_frame_waiting random fuel2 this
                 (CarParticle.setWaiting halted (1 - left)%Q) elapsed2 n1);
        car_fields; try assumption; [reflexivity | lra].
  - intros Hge. unfold moveCar. cbn [moveCarLoop]. rewrite He.
    rewrite (bind_Ok _ _ _ _ _ Hbody). apply Qltb_ge in Hge. rewrite Hge. reflexivity.
Qed.

Lemma moveCar_stops_at_intersection_witness :
  exists halted,
    moveCar (Sample.draws [0.7]%Q) 1 Sample.stopSign Sample.beforeCrossing 1 0%nat
    = Ok (halted, 1%nat) /\
    CarParticle.speed halted = 0%Q /\
    CarParticle.intersection halted = 7 /\
    CarParticle.street halted = 0 /\
    (CarParticle.waiting halted == 1 / 2)%Q /\
    exists later,
      moveCar (Sample.draws [0.7]%Q) 1 Sample.stopSign halted (1 / 4) 1%nat
      = Ok (later, 1%nat) /\
      (CarParticle.waiting later == 1 / 4)%Q.
Proof.
  destruct (moveCarOnStreet Sample.beforeCrossing Sample.south 1)
    as [[car1 left]|e] eqn:Hmove; [|vm_compute in Hmove; discriminate Hmove].
  assert (Hleft : (left == 1 / 2)%Q).
  { vm_compute in Hmove. inversion Hmove. reflexivity. }
  destruct (moveCar_stops_at_intersection (Sample.draws [0.7]%Q) 0 Sample.stopSign
              Sample.beforeCrossing car1 1 left 0%nat 1%nat Sample.south
              Sample.stopCrossing (Some 1)) as [Hshort _].
  - reflexivity.
  - vm_compute. discriminate.
  - vm_compute. discriminate.
  - reflexivity.
  - reflexivity.
  - exact Hmove.
  - rewrite Hleft. vm_compute. discriminate.
  - vm_compute. discriminate.
  - reflexivity.
  - discriminate.
  - vm_compute. reflexivity.
  - vm_compute. discriminate.
  - reflexivity.
  - destruct Hshort as [Hfirst Hnext]; [rewrite Hleft; reflexivity|].
    eexists. split; [exact Hfirst|]. car_fields.
    split; [reflexivity|]. split; [reflexivity|]. split; [reflexivity|].
    split; [rewrite Hleft; reflexivity|].
    eexists. split.
    + apply (Hnext 0%nat (1 / 4)%Q); [reflexivity | rewrite Hleft; vm_compute; discriminate].
    + car_fields. rewrite Hleft. reflexivity.
Defined.

(** X20: a moving car that reaches the end of its street with [left]
    seconds of the frame remaining, at an intersection without the stop
    policy, goes on in the same call with all of [left] and with the speed it
    has.  With a connector path towards the chosen street it is put on that
    path at segment 0, with the path's first heading; when [findPath] answers
    -1 it jumps to segment 0 of the chosen street itself, with that street's
    first heading, staying outside the intersection; its position is not
    touched at that point. *)
Theorem moveCar_passes_intersection
    (random : nat -> Q) (fuel : nat) (this : CarVisualization) (car car1 : CarParticle.t)
    (elapsedSeconds left : Q) (n n1 : nat)
    (st : Street.t) (i : Intersection.t) (out : option Z) :
  CarParticle.intersection car = -1 ->
  (CarParticle.waiting car <= 0)%Q ->
  ~ (0 == CarParticle.speed car)%Q ->
  (0 < elapsedSeconds)%Q ->
  at_ (_streets this) (CarParticle.street car) = Some st ->
  moveCarOnStreet car st elapsedSeconds = Ok (car1, left) ->
  (0 <= left)%Q ->
  0 <= Street.inTo st ->
  _intersections this !! Street.inTo st = Some i ->
  Intersection.streetsOut i <> [] ->
  getNextStreet random i (CarParticle.street car) n = Ok (out, n1) ->
  let pathId := Intersection.findPath i (CarParticle.street car) out in
  (forall path p0 p1 rest,
      pathId <> -1 ->
      Intersection.stop i = false ->
      at_ (Intersection.inOutPaths i) pathId = Some path ->
      Street.points path = p0 :: p1 :: rest ->
      moveCar random (S fuel) this car elapsedSeconds n
      = moveCarLoop random fuel this
          (CarParticle.setDirection
             (CarParticle.setIntersection
                (CarParticle.setSegmentDist
                   (CarParticle.setSegment (CarParticle.setStreet car1 pathId) 0) 0)
                (Street.inTo st))
             (Vector2d.create (Point3d.x p1 - Point3d.x p0)
                              (- (Point3d.y p1 - Point3d.y p0)))%Q)
          left elapsedSeconds n1) /\
  (forall o onto p0 p1 rest,
      pathId = -1 ->
      out = Some o ->
      at_ (_streets this) o = Some onto ->
      Street.points onto = p0 :: p1 :: rest ->
      moveCar random (S fuel) this car elapsedSeconds n
      = moveCarLoop random fuel this
          (CarParticle.setDirection
             (CarParticle.setSegmentDist
                (CarParticle.setSegment (CarParticle.setStreet car1 o) 0) 0)
             (Vector2d.create (Point3d.x p1 - Point3d.x p0)
                              (- (Point3d.y p1 - Point3d.y p0)))%Q)
          left elapsedSeconds n1).
Proof.
  intros Hi Hw Hv He Hst Hmove Hleft Hin Hint Hout Hnext pathId.
  destruct (moveCarOnStreet_route _ _ _ _ _ Hmove) as (Hstreet1 & Hint1 & _).
  assert (Ew : Qltb 0 (CarParticle.waiting car) = false) by (apply Qltb_ge; exact Hw).
  assert (El : Qltb left 0 = false) by (apply Qltb_ge; exact Hleft).
  assert (Eedge : (Street.inTo st <? 0) || (len (Intersection.streetsOut i) =? 0) = false).
  { apply orb_false_iff. split; [apply Z.ltb_ge; exact Hin|].
    apply Z.eqb_neq. unfold len. destruct (Intersection.streetsOut i); [contradiction|].
    cbn [length]. lia. }
  apply Qltb_lt in He.
  split.
  - intros path p0 p1 rest Hpath Hstop Hat Hpoints.
    unfold moveCar. cbn [moveCarLoop]. rewrite He.
    unfold moveCarBody.
    rewrite Ew, Hi. cbn [Z.eqb Pos.eqb]. rewrite Hst, (Qeq_bool_false _ _ Hv).
    unfold bind at 1.
    rewrite (bind_Ok _ _ n n car (eq_refl : ret car n = Ok (car, n))).
    rewrite (bind_lift _ _ _ (car1, left) Hmove).
    rewrite El, Hint1, Hi. cbn [Z.geb Z.compare]. rewrite Hstreet1.
    rewrite (bind_lift _ _ _ st) by (rewrite Hst; reflexivity).
    rewrite Hint, Eedge. rewrite (bind_Ok _ _ _ _ _ Hnext). car_fields.
    fold pathId. apply Z.eqb_neq in Hpath. rewrite Hpath, Hstop, Hat.
    erewrite bind_lift.
    2:{ apply (setDirectionOnStreet_first_segment _ path p0 p1 rest);
          [reflexivity | exact Hpoints]. }
    reflexivity.
  - intros o onto p0 p1 rest Hpath -> Hat Hpoints.
    unfold moveCar. cbn [moveCarLoop]. rewrite He.
    unfold moveCarBody.
    rewrite Ew, Hi. cbn [Z.eqb Pos.eqb]. rewrite Hst, (Qeq_bool_false _ _ Hv).
    unfold bind at 1.
    rewrite (bind_Ok _ _ n n car (eq_refl : ret car n = Ok (car, n))).
    rewrite (bind_lift _ _ _ (car1, left) Hmove).
    rewrite El, Hint1, Hi. cbn [Z.geb Z.compare]. rewrite Hstreet1.
    rewrite (bind_lift _ _ _ st) by (rewrite Hst; reflexivity).
    rewrite Hint, Eedge. rewrite (bind_Ok _ _ _ _ _ Hnext). car_fields.
    fold pathId. rewrite Hpath. cbn [Z.eqb Pos.eqb].
    rewrite (bind_lift _ _ _ o eq_refl). car_fields. rewrite Hat.
    erewrite bind_lift.
    2:{ apply (setDirectionOnStreet_first_segment _ onto p0 p1 rest);
          [reflexivity | exact Hpoints]. }
    destruct car1; reflexivity.
Qed.

Lemma moveCar_passes_intersection_witness :
  exists car1 left,
    moveCarOnStreet Sample.beforeCrossing Sample.south 1 = Ok (car1, left) /\
    moveCar (Sample.draws [0.7]%Q) 2 Sample.crossroads Sample.beforeCrossing 1 0%nat
    = moveCarLoop (Sample.draws [0.7]%Q) 1 Sample.crossroads
        (CarParticle.setDirection
           (CarParticle.setIntersection
              (CarParticle.setSegmentDist
                 (CarParticle.setSegment (CarParticle.setStreet car1 0) 0) 0) 7)
           (Vector2d.create (0 - 5) (- (5 - 0)))%Q)
        left 1 1%nat /\
    moveCar (Sample.draws [0.7]%Q) 2 Sample.direct Sample.beforeCrossing 1 0%nat
    = moveCarLoop (Sample.draws [0.7]%Q) 1 Sample.direct
        (CarParticle.setDirection
           (CarParticle.setSegmentDist
              (CarParticle.setSegment (CarParticle.setStreet car1 1) 0) 0)
           (Vector2d.create (0 - 0) (- (100 - 0)))%Q)
        left 1 1%nat.
Proof.
  destruct (moveCarOnStreet Sample.beforeCrossing Sample.south 1)
    as [[car1 left]|e] eqn:Hmove; [|vm_compute in Hmove; discriminate Hmove].
  assert (Hleft : (0 <= left)%Q).
  { vm_compute in Hmove. inversion Hmove. vm_compute. discriminate. }
  destruct (moveCar_passes_intersection (Sample.draws [0.7]%Q) 1 Sample.crossroads
              Sample.beforeCrossing car1 1 left 0%nat 1%nat Sample.south
              Sample.crossing (Some 1)) as [Hpath _];
    [reflexivity | vm_compute; discriminate | vm_compute; discriminate | reflexivity
    | reflexivity | exact Hmove | exact Hleft | vm_compute; discriminate | reflexivity
    | discriminate | vm_compute; reflexivity |].
  destruct (moveCar_passes_intersection (Sample.draws [0.7]%Q) 1 Sample.direct
              Sample.beforeCrossing car1 1 left 0%nat 1%nat Sample.south
              Sample.noPaths (Some 1)) as [_ Hjump];
    [reflexivity | vm_compute; discriminate | vm_compute; discriminate | reflexivity
    | reflexivity | exact Hmove | exact Hleft | vm_compute; discriminate | reflexivity
    | discriminate | vm_compute; reflexivity |].
  exists car1, left. split; [reflexivity|]. split.
  - exact (Hpath Sample.intoNorth (Sample.P 5 0 0) (Sample.P 0 5 0) []
             ltac:(vm_compute; discriminate) eq_refl eq_refl eq_refl).
  - exact (Hjump 1 Sample.north (Sample.P 0 0 0) (Sample.P 0 100 0) []
             eq_refl eq_refl eq_refl eq_refl).
Defined.

(** ** Target count *)

(** X13: the target stored by [changeDensity] never exceeds a hard maximum
    ≥ 0, and on a network whose streets have non-negative total lengths, with
    a positive car size and packing ratio, it is at least a fifth of the
    smaller of the hard maximum and the number of streets (every street counts
    for one car at least); Low, Medium and High give targets in that order. *)
Theorem changeDensity_target_bounds (this this' : CarVisualization) (density : Density) :
  changeDensity this density = Ok this' ->
  (0 <= _maxCars this)%Q ->
  (_numCars this' <= _maxCars this)%Q /\
  ((0 < Point2d.y (_carSize this) * _carSpacingDefault * _packingRatio this)%Q ->
   Forall (fun st => (0 <= Street.totalDistance st)%Q) (_streets this) ->
   (_maxCars this / 5 <= _numCars this')%Q \/
   (inject_Z (len (_streets this)) / 5 <= _numCars this')%Q) /\
  (forall low medium high,
      changeDensity this Low = Ok low ->
      changeDensity this Medium = Ok medium ->
      changeDensity this High = Ok high ->
      (0 <= _numCars high)%Q ->
      (_numCars low <= _numCars medium)%Q /\ (_numCars medium <= _numCars high)%Q).
Proof.
  unfold changeDensity, computeMaxCars, div.
  destruct (double (Point2d.y (_carSize this) * _carSpacingDefault))
    as [spaced|e] eqn:Hspaced; cbn [rbind]; [|intros H; discriminate H].
  destruct (double (spaced * _packingRatio this))
    as [divisor|e] eqn:Hdivisor; cbn [rbind]; [|intros H; discriminate H].
  destruct (Qeq_bool divisor 0) eqn:Ez; cbn [rbind]; [intros H; discriminate H|].
  destruct (double (1 / divisor)) as [d|e] eqn:Hd; cbn [rbind];
    [|intros H; discriminate H].
  destruct (computeMaxCarsLoop (_streets this) d 0) as [fit|e] eqn:Hfit; cbn [rbind];
    [|intros H; discriminate H].
  intros H Hmax.
  set (total := if Qltb (_maxCars this) fit then _maxCars this else fit) in *.
  assert (Hcap : (total <= _maxCars this)%Q).
  { unfold total. destruct (Qltb (_maxCars this) fit) eqn:E.
    - apply Qle_refl.
    - apply Qltb_ge in E. exact E. }
  inversion H. subst this'. cbn [_numCars with_numCars]. clear H.
  split; [|split].
  - destruct density; cbn [getNumberOfCars]; [| |exact Hcap].
    + apply Qle_shift_div_r; [reflexivity|]. lra.
    + apply Qle_shift_div_r; [reflexivity|]. lra.
  - intros Hpos Hnn.
    assert (Hdivisor0 : (0 <= divisor)%Q).
    { apply (double_sign _ _ Hdivisor).
      destruct (Qlt_le_dec (Point2d.y (_carSize this) * _carSpacingDefault) 0) as [Hneg|Hnn'].
      - assert (Hs : (spaced <= 0)%Q) by (apply (double_sign _ _ Hspaced); lra).
        assert (Hp : (_packingRatio this <= 0)%Q).
        { destruct (Qlt_le_dec 0 (_packingRatio this)) as [Hp|Hp]; [|exact Hp].
          exfalso.
          assert (0 <= - (Point2d.y (_carSize this) * _carSpacingDefault)
                       * _packingRatio this)%Q by (apply Qmult_le_0_compat; lra).
          lra. }
        assert (0 <= (- spaced) * (- _packingRatio this))%Q
          by (apply Qmult_le_0_compat; lra).
        lra.
      - assert (Hs : (0 <= spaced)%Q) by (apply (double_sign _ _ Hspaced); exact Hnn').
        assert (Hp : (0 <= _packingRatio this)%Q).
        { destruct (Qlt_le_dec (_packingRatio this) 0) as [Hp|Hp]; [|exact Hp].
          exfalso.
          assert (0 <= Point2d.y (_carSize this) * _carSpacingDefault
                       * - _packingRatio this)%Q by (apply Qmult_le_0_compat; lra).
          lra. }
        apply Qmult_le_0_compat; assumption. }
    assert (Hd0 : (0 <= d)%Q).
    { apply (double_sign _ _ Hd). unfold Qdiv. rewrite Qmult_1_l.
      apply Qinv_le_0_compat. exact Hdivisor0. }
    pose proof (computeMaxCarsLoop_at_least d (_streets this) Hd0 Hnn 0%Q fit Hfit) as Hfit'.
    assert (Htotal : (_maxCars this <= total)%Q \/ (inject_Z (len (_streets this)) <= total)%Q).
    { unfold total. destruct (Qltb (_maxCars this) fit); [left; apply Qle_refl | right; lra]. }
    assert (Hlen : (0 <= inject_Z (len (_streets this)))%Q).
    { change 0%Q with (inject_Z 0). rewrite <- Zle_Qle. unfold len. lia. }
    assert (Hfifth : forall a b : Q, (0 <= a)%Q -> (a <= b)%Q ->
                       (a / 5 <= b / 5)%Q /\ (a / 5 <= b / 3)%Q /\ (a / 5 <= b)%Q).
    { intros a b Ha Hab. unfold Qdiv.
      change (/ 5)%Q with (1 # 5)%Q. change (/ 3)%Q with (1 # 3)%Q. repeat split; lra. }
    destruct Htotal as [Ht|Ht]; [left|right];
      destruct density; cbn [getNumberOfCars];
      first [apply (Hfifth _ total); assumption].
  - intros low medium high Hl Hm Hh Hhigh.
    inversion Hl. inversion Hm. inversion Hh. subst. cbn [_numCars with_numCars] in *.
    cbn [getNumberOfCars] in *. unfold Qdiv.
    change (/ 5)%Q with (1 # 5)%Q. change (/ 3)%Q with (1 # 3)%Q. split; lra.
Qed.

Lemma changeDensity_target_bounds_witness :
  exists this',
    changeDensity (Sample.oneStreet [] 0) Low = Ok this' /\
    (_numCars this' <= 9000)%Q /\ (1 / 5 <= _numCars this')%Q.
Proof.
  destruct (changeDensity (Sample.oneStreet [] 0) Low) as [this'|e] eqn:H;
    [|vm_compute in H; discriminate H].
  assert (Hmax : (0 <= _maxCars (Sample.oneStreet [] 0))%Q) by (vm_compute; discriminate).
  destruct (changeDensity_target_bounds _ _ _ H Hmax) as (Hcap & Hlow & _).
  exists this'. split; [reflexivity|]. split; [exact Hcap|].
  destruct Hlow as [Hm|Hs].
  - reflexivity.
  - repeat constructor. vm_compute. discriminate.
  - eapply Qle_trans; [|exact Hm]. vm_compute. discriminate.
  - exact Hs.
Defined.

(** ** Corners *)

Lemma growRange_spec (r : Range) (p : Point3d.t) :
  (xLow r <= xHigh r)%Q -> (yLow r <= yHigh r)%Q ->
  widens r (growRange r p) /\ within (growRange r p) p /\
  (xLow (growRange r p) = xLow r \/ xLow (growRange r p) = Point3d.x p) /\
  (xHigh (growRange r p) = xHigh r \/ xHigh (growRange r p) = Point3d.x p) /\
  (yLow (growRange r p) = yLow r \/ yLow (growRange r p) = Point3d.y p) /\
  (yHigh (growRange r p) = yHigh r \/ yHigh (growRange r p) = Point3d.y p).
Proof.
  intros Hx Hy. unfold widens, within, growRange. cbn [xLow xHigh yLow yHigh].
  destruct (Qltb (Point3d.x p) (xLow r)) eqn:E1;
    destruct (Qltb (Point3d.y p) (yLow r)) eqn:E2;
    destruct (Qltb (xHigh r) (Point3d.x p)) eqn:E3;
    destruct (Qltb (yHigh r) (Point3d.y p)) eqn:E4;
    try apply Qltb_lt in E1; try apply Qltb_ge in E1;
    try apply Qltb_lt in E2; try apply Qltb_ge in E2;
    try apply Qltb_lt in E3; try apply Qltb_ge in E3;
    try apply Qltb_lt in E4; try apply Qltb_ge in E4;
    repeat split; try lra; auto.
Qed.

Lemma growRange_points (init : Point3d.t) (points : list Point3d.t) :
  forall (seen : list Point3d.t) (r : Range),
    (xLow r <= xHigh r)%Q -> (yLow r <= yHigh r)%Q ->
    attained init seen r ->
    let r' := fold_left growRange points r in
    (xLow r' <= xHigh r')%Q /\ (yLow r' <= yHigh r')%Q /\
    widens r r' /\ Forall (within r') points /\ attained init (seen ++ points) r'.
Proof.
  induction points as [|p points IH]; intros seen r Hx Hy Hatt; cbn [fold_left].
  - cbv zeta. rewrite app_nil_r. unfold widens.
    repeat split; try apply Qle_refl; try assumption; try constructor; apply Hatt.
  - destruct (growRange_spec r p Hx Hy) as (Hw & Hin & Hxl & Hxh & Hyl & Hyh).
    assert (Hx' : (xLow (growRange r p) <= xHigh (growRange r p))%Q)
      by (unfold within in Hin; lra).
    assert (Hy' : (yLow (growRange r p) <= yHigh (growRange r p))%Q)
      by (unfold within in Hin; lra).
    assert (Hatt' : attained init (seen ++ [p]) (growRange r p)).
    { destruct Hatt as ((a & Ha & Hea) & (b & Hb & Heb) & (c & Hc & Hec) & (e & He & Hee)).
      assert (Hold : forall q, In q (init :: seen) -> In q (init :: seen ++ [p])).
      { intros q [->|Hq]; [left; reflexivity | right; apply in_or_app; left; exact Hq]. }
      assert (Hnew : In p (init :: seen ++ [p])).
      { right. apply in_or_app. right. left. reflexivity. }
      repeat split.
      - destruct Hxl as [->| ->]; [exists a; auto | exists p; auto].
      - destruct Hxh as [->| ->]; [exists b; auto | exists p; auto].
      - destruct Hyl as [->| ->]; [exists c; auto | exists p; auto].
      - destruct Hyh as [->| ->]; [exists e; auto | exists p; auto]. }
    destruct (IH (seen ++ [p]) (growRange r p) Hx' Hy' Hatt')
      as (Hx'' & Hy'' & Hw' & Hall & Hatt'').
    cbv zeta in *. rewrite <- app_assoc in Hatt''. cbn [app] in Hatt''.
    split; [exact Hx''|]. split; [exact Hy''|]. split.
    { unfold widens in *. repeat split; lra. }
    split; [|exact Hatt''].
    constructor; [|exact Hall].
    unfold within, widens in *. repeat split; lra.
Qed.

Lemma growRange_streets (init : Point3d.t) (streets : list Street.t) :
  forall (seen : list Point3d.t) (r : Range),
    (xLow r <= xHigh r)%Q -> (yLow r <= yHigh r)%Q ->
    attained init seen r ->
    let r' := fold_left (fun r street => fold_left growRange (Street.points street) r)
                streets r in
    widens r r' /\
    Forall (fun street => Forall (within r') (Street.points street)) streets /\
    attained init (seen ++ concat (map Street.points streets)) r'.
Proof.
  induction streets as [|st streets IH]; intros seen r Hx Hy Hatt; cbn [fold_left map concat].
  - cbv zeta. rewrite app_nil_r. unfold widens.
    repeat split; try apply Qle_refl; try constructor; apply Hatt.
  - destruct (growRange_points init (Street.points st) seen r Hx Hy Hatt)
      as (Hx' & Hy' & Hw & Hall & Hatt').
    destruct (IH (seen ++ Street.points st) _ Hx' Hy' Hatt') as (Hw' & Hrest & Hatt'').
    cbv zeta in *. rewrite <- app_assoc in Hatt''.
    split; [unfold widens in *; repeat split; lra|].
    split; [|exact Hatt''].
    constructor; [|exact Hrest].
    eapply Forall_impl; [exact Hall|]. cbv beta.
    intros p Hp. unfold within, widens in *. repeat split; lra.
Qed.

(** X14: when the constructor finds corners, the range they span contains
    every point of every street (in x and y), and each of its four bounds is
    a coordinate of some point of some street; no corners are found exactly
    when there is no street or the first street has no point, whatever the
    other streets hold. *)
Theorem findCorners_bounding_box (streets : list Street.t) :
  (forall r,
      findCorners streets = Some r ->
      Forall (fun street => Forall (within r) (Street.points street)) streets /\
      (exists p, In p (concat (map Street.points streets)) /\ xLow r = Point3d.x p) /\
      (exists p, In p (concat (map Street.points streets)) /\ xHigh r = Point3d.x p) /\
      (exists p, In p (concat (map Street.points streets)) /\ yLow r = Point3d.y p) /\
      (exists p, In p (concat (map Street.points streets)) /\ yHigh r = Point3d.y p)) /\
  (findCorners streets = None <->
   streets = [] \/ exists st rest, streets = st :: rest /\ Street.points st = []).
Proof.
  unfold findCorners. destruct streets as [|st0 rest].
  - split; [intros r H; discriminate H|]. split; [left; reflexivity | reflexivity].
  - change (at_ (st0 :: rest) 0) with (Some st0). cbv beta iota.
    destruct (Street.points st0) as [|init points0] eqn:Hp0.
    + change (at_ (@nil Point3d.t) 0) with (@None Point3d.t). cbv beta iota.
      split; [intros r H; discriminate H|].
      split; [right; exists st0, rest; split; [reflexivity | exact Hp0] | reflexivity].
    + change (at_ (init :: points0) 0) with (Some init). cbv beta iota. split.
      * intros r H. inversion H as [Hr]. clear H.
        destruct (growRange_streets init (st0 :: rest) []
                    (mkRange (Point3d.x init) (Point3d.y init)
                             (Point3d.x init) (Point3d.y init)))
          as (_ & Hall & Hatt).
        { apply Qle_refl. }
        { apply Qle_refl. }
        { unfold attained. cbn [xLow xHigh yLow yHigh].
          repeat split; exists init; split; try reflexivity; left; reflexivity. }
        cbv zeta in Hall, Hatt. cbn [app] in Hatt.
        split; [exact Hall|].
        assert (Hinit : forall p,
                   In p (init :: concat (map Street.points (st0 :: rest))) ->
                   In p (concat (map Street.points (st0 :: rest)))).
        { intros p [<-|Hin]; [|exact Hin].
          cbn [map concat]. rewrite Hp0. left. reflexivity. }
        destruct Hatt as ((a & Ha & Hea) & (b & Hb & Heb) & (c & Hc & Hec) & (e & He & Hee)).
        repeat split; [exists a | exists b | exists c | exists e]; auto.
      * split; [intros H; discriminate H|].
        intros [H|(st & rest' & H & Hnil)]; [discriminate H|].
        inversion H. subst. rewrite Hp0 in Hnil. discriminate Hnil.
Qed.

Lemma findCorners_bounding_box_witness :
  exists r,
    findCorners (_streets Sample.crossroads) = Some r /\
    (xLow r == -100)%Q /\ (xHigh r == 5)%Q /\ (yLow r == -100)%Q /\ (yHigh r == 100)%Q /\
    Forall (fun street => Forall (within r) (Street.points street))
      (_streets Sample.crossroads) /\
    findCorners (Street.mk [] [] 0 10 (-1) :: _streets Sample.crossroads) = None.
Proof.
  destruct (findCorners (_streets Sample.crossroads)) as [r|] eqn:H;
    [|vm_compute in H; discriminate H].
  destruct (findCorners_bounding_box (_streets Sample.crossroads)) as [Hsome _].
  destruct (findCorners_bounding_box
              (Street.mk [] [] 0 10 (-1) :: _streets Sample.crossroads)) as [_ Hnone].
  exists r. split; [reflexivity|].
  assert (Hr : r = mkRange (-100) (-100) 5 100).
  { vm_compute in H. inversion H. reflexivity. }
  split; [rewrite Hr; reflexivity|]. split; [rewrite Hr; reflexivity|].
  split; [rewrite Hr; reflexivity|]. split; [rewrite Hr; reflexivity|].
  split; [exact (proj1 (Hsome r H))|].
  apply Hnone. right. eexists _, _. split; reflexivity.
Defined.

(** ** Initial placement *)

Lemma lengthsBetween_snoc (distance : list Q) (from to : Z) (d : Q) :
  at_ distance to = Some d -> 0 <= from <= to ->
  lengthsBetween distance from (to + 1) = lengthsBetween distance from to ++ [d].
Proof.
  intros Hd Hle. apply at_Some in Hd. destruct Hd as [H0 Hd].
  unfold lengthsBetween.
  replace (Z.to_nat (to + 1 - from)) with (S (Z.to_nat (to - from))) by lia.
  apply take_S_r. rewrite lookup_drop.
  replace (Z.to_nat from + Z.to_nat (to - from))%nat with (Z.to_nat to) by lia.
  exact Hd.
Qed.

Lemma backUp_walk (distance : list Q) (fuel : nat) :
  forall (seg : Z) (d : Q),
    -1 <= seg < len distance ->
    seg + 1 < Z.of_nat fuel ->
    exists seg' d',
      backUp fuel distance seg d = Ok (seg', d') /\
      -1 <= seg' <= seg /\
      (d == d' + sumQ (lengthsBetween distance (seg' + 1) (seg + 1)))%Q /\
      (forall k, seg' < k <= seg ->
                 (sumQ (lengthsBetween distance k (seg + 1)) < d)%Q) /\
      (0 <= seg' -> exists ds, at_ distance seg' = Some ds /\ (d' <= ds)%Q).
Proof.
  induction fuel as [|fuel IH]; intros seg d Hseg Hfuel; [lia|].
  cbn [backUp]. destruct (Z.geb_spec seg 0) as [Hge|Hlt].
  - destruct (at_in_range distance seg) as [ds Hds]; [lia|].
    rewrite Hds. cbn [num rbind].
    destruct (Qltb ds d) eqn:E.
    + apply Qltb_lt in E.
      destruct (IH (seg - 1) (d - ds)%Q) as (seg' & d' & Hrun & Hr & Hsum & Hskip & Hstop);
        [lia | lia |].
      exists seg', d'. split; [exact Hrun|]. split; [lia|].
      replace (seg - 1 + 1) with seg in * by lia.
      split; [|split].
      * rewrite (lengthsBetween_snoc distance (seg' + 1) seg ds Hds) by lia.
        rewrite sumQ_app. cbn [sumQ]. lra.
      * intros k Hk. rewrite (lengthsBetween_snoc distance k seg ds Hds) by lia.
        rewrite sumQ_app. cbn [sumQ].
        destruct (Z.eq_dec k seg) as [->|Hne].
        -- rewrite lengthsBetween_empty. cbn [sumQ]. lra.
        -- specialize (Hskip k ltac:(lia)). lra.
      * exact Hstop.
    + apply Qltb_ge in E.
      exists seg, d. split; [reflexivity|]. split; [lia|].
      rewrite lengthsBetween_empty. cbn [sumQ].
      split; [ring|]. split; [intros k Hk; lia|].
      intros _. exists ds. split; [exact Hds | exact E].
  - assert (seg = -1) as -> by lia.
    exists (-1), d. split; [reflexivity|]. split; [lia|].
    change (-1 + 1) with 0. rewrite lengthsBetween_empty. cbn [sumQ].
    split; [ring|]. split; [intros k Hk; lia|]. intros H; lia.
Qed.

(** X15: the walk back from the end of a street that [initializeCars] runs
    for every car always ends within the number of segments.  It answers the
    last segment from whose start the street's end is at least [back] away
    (from the start of every later segment it is less than [back] away),
    with the part of [back] that falls into that segment; it answers -1 when
    no segment is that far from the end. *)
Theorem backUp_finds_segment (distance : list Q) (back : Q) :
  exists seg d,
    backUp (S (length distance)) distance (len distance - 1) back = Ok (seg, d) /\
    -1 <= seg < len distance /\
    (back == d + sumQ (lengthsBetween distance (seg + 1) (len distance)))%Q /\
    (forall k, seg < k < len distance ->
               (sumQ (lengthsBetween distance k (len distance)) < back)%Q) /\
    (0 <= seg ->
     (back <= sumQ (lengthsBetween distance seg (len distance)))%Q /\
     exists ds, at_ distance seg = Some ds /\ (d <= ds)%Q).
Proof.
  destruct (backUp_walk distance (S (length distance)) (len distance - 1) back)
    as (seg & d & Hrun & Hrange & Hsum & Hskip & Hstop);
    [unfold len; lia | unfold len; lia |].
  replace (len distance - 1 + 1) with (len distance) in * by lia.
  exists seg, d. split; [exact Hrun|]. split; [lia|]. split; [exact Hsum|].
  split; [intros k Hk; apply Hskip; lia|].
  intros Hseg. destruct (Hstop Hseg) as (ds & Hds & Hle).
  split; [|exists ds; split; assumption].
  rewrite (lengthsBetween_step distance seg (len distance) ds Hds) by lia.
  cbn [sumQ]. lra.
Qed.

Lemma backUp_finds_segment_witness :
  backUp 4 [30; 40; 50]%Q 2 60 = Ok (1, 10%Q) /\
  exists seg d,
    backUp (S (length [30; 40; 50]%Q)) [30; 40; 50]%Q (len [30; 40; 50]%Q - 1) 60
    = Ok (seg, d) /\
    -1 <= seg < len [30; 40; 50]%Q /\
    (60 == d + sumQ (lengthsBetween [30; 40; 50]%Q (seg + 1) (len [30; 40; 50]%Q)))%Q /\
    (forall k, seg < k < len [30; 40; 50]%Q ->
               (sumQ (lengthsBetween [30; 40; 50]%Q k (len [30; 40; 50]%Q)) < 60)%Q) /\
    (0 <= seg ->
     (60 <= sumQ (lengthsBetween [30; 40; 50]%Q seg (len [30; 40; 50]%Q)))%Q /\
     exists ds, at_ [30; 40; 50]%Q seg = Some ds /\ (d <= ds)%Q).
Proof.
  split; [vm_compute; reflexivity|].
  apply (backUp_finds_segment [30; 40; 50]%Q 60).
Defined.



Lemma len_app {A : Type} (l1 l2 : list A) : len (l1 ++ l2) = len l1 + len l2.
Proof. unfold len. rewrite length_app. lia. Qed.

Lemma placeOnStreets_round
    (random : nat -> Q) (pointDistance : Point3d.t -> Point3d.t -> Q)
    (this : CarVisualization) (back : Q) :
  (0 <= back)%Q ->
  forall (streets : list Street.t) (i : Z) (cars : list CarParticle.t)
         (carsAdded : Z) (n : nat),
    0 <= i ->
    drop (Z.to_nat i) (_streets this) = streets ->
    Forall streetWellFormed streets ->
    exists round,
      placeOnStreets random pointDistance streets i this back cars carsAdded n
      = Ok ((cars ++ round, carsAdded + len round), (n + length round)%nat) /\
      Forall (placedBack this back) round /\
      Forall (fun car => i <= CarParticle.street car) round /\
      StronglySorted Z.lt (map CarParticle.street round) /\
      (round = [] \/ (inject_Z (len (cars ++ round)) < _numCars this + 1)%Q) /\
      (forall j st,
          i <= j -> at_ (_streets this) j = Some st ->
          (exists car, In car round /\ CarParticle.street car = j) \/
          (sumQ (Street.distance st) < back)%Q \/
          (_numCars this <= inject_Z (len (cars ++ round)))%Q).
Proof.
  intros Hback streets.
  induction streets as [|street rest IH]; intros i cars carsAdded n Hi Hdrop Hwf.
  - exists []. cbn [placeOnStreets]. unfold ret.
    rewrite app_nil_r, Z.add_0_r, Nat.add_0_r.
    split; [reflexivity|]. split; [constructor|]. split; [constructor|].
    split; [constructor|]. split; [left; reflexivity|].
    intros j st Hj Hat. exfalso. apply at_Some in Hat. destruct Hat as [_ Hat].
    assert (Hnone : drop (Z.to_nat i) (_streets this) !! (Z.to_nat j - Z.to_nat i)%nat
                    = Some st).
    { rewrite lookup_drop. replace (Z.to_nat i + (Z.to_nat j - Z.to_nat i))%nat
        with (Z.to_nat j) by lia. exact Hat. }
    rewrite Hdrop in Hnone. discriminate Hnone.
  - cbn [placeOnStreets].
    destruct (Qltb (inject_Z (len cars)) (_numCars this)) eqn:Hroom.
    2:{ exists []. unfold ret. rewrite app_nil_r, Z.add_0_r, Nat.add_0_r.
        split; [reflexivity|]. split; [constructor|]. split; [constructor|].
        split; [constructor|]. split; [left; reflexivity|].
        intros j st _ _. right. right. apply Qltb_ge. exact Hroom. }
    apply Qltb_lt in Hroom.
    inversion Hwf as [|? ? (Hpos & Hpts & Hnz) Hwf']. subst.
    assert (Hst : at_ (_streets this) i = Some street).
    { apply at_Some. split; [exact Hi|].
      rewrite <- (Nat.add_0_r (Z.to_nat i)), <- lookup_drop, Hdrop. reflexivity. }
    assert (Hrest : drop (Z.to_nat (i + 1)) (_streets this) = rest).
    { replace (Z.to_nat (i + 1)) with (S (Z.to_nat i)) by lia.
      replace (S (Z.to_nat i)) with (Z.to_nat i + 1)%nat by lia.
      rewrite <- drop_drop, Hdrop. reflexivity. }
    destruct (backUp_walk (Street.distance street) (S (length (Street.distance street)))
                (len (Street.distance street) - 1) back)
      as (seg & d & Hrun & Hrange & Hsum & Hskip & Hstop);
      [lia | unfold len; lia |].
    rewrite (bind_lift _ _ _ _ Hrun). cbv beta iota.
    replace (len (Street.distance street) - 1 + 1) with (len (Street.distance street))
      in * by lia.
    destruct (Z.geb_spec seg 0) as [Hge|Hlt].
    + destruct (Hstop Hge) as (ds & Hds & Hle).
      rewrite (bind_lift _ _ _ ds) by (rewrite Hds; reflexivity).
      destruct (at_in_range (Street.points street) seg) as [pA HA]; [lia|].
      destruct (at_in_range (Street.points street) (seg + 1)) as [pB HB]; [lia|].
      assert (Hdsnz : ~ (ds == 0)%Q).
      { apply at_Some in Hds. destruct Hds as [_ Hds].
        exact (proj1 (Forall_lookup _ _) Hnz _ _ Hds). }
      rewrite (bind_Ok _ _ _ _ _
                 (emitCar_result random pointDistance this i seg (ds - d)%Q ds n
                    street pA pB Hst Hds Hdsnz HA HB)).
      destruct (IH (i + 1) (cars ++ [CarParticle.mk
          (Point3d.x pA + (Point3d.x pB - Point3d.x pA) * ((ds - d) / ds))%Q
          (Point3d.y pA + (Point3d.y pB - Point3d.y pA) * ((ds - d) / ds))%Q
          (Point3d.z pA + (Point3d.z pB - Point3d.z pA) * ((ds - d) / ds))%Q
          0 i seg (ds - d)%Q 0 (-1)
          (Qfloor (random n * inject_Z (_numTypes this)))
          (Some (Vector2d.create (Point3d.x pB - Point3d.x pA)
                                 (- (Point3d.y pB - Point3d.y pA)))%Q)
          None]) (carsAdded + 1) (S n))
        as (round & Hround & Hplaced & Hfrom & Hsorted & Hcount & Hcover);
        [lia | exact Hrest | exact Hwf' |].
      eexists (_ :: round). rewrite Hround.
      split.
      { rewrite <- app_assoc. cbn [app length]. unfold len. cbn [length].
        replace (carsAdded + 1 + Z.of_nat (length round))
          with (carsAdded + Z.of_nat (S (length round))) by lia.
        replace (S n + length round)%nat with (n + S (length round))%nat by lia.
        reflexivity. }
      split.
      { constructor; [|exact Hplaced].
        exists street, ds. car_fields.
        split; [exact Hst|]. split; [exact Hds|].
        split; [reflexivity|]. split; [reflexivity|]. split; [reflexivity|].
        assert (Hd0 : (0 <= d)%Q).
        { destruct (Z.eq_dec (seg + 1) (len (Street.distance street))) as [Heq|Hne].
          - rewrite Heq, lengthsBetween_empty in Hsum. cbn [sumQ] in Hsum. lra.
          - specialize (Hskip (seg + 1) ltac:(lia)). lra. }
        split; [lra|]. split; [lra|]. lra. }
      split.
      { constructor; [car_fields; lia|].
        eapply Forall_impl; [exact Hfrom|]. cbv beta. intros; lia. }
      split.
      { cbn [map]. car_fields. constructor; [exact Hsorted|].
        apply Forall_map. eapply Forall_impl; [exact Hfrom|]. cbv beta. intros; lia. }
      split.
      { right. destruct Hcount as [->|Hcount].
        * rewrite len_app. unfold len at 2. cbn [length].
          rewrite inject_Z_plus. change (inject_Z (Z.of_nat 1)) with 1%Q. lra.
        * rewrite <- app_assoc in Hcount. exact Hcount. }
      intros j st Hj Hat.
      destruct (Z.eq_dec j i) as [->|Hne].
      * left. eexists. split; [left; reflexivity|]. reflexivity.
      * destruct (Hcover j st ltac:(lia) Hat) as [(car & Hin & Hcar)|[Hshort|Hfull]].
        -- left. exists car. split; [right; exact Hin | exact Hcar].
        -- right. left. exact Hshort.
        -- right. right. rewrite <- app_assoc in Hfull. exact Hfull.
    + destruct (IH (i + 1) cars carsAdded n)
        as (round & Hround & Hplaced & Hfrom & Hsorted & Hcount & Hcover);
        [lia | exact Hrest | exact Hwf' |].
      exists round. split; [exact Hround|]. split; [exact Hplaced|].
      split; [eapply Forall_impl; [exact Hfrom|]; cbv beta; intros; lia|].
      split; [exact Hsorted|]. split; [exact Hcount|].
      intros j st Hj Hat.
      destruct (Z.eq_dec j i) as [->|Hne].
      * right. left. rewrite Hst in Hat. inversion Hat. subst st.
        assert (seg = -1) as -> by lia.
        specialize (Hskip 0 ltac:(lia)).
        rewrite lengthsBetween_to_end in Hskip by lia. exact Hskip.
      * exact (Hcover j st ltac:(lia) Hat).
Qed.

Lemma placedBack_comp (this : CarVisualization) (back back' : Q) (car : CarParticle.t) :
  (back == back')%Q -> placedBack this back car -> placedBack this back' car.
Proof.
  intros Heq (st & ds & H1 & H2 & H3 & H4 & H5 & H6 & H7 & H8).
  exists st, ds. repeat (split; [assumption|]). rewrite <- Heq. exact H8.
Qed.

Lemma initializeLoop_rounds
    (random : nat -> Q) (pointDistance : Point3d.t -> Point3d.t -> Q)
    (this : CarVisualization) (spacing : Q) :
  (0 <= spacing)%Q ->
  Forall streetWellFormed (_streets this) ->
  forall (fuel : nat) (c carsAdded : Z) (cars : list CarParticle.t) (n : nat),
    0 <= c ->
    (carsAdded <= 0 \/
     (_numCars this + 1 <= inject_Z (len cars) + inject_Z (Z.of_nat fuel))%Q) ->
    exists rounds,
      initializeLoop random pointDistance fuel this spacing 1 c carsAdded cars n
      = Ok (cars ++ concat rounds, (n + length (concat rounds))%nat) /\
      (forall (j : nat) round,
          rounds !! j = Some round ->
          placementRound this (inject_Z (c + Z.of_nat j) * spacing)
            (cars ++ concat rounds) round) /\
      (concat rounds = [] \/
       (inject_Z (len (cars ++ concat rounds)) < _numCars this + 1)%Q) /\
      (0 < carsAdded ->
       (_numCars this <= inject_Z (len (cars ++ concat rounds)))%Q \/
       last rounds = Some []).
Proof.
  intros Hspacing Hwf.
  induction fuel as [|fuel IH]; intros c carsAdded cars n Hc Hfuel.
  - assert (Hstop : (0 <? carsAdded) && Qltb (inject_Z (len cars)) (_numCars this) = false).
    { destruct (Z.ltb_spec 0 carsAdded) as [Hpos|_]; [|reflexivity].
      destruct Hfuel as [Hle|Hle]; [lia|].
      cbn [andb]. apply Qltb_ge. change (inject_Z (Z.of_nat 0)) with 0%Q in Hle. lra. }
    exists []. cbn [initializeLoop]. rewrite Hstop. unfold ret. cbn [concat length].
    rewrite app_nil_r, Nat.add_0_r. split; [reflexivity|].
    split; [intros j round Hj; discriminate Hj|]. split; [left; reflexivity|].
    intros Hpos. left. apply Qltb_ge.
    destruct (Z.ltb_spec 0 carsAdded); [exact Hstop | lia].
  - cbn [initializeLoop].
    destruct ((0 <? carsAdded) && Qltb (inject_Z (len cars)) (_numCars this)) eqn:Hgo.
    2:{ exists []. unfold ret. cbn [concat length].
        rewrite app_nil_r, Nat.add_0_r. split; [reflexivity|].
        split; [intros j round Hj; discriminate Hj|]. split; [left; reflexivity|].
        intros Hpos. left. apply Qltb_ge.
        destruct (Z.ltb_spec 0 carsAdded); [exact Hgo | lia]. }
    apply andb_prop in Hgo. destruct Hgo as [Hpos Hroom].
    apply Z.ltb_lt in Hpos. apply Qltb_lt in Hroom.
    destruct Hfuel as [Hle|Hfuel]; [lia|].
    assert (Hback : (0 <= inject_Z c * spacing * 1)%Q).
    { assert (0 <= inject_Z c)%Q
        by (change 0%Q with (inject_Z 0); rewrite <- Zle_Qle; exact Hc).
      rewrite Qmult_1_r. apply Qmult_le_0_compat; assumption. }
    destruct (placeOnStreets_round random pointDistance this _ Hback
                (_streets this) 0 cars 0 n ltac:(lia) eq_refl Hwf)
      as (round & Hround & Hplaced & _ & Hsorted & Hcount & Hcover).
    rewrite (bind_Ok _ _ _ _ _ Hround). cbv beta iota.
    assert (Hthis : placementRound this (inject_Z (c + Z.of_nat 0) * spacing)
                      (cars ++ round) round).
    { split; [|split; [exact Hsorted|]].
      - eapply Forall_impl; [exact Hplaced|]. intros car. apply placedBack_comp.
        rewrite Z.add_0_r. ring.
      - intros j st Hat.
        assert (Hj : 0 <= j) by (apply at_Some in Hat; tauto).
        destruct (Hcover j st Hj Hat) as [H|[H|H]]; [left; exact H | | right; right; exact H].
        right. left. rewrite Z.add_0_r. lra. }
    destruct round as [|car round].
    + exists [[]]. cbn [concat app length]. rewrite app_nil_r in *.
      change (0 + len (@nil CarParticle.t)) with 0.
      rewrite Nat.add_0_r.
      split.
      { destruct fuel; cbn [initializeLoop]; reflexivity. }
      split.
      { intros [|j] r Hj; [|destruct j; discriminate Hj].
        inversion Hj. subst r. exact Hthis. }
      split; [left; reflexivity|].
      intros _. right. reflexivity.
    + set (round1 := car :: round) in *.
      assert (Hlen : 1 <= len round1) by (unfold len, round1; cbn [length]; lia).
      destruct (IH (c + 1) (0 + len round1) (cars ++ round1) (n + length round1)%nat)
        as (rounds & Hrun & Hrounds & Hcount' & Hlast); [lia | |].
      { right. rewrite len_app, inject_Z_plus.
        assert (1 <= inject_Z (len round1))%Q
          by (change 1%Q with (inject_Z 1); rewrite <- Zle_Qle; exact Hlen).
        rewrite Nat2Z.inj_succ in Hfuel. unfold Z.succ in Hfuel.
        rewrite inject_Z_plus in Hfuel. change (inject_Z 1) with 1%Q in Hfuel. lra. }
      exists (round1 :: rounds). rewrite Hrun. cbn [concat].
      rewrite <- app_assoc, length_app, Nat.add_assoc.
      split; [reflexivity|].
      assert (Hmono : (inject_Z (len (cars ++ round1))
                       <= inject_Z (len (cars ++ round1 ++ concat rounds)))%Q).
      { rewrite <- Zle_Qle. rewrite !len_app. unfold len. lia. }
      split.
      { intros [|j] r Hj.
        - inversion Hj. subst r. destruct Hthis as (H1 & H2 & H3).
          split; [exact H1|]. split; [exact H2|].
          intros s st Hat. destruct (H3 s st Hat) as [H|[H|H]];
            [left; exact H | right; left; exact H | right; right; lra].
        - cbn [lookup list_lookup] in Hj. specialize (Hrounds j r Hj).
          rewrite <- app_assoc in Hrounds.
          replace (c + Z.of_nat (S j)) with (c + 1 + Z.of_nat j) by lia.
          exact Hrounds. }
      split.
      { right. destruct Hcount' as [Hnil|Hlt].
        - rewrite Hnil, app_nil_r. destruct Hcount as [Hnil'|Hlt]; [discriminate Hnil'|].
          exact Hlt.
        - rewrite <- app_assoc in Hlt. exact Hlt. }
      intros _. destruct (Hlast ltac:(lia)) as [Hfull|Hempty].
      * left. rewrite <- app_assoc in Hfull. exact Hfull.
      * right. rewrite last_cons, Hempty. reflexivity.
Qed.

(** X16: on a network of well-formed streets, with a car size that is not
    negative, [initializeCars] returns (given a step bound above the number of
    missing cars) and keeps the particles it found, appending rounds of new
    ones: round c puts one car on every street that is at least
    c × carSize.x × 1.25 long, that far before the street's end, in street
    order, until the target is reached.  Every new car costs one draw; the
    count does not pass the target rounded up; and the placement stops short
    of the target only after a round that could place no car. *)
Theorem initializeCars_places_rounds
    (random : nat -> Q) (pointDistance : Point3d.t -> Point3d.t -> Q)
    (fuel : nat) (this : CarVisualization) (n : nat) :
  Forall streetWellFormed (_streets this) ->
  (0 <= Point2d.x (_carSize this))%Q ->
  (_numCars this + 1
   <= inject_Z (len (carParticles this)) + inject_Z (Z.of_nat fuel))%Q ->
  exists rounds,
    initializeCars random pointDistance fuel this n
    = Ok (with_carParticles this (carParticles this ++ concat rounds),
          (n + length (concat rounds))%nat) /\
    (forall (c : nat) round,
        rounds !! c = Some round ->
        placementRound this
          (inject_Z (Z.of_nat c) * (Point2d.x (_carSize this) * _carSpacingDefault))
          (carParticles this ++ concat rounds) round) /\
    (concat rounds = [] \/
     (inject_Z (len (carParticles this ++ concat rounds)) < _numCars this + 1)%Q) /\
    ((_numCars this <= inject_Z (len (carParticles this ++ concat rounds)))%Q \/
     last rounds = Some []).
Proof.
  intros Hwf Hsize Hfuel.
  assert (Hspacing : (0 <= Point2d.x (_carSize this) * _carSpacingDefault)%Q).
  { apply Qmult_le_0_compat; [exact Hsize|]. unfold _carSpacingDefault. lra. }
  destruct (initializeLoop_rounds random pointDistance this _ Hspacing Hwf
              fuel 0 1 (carParticles this) n ltac:(lia) (or_intror Hfuel))
    as (rounds & Hrun & Hrounds & Hcount & Hlast).
  exists rounds. unfold initializeCars. cbv zeta.
  rewrite (bind_Ok _ _ _ _ _ Hrun). unfold ret.
  split; [reflexivity|]. split; [exact Hrounds|]. split; [exact Hcount|].
  apply Hlast. lia.
Qed.

Lemma sample_streets_wellFormed :
  Forall streetWellFormed [Sample.west; Sample.north; Sample.south].
Proof.
  repeat constructor; try (intros H; vm_compute in H; discriminate H).
Qed.

Lemma initializeCars_places_rounds_witness :
  (exists cars n',
      initializeCars (Sample.draws []) Sample.noDistance 6 Sample.fiveCars 0%nat
      = Ok (with_carParticles Sample.fiveCars cars, n') /\
      map CarParticle.street cars = [0; 1; 2; 0; 1]) /\
  exists rounds,
    initializeCars (Sample.draws []) Sample.noDistance 6 Sample.fiveCars 0%nat
    = Ok (with_carParticles Sample.fiveCars (carParticles Sample.fiveCars ++ concat rounds),
          (0 + length (concat rounds))%nat) /\
    (forall (c : nat) round,
        rounds !! c = Some round ->
        placementRound Sample.fiveCars
          (inject_Z (Z.of_nat c) * (Point2d.x (_carSize Sample.fiveCars) * _carSpacingDefault))
          (carParticles Sample.fiveCars ++ concat rounds) round) /\
    (concat rounds = [] \/
     (inject_Z (len (carParticles Sample.fiveCars ++ concat rounds)) < _numCars Sample.fiveCars + 1)%Q) /\
    ((_numCars Sample.fiveCars <= inject_Z (len (carParticles Sample.fiveCars ++ concat rounds)))%Q \/
     last rounds = Some []).
Proof.
  split.
  - eexists _, _. split; vm_compute; reflexivity.
  - apply (initializeCars_places_rounds (Sample.draws []) Sample.noDistance 6 Sample.fiveCars 0%nat).
    + exact sample_streets_wellFormed.
    + vm_compute. discriminate.
    + vm_compute. discriminate.
Defined.

(** X17: [reset] discards the particles and the target it had.  With a
    target ≤ 0, or on a network without streets, it leaves the collection
    empty and draws nothing; on well-formed streets the new collection
    consists of the placement rounds for the new target alone. *)
Theorem reset_replaces_particles
    (random : nat -> Q) (pointDistance : Point3d.t -> Point3d.t -> Q)
    (fuel : nat) (this : CarVisualization) (numCars : Q) (n : nat) :
  let cleared := with_numCars (with_carParticles this []) numCars in
  ((numCars <= 0)%Q ->
   reset random pointDistance fuel this numCars n = Ok (cleared, n)) /\
  (_streets this = [] ->
   reset random pointDistance (S fuel) this numCars n = Ok (cleared, n)) /\
  (Forall streetWellFormed (_streets this) ->
   (0 <= Point2d.x (_carSize this))%Q ->
   (numCars + 1 <= inject_Z (Z.of_nat fuel))%Q ->
   exists rounds,
     reset random pointDistance fuel this numCars n
     = Ok (with_carParticles cleared (concat rounds), (n + length (concat rounds))%nat) /\
     (forall (c : nat) round,
         rounds !! c = Some round ->
         placementRound cleared
           (inject_Z (Z.of_nat c) * (Point2d.x (_carSize this) * _carSpacingDefault))
           (concat rounds) round) /\
     (concat rounds = [] \/ (inject_Z (len (concat rounds)) < numCars + 1)%Q) /\
     ((numCars <= inject_Z (len (concat rounds)))%Q \/ last rounds = Some [])).
Proof.
  cbv zeta. split; [|split].
  - intros Hle. unfold reset, initializeCars. cbv zeta.
    assert (Hstop : (0 <? 1) && Qltb (inject_Z (len (@nil CarParticle.t))) numCars = false).
    { cbn [Z.ltb Z.compare andb]. apply Qltb_ge.
      change (inject_Z (len (@nil CarParticle.t))) with 0%Q. exact Hle. }
    unfold bind.
    destruct fuel; cbn [initializeLoop carParticles with_numCars with_carParticles _numCars];
      rewrite Hstop; reflexivity.
  - intros Hempty. unfold reset, initializeCars. cbv zeta. unfold bind.
    cbn [initializeLoop carParticles with_numCars with_carParticles _numCars _streets].
    rewrite Hempty.
    destruct ((0 <? 1) && Qltb (inject_Z (len (@nil CarParticle.t))) numCars);
      [|reflexivity].
    cbn [placeOnStreets]. unfold ret.
    destruct fuel; cbn [initializeLoop Z.ltb Z.compare andb]; reflexivity.
  - intros Hwf Hsize Hfuel.
    assert (Hspacing : (0 <= Point2d.x (_carSize this) * _carSpacingDefault)%Q).
    { apply Qmult_le_0_compat; [exact Hsize|]. unfold _carSpacingDefault. lra. }
    destruct (initializeLoop_rounds random pointDistance
                (with_numCars (with_carParticles this []) numCars) _ Hspacing Hwf
                fuel 0 1 [] n ltac:(lia))
      as (rounds & Hrun & Hrounds & Hcount & Hlast).
    { right. cbn [with_numCars _numCars].
      change (inject_Z (len (@nil CarParticle.t))) with 0%Q. lra. }
    cbn [with_numCars _numCars app] in Hrun, Hrounds, Hcount, Hlast.
    exists rounds. unfold reset, initializeCars. cbv zeta.
    cbn [carParticles with_numCars with_carParticles _carSize].
    rewrite (bind_Ok _ _ _ _ _ Hrun). unfold ret.
    split; [reflexivity|]. split; [exact Hrounds|]. split; [exact Hcount|].
    apply Hlast. lia.
Qed.

Lemma reset_replaces_particles_witness :
  reset (Sample.draws []) Sample.noDistance 0 (Sample.oneStreet [Sample.nearEnd] 3) 0 7%nat
  = Ok (Sample.oneStreet [] 0, 7%nat) /\
  reset (Sample.draws []) Sample.noDistance 1
    (mkCarVisualization [Sample.nearEnd] [] ∅ [] [] 1 10 9000 (Point2d.create 1 1) 9) 4 7%nat
  = Ok (mkCarVisualization [] [] ∅ [] [] 4 10 9000 (Point2d.create 1 1) 9, 7%nat) /\
  exists rounds,
    reset (Sample.draws []) Sample.noDistance 4 (Sample.oneStreet [Sample.nearEnd] 1) 2 7%nat
    = Ok (with_carParticles (Sample.oneStreet [] 2) (concat rounds),
          (7 + length (concat rounds))%nat) /\
    ((2 <= inject_Z (len (concat rounds)))%Q \/ last rounds = Some []).
Proof.
  destruct (reset_replaces_particles (Sample.draws []) Sample.noDistance 0
              (Sample.oneStreet [Sample.nearEnd] 3) 0 7%nat) as (Hzero & _ & _).
  destruct (reset_replaces_particles (Sample.draws []) Sample.noDistance 0
              (mkCarVisualization [Sample.nearEnd] [] ∅ [] [] 1 10 9000
                 (Point2d.create 1 1) 9) 4 7%nat) as (_ & Hempty & _).
  destruct (reset_replaces_particles (Sample.draws []) Sample.noDistance 4
              (Sample.oneStreet [Sample.nearEnd] 1) 2 7%nat) as (_ & _ & Hplaces).
  split; [apply Hzero; vm_compute; discriminate|].
  split; [apply Hempty; reflexivity|].
  destruct Hplaces as (rounds & Hrun & _ & _ & Hlast).
  - repeat constructor; try (intros H; vm_compute in H; discriminate H).
  - vm_compute. discriminate.
  - vm_compute. discriminate.
  - exists rounds. split; [exact Hrun | exact Hlast].
Defined.

(** ** The frame clock *)

(** X18: the clock of [decorate].  A paused frame with textures still
    records its time, so the first frame after the pause is lifted simulates
    only the time since the last paused frame, scaled by the speed
    multiplier, on the particles the pause left; a frame without the first
    texture draws nothing and leaves the decorator, its recorded time
    included, as it is. *)
Theorem decorate_clock
    (random : nat -> Q) (normalize : Vector2d.t -> option Vector2d.t)
    (pointDistance : Point3d.t -> Point3d.t -> Q)
    (fuel : nat) (this : CarDecorator) (now1 now2 : Q) (n : nat) :
  (forall t,
      at_ (_carTextures this) 0 = Some (Some t) ->
      _pause this = true ->
      let this1 :=
        mkCarDecorator (_carTextures this) now1 (_visualization this)
          (_speedMultiplier this) true in
      decorate random normalize pointDistance fuel this now1 n
      = Ok ((Some (carParticles (_visualization this)), this1), n) /\
      decorate random normalize pointDistance fuel (pause this1 false) now2 n
      = match updateParticles random normalize pointDistance fuel (_visualization this)
                ((now2 - now1) * _speedMultiplier this / 1000)%Q n with
        | Ok ((particles, visualization), n') =>
            Ok ((Some particles,
                 mkCarDecorator (_carTextures this) now2 visualization
                   (_speedMultiplier this) false), n')
        | Err e => Err e
        end) /\
  ((at_ (_carTextures this) 0 = None \/ at_ (_carTextures this) 0 = Some None) ->
   decorate random normalize pointDistance fuel this now1 n = Ok ((None, this), n)).
Proof.
  destruct this as [textures last viz mult p]. cbn [_carTextures _pause _visualization
    _speedMultiplier]. split.
  - intros t Ht Hp. subst p. cbv zeta. unfold decorate, pause.
    cbn [_carTextures _pause _visualization _speedMultiplier _lastUpdateTime].
    rewrite Ht. split; [reflexivity|].
    unfold bind.
    destruct (updateParticles random normalize pointDistance fuel viz
                ((now2 - now1) * mult / 1000)%Q n) as [[[particles visualization] n']|e];
      reflexivity.
  - intros [Ht|Ht]; unfold decorate; cbn [_carTextures]; rewrite Ht; reflexivity.
Qed.

Lemma decorate_clock_witness :
  at_ (_carTextures (Sample.decorator true)) 0 = Some (Some 1%positive) /\
  _pause (Sample.decorator true) = true /\
  decorate (Sample.draws []) Sample.noNormalize Sample.noDistance 3
    (Sample.decorator true) 5000 0%nat
  = Ok ((Some [Sample.nearEnd],
         mkCarDecorator [Some 1%positive] 5000 (Sample.oneStreet [Sample.nearEnd] 1) 1 true),
        0%nat) /\
  decorate (Sample.draws []) Sample.noNormalize Sample.noDistance 3
    (pause (mkCarDecorator [Some 1%positive] 5000 (Sample.oneStreet [Sample.nearEnd] 1) 1 true)
       false) 5100 0%nat
  = match updateParticles (Sample.draws []) Sample.noNormalize Sample.noDistance 3
            (Sample.oneStreet [Sample.nearEnd] 1) ((5100 - 5000) * 1 / 1000)%Q 0%nat with
    | Ok ((particles, visualization), n') =>
        Ok ((Some particles,
             mkCarDecorator [Some 1%positive] 5100 visualization 1 false), n')
    | Err e => Err e
    end /\
  decorate (Sample.draws []) Sample.noNormalize Sample.noDistance 3
    (mkCarDecorator [] 0 (Sample.oneStreet [Sample.nearEnd] 1) 1 false) 5000 0%nat
  = Ok ((None, mkCarDecorator [] 0 (Sample.oneStreet [Sample.nearEnd] 1) 1 false), 0%nat).
Proof.
  split; [reflexivity|]. split; [reflexivity|].
  destruct (decorate_clock (Sample.draws []) Sample.noNormalize Sample.noDistance 3
              (Sample.decorator true) 5000 5100 0%nat) as [Hpaused _].
  destruct (decorate_clock (Sample.draws []) Sample.noNormalize Sample.noDistance 3
              (mkCarDecorator [] 0 (Sample.oneStreet [Sample.nearEnd] 1) 1 false)
              5000 5100 0%nat) as [_ Hmissing].
  destruct (Hpaused 1%positive eq_refl eq_refl) as [H1 H2].
  split; [exact H1|]. split; [exact H2|].
  apply Hmissing. left. reflexivity.
Defined.

(** ** Construction *)

(** X19: the constructor sets the size before the density: the object it
    returns has no particles, the car size carSizeDefault × size, packing
    ratio 10, and as target the given density's share of the capacity that
    [computeMaxCars] returns for the streets at that car size (not at the
    car size 0 the object starts with), whenever that capacity is a finite
    number; its corners are those found from the streets. *)
Theorem construct_target_follows_size
    (carSizeDefaultX carSizeDefaultY maxCars : Q) (density : Density) (size : Q)
    (numTypes : Z) (streets : list Street.t) (intersections : gmap Z Intersection.t)
    (startStreetIndices : list Z) (startStreetProbabilities : list Q)
    (network : CarVisualization) (capacity : Q) :
  _streets network = streets ->
  computeMaxCars network (carSizeDefaultY * size) 10 maxCars = Ok capacity ->
  construct carSizeDefaultX carSizeDefaultY maxCars density size numTypes streets
    intersections startStreetIndices startStreetProbabilities
  = Ok (mkCarVisualization [] streets intersections startStreetIndices
          startStreetProbabilities (getNumberOfCars capacity density) 10 maxCars
          (Point2d.create (carSizeDefaultX * size) (carSizeDefaultY * size)) numTypes,
        findCorners streets).
Proof.
  intros Hstreets Hcapacity. unfold construct. cbv zeta.
  erewrite changeDensity_from_capacity.
  - reflexivity.
  - unfold setSize, with_carSize.
    cbn [carParticles _streets _intersections _startStreetIndices
         _startStreetProbabilities _numCars _packingRatio _maxCars _carSize _numTypes
         Point2d.y].
    rewrite <- Hcapacity. apply computeMaxCars_streets.
    cbn [_streets]. symmetry. exact Hstreets.
Qed.

Lemma construct_target_follows_size_witness :
  _streets (Sample.oneStreet [] 0) = [Sample.deadEnd] /\
  computeMaxCars (Sample.oneStreet [] 0) (1 * 2) 10 9000 = Ok 5%Q /\
  construct 1 1 9000 Medium 2 9 [Sample.deadEnd] ∅ [0] [1%Q]
  = Ok (mkCarVisualization [] [Sample.deadEnd] ∅ [0] [1%Q] (getNumberOfCars 5 Medium)
          10 9000 (Point2d.create (1 * 2) (1 * 2)) 9,
        findCorners [Sample.deadEnd]).
Proof.
  assert (H : computeMaxCars (Sample.oneStreet [] 0) (1 * 2) 10 9000 = Ok 5%Q).
  { vm_compute. reflexivity. }
  split; [reflexivity|]. split; [exact H|].
  apply (construct_target_follows_size 1 1 9000 Medium 2 9 [Sample.deadEnd] ∅ [0] [1%Q]
           (Sample.oneStreet [] 0) 5 eq_refl H).
Defined.
